(** * proyecto-genetico: the evolutionary engine of [api/index.py]

    A shallow embedding of the genetic-algorithm TSP solver and the proofs of
    its specification.

    Conventions of the embedding.
    - A Python [float] that is read from the request (a coordinate, a radius,
      the mutation rate) or returned by [random.random()] is a rational [Q];
      [+], [-], [*], [/] and the comparisons on it are exact.  [math.sqrt]
      lands in the real numbers [R], and so do the route costs built from it.
      Rounding, overflow, infinities and NaN are outside these definitions;
      the module [Binary64] transcribes the fitness function on the doubles
      themselves, with the exceptions their arithmetic raises.
    - A Python [int] is a [Z]; a position produced by [range] is a [nat].
    - A route is a [list Z]; [cities[k]] follows Python's indexing, negative
      [k] counting from the end, [IndexError] outside the list.
    - The module-level generator of [random] is a tape of raw generator words
      and a cursor; every call consumes one word.
    - An exception is the [Raise] outcome of the [result] type.  The two
      [while] loops run on fuel; the fuel they are given always suffices
      (see [evolve_error]). *)

From Stdlib Require Import Floats.
From stdpp Require Import base list.
From Stdlib Require Import ZArith QArith Qround Qreals Reals Psatz.
From Stdlib Require Import Permutation Sorted.

Local Open Scope Z_scope.

(** ** Outcomes and the generator state *)

Inductive error : Type :=
| IndexError       (* a subscript outside the sequence *)
| TypeError        (* [None] used where an integer is needed *)
| OutOfFuel.       (* the bound given to a [while] loop was too small *)

Inductive result (A : Type) : Type :=
| Ok (a : A)
| Raise (e : error).
Arguments Ok {A} a.
Arguments Raise {A} e.

(** What the run did, in order; the log is ghost state: no function reads it. *)
Inductive event : Type :=
| EvInit                       (* [create_initial_population] was called *)
| EvGeneration                 (* one pass through the body of the evolution loop *)
| EvFitness (route : list Z)   (* [get_route_distance] was called on [route] *)
| EvChoice (idx : nat).        (* [random.choice] returned the entry at [idx] *)

Record state : Type := mkState {
  tape : nat -> N;       (* the raw words the generator will produce *)
  cursor : nat;          (* how many of them have been consumed *)
  trace : list event     (* newest event first *)
}.

Definition M (A : Type) : Type := state -> result (A * state).

Definition ret {A} (a : A) : M A := fun s => Ok (a, s).

Definition bind {A B} (m : M A) (k : A -> M B) : M B :=
  fun s => match m s with
           | Ok (a, s') => k a s'
           | Raise e => Raise e
           end.

Definition raise {A} (e : error) : M A := fun _ => Raise e.

Definition lift {A} (r : result A) : M A :=
  fun s => match r with Ok a => Ok (a, s) | Raise e => Raise e end.

Definition log (e : event) : M unit :=
  fun s => Ok (tt, mkState (tape s) (cursor s) (e :: trace s)).

Declare Scope py_scope.
Delimit Scope py_scope with py.
Notation "x <- m ;; k" := (bind m (fun x => k))
  (at level 100, m at next level, right associativity) : py_scope.
Notation "m ;;; k" := (bind m (fun _ => k))
  (at level 100, right associativity) : py_scope.
Local Open Scope py_scope.

(** ** Python sequences *)

(** The exception-only fragment: [result] is a monad of its own. *)
Definition rbind {A B} (r : result A) (k : A -> result B) : result B :=
  match r with Ok a => k a | Raise e => Raise e end.

Notation "x <~ r ;; k" := (rbind r (fun x => k))
  (at level 100, r at next level, right associativity) : py_scope.

(** [seq[i]] for a position [i] that comes out of [range]. *)
Definition at_pos {A} (l : list A) (i : nat) : result A :=
  match l !! i with
  | Some a => Ok a
  | None => Raise IndexError
  end.

(** [seq[i] = v] for a position [i] that comes out of [range]. *)
Definition set_pos {A} (l : list A) (i : nat) (v : A) : result (list A) :=
  if (i <? length l)%nat then Ok (<[i := v]> l) else Raise IndexError.

(** [seq[k]] for a Python integer [k]. *)
Definition getitem {A} (l : list A) (k : Z) : result A :=
  let n := Z.of_nat (length l) in
  let k' := if k <? 0 then k + n else k in
  if (0 <=? k') && (k' <? n) then
    match l !! Z.to_nat k' with
    | Some a => Ok a
    | None => Raise IndexError
    end
  else Raise IndexError.

(** [x[i], x[j] = x[j], x[i]] on a list, for positions inside it. *)
Definition swap {A} (l : list A) (i j : nat) : result (list A) :=
  match l !! i, l !! j with
  | Some a, Some b => Ok (<[j := a]> (<[i := b]> l))
  | _, _ => Raise IndexError
  end.

(** ** The [random] module

    One word of the tape stands for the generator state behind one call:
    [random.random()] scales 53 bits of it into [0, 1), and
    [random._randbelow(n)], the primitive under [random.choice] and
    [random.shuffle], reduces it below [n].  A statement for all tapes is a
    statement for every outcome of the random draws. *)

(** The next raw word of the generator. *)
Definition next_word : M N :=
  fun s => Ok (tape s (cursor s), mkState (tape s) (S (cursor s)) (trace s)).

(** [random.random()]: 53 random bits scaled into [0, 1). *)
Definition random_bits : N := 2 ^ 53.

Definition random_random : M Q :=
  w <- next_word ;;
  ret (Z.of_N (w mod random_bits)%N # Pos.pow 2 53).

(** [int(random.random() * n)] for a length [n]; the product is not
    negative, so truncation is the floor. *)
Definition random_index (n : nat) : M nat :=
  u <- random_random ;;
  ret (Z.to_nat (Qfloor (u * inject_Z (Z.of_nat n)))).

(** [random._randbelow(n)] for [n > 0]: some value below [n]. *)
Definition randbelow (n : nat) : M nat :=
  w <- next_word ;;
  ret (N.to_nat (w mod N.of_nat n)%N).

(** [random.choice(seq)]: [seq[_randbelow(len(seq))]], [IndexError] on an
    empty sequence; the index is logged. *)
Definition random_choice {A} (seq : list A) : M A :=
  match seq with
  | [] => raise IndexError
  | _ =>
      i <- randbelow (length seq) ;;
      match seq !! i with
      | Some a => log (EvChoice i) ;;; ret a
      | None => raise IndexError
      end
  end.

(** [random.shuffle(x)]: [for i in reversed(range(1, len(x)))], swap [x[i]]
    with [x[randbelow(i + 1)]]. *)
Fixpoint shuffle_from {A} (i : nat) (x : list A) : M (list A) :=
  match i with
  | O => ret x
  | S i' =>
      j <- randbelow (S i) ;;
      x' <- lift (swap x i j) ;;
      shuffle_from i' x'
  end.

Definition random_shuffle {A} (x : list A) : M (list A) :=
  shuffle_from (length x - 1)%nat x.

(** ** Models *)

Record Point : Type := mkPoint { p_x : Q; p_y : Q }.
Record Obstacle : Type := mkObstacle { o_x : Q; o_y : Q; o_radius : Q }.

(** ** Geometry *)

Definition Qltb (a b : Q) : bool := negb (Qle_bool b a).

(** Python's [min(a, b)] and [max(a, b)]: the first argument is kept unless
    the second is strictly better. *)
Definition py_min (a b : Q) : Q := if Qltb b a then b else a.
Definition py_max (a b : Q) : Q := if Qltb a b then b else a.

Definition calculate_distance (city1 city2 : Point) : R :=
  sqrt (Q2R ((p_x city1 - p_x city2) ^ 2 + (p_y city1 - p_y city2) ^ 2)).

Definition line_intersects_circle (p1 p2 : Point) (circle : Obstacle) : bool :=
  let dx := (p_x p2 - p_x p1)%Q in
  let dy := (p_y p2 - p_y p1)%Q in
  if Qeq_bool dx 0 && Qeq_bool dy 0 then false
  else
    let t := ((((o_x circle - p_x p1) * dx + (o_y circle - p_y p1) * dy)
               / (dx * dx + dy * dy)))%Q in
    let t := py_max 0 (py_min 1 t) in
    let closest_x := (p_x p1 + t * dx)%Q in
    let closest_y := (p_y p1 + t * dy)%Q in
    let dist_sq := ((closest_x - o_x circle) ^ 2 + (closest_y - o_y circle) ^ 2)%Q in
    Qltb dist_sq (o_radius circle ^ 2).

(** ** Fitness *)

(** A route is a list of city indices. *)
Abbreviation route := (list Z) (only parsing).

Definition PENALTY : Z := 10000.

(** The inner loop [for obs in obstacles] of [get_route_distance]. *)
Definition obstacle_loop (from_city to_city : Point) (obstacles : list Obstacle)
    (penalty : Z) : Z :=
  fold_left (fun penalty obs =>
               if line_intersects_circle from_city to_city obs
               then penalty + PENALTY else penalty)
            obstacles penalty.

(** The outer loop [for i in range(len(route_indices))], over the positions
    still to visit, with the two accumulators. *)
Fixpoint route_loop (positions : list nat) (route_indices : route)
    (cities : list Point) (obstacles : list Obstacle)
    (dist : R) (penalty : Z) : result (R * Z) :=
  match positions with
  | [] => Ok (dist, penalty)
  | i :: rest =>
      a <~ at_pos route_indices i ;;
      from_city <~ getitem cities a ;;
      b <~ at_pos route_indices ((i + 1) mod length route_indices)%nat ;;
      to_city <~ getitem cities b ;;
      let d := calculate_distance from_city to_city in
      route_loop rest route_indices cities obstacles
        (dist + d)%R (obstacle_loop from_city to_city obstacles penalty)
  end.

Definition get_route_distance (route_indices : route) (cities : list Point)
    (obstacles : list Obstacle) : result R :=
  acc <~ route_loop (seq 0 (length route_indices)) route_indices cities
           obstacles 0%R 0 ;;
  Ok (fst acc + IZR (snd acc))%R.

(** ** Initial population *)

Fixpoint init_loop (k : nat) (indices : route) (population : list route)
    : M (list route) :=
  match k with
  | O => ret population
  | S k' =>
      indices' <- random_shuffle indices ;;
      init_loop k' indices' (population ++ [indices'])
  end.

(** [list(range(n))]. *)
Definition range (n : nat) : route := map Z.of_nat (seq 0 n).

Definition create_initial_population (pop_size : Z) (n_cities : nat)
    : M (list route) :=
  init_loop (Z.to_nat pop_size) (range n_cities) [].

(** ** Ordered crossover *)

(** [for i in range(start, end): child[i] = parent1[i]]. *)
Fixpoint copy_loop (positions : list nat) (parent1 : route)
    (child : list (option Z)) : result (list (option Z)) :=
  match positions with
  | [] => Ok child
  | i :: rest =>
      v <~ at_pos parent1 i ;;
      child' <~ set_pos child i (Some v) ;;
      copy_loop rest parent1 child'
  end.

(** [v in child]; an unset slot is [None], which equals no integer. *)
Definition in_child (v : Z) (child : list (option Z)) : bool :=
  existsb (fun slot => match slot with
                       | Some w => v =? w
                       | None => false
                       end) child.

(** [while parent2[p2_index] in child: p2_index += 1].  The index grows by
    one each turn and the subscript raises at [len(parent2)], so
    [len(parent2)] turns are always enough. *)
Fixpoint scan (fuel : nat) (parent2 : route) (child : list (option Z))
    (p2_index : nat) : result nat :=
  v <~ at_pos parent2 p2_index ;;
  if in_child v child then
    match fuel with
    | O => Raise OutOfFuel
    | S fuel' => scan fuel' parent2 child (S p2_index)
    end
  else Ok p2_index.

(** [for i in range(len(child))], over the positions still to visit. *)
Fixpoint fill_loop (positions : list nat) (parent2 : route)
    (child : list (option Z)) (p2_index : nat)
    : result (list (option Z)) :=
  match positions with
  | [] => Ok child
  | i :: rest =>
      slot <~ at_pos child i ;;
      match slot with
      | None =>
          p2_index' <~ scan (length parent2) parent2 child p2_index ;;
          v <~ at_pos parent2 p2_index' ;;
          child' <~ set_pos child i (Some v) ;;
          fill_loop rest parent2 child' p2_index'
      | Some _ => fill_loop rest parent2 child p2_index
      end
  end.

(** A child leaves [breed] as a route.  A slot still [None] is not a city
    index; Python would raise [TypeError] when it is used as one, the
    embedding raises it here. *)
Fixpoint as_route (child : list (option Z)) : result route :=
  match child with
  | [] => Ok []
  | Some v :: rest => r <~ as_route rest ;; Ok (v :: r)
  | None :: _ => Raise TypeError
  end.

Definition breed (parent1 parent2 : route) : M route :=
  start <- random_index (length parent1) ;;
  end_ <- random_index (length parent1) ;;
  let '(start, end_) := if (end_ <? start)%nat then (end_, start)
                        else (start, end_) in
  let child := replicate (length parent1) (@None Z) in
  child <- lift (copy_loop (seq start (end_ - start)) parent1 child) ;;
  child <- lift (fill_loop (seq 0 (length child)) parent2 child 0%nat) ;;
  lift (as_route child).

(** ** Swap mutation *)

Fixpoint mutate_loop (positions : list nat) (route_ : route)
    (mutation_rate : Q) : M route :=
  match positions with
  | [] => ret route_
  | i :: rest =>
      u <- random_random ;;
      if Qltb u mutation_rate then
        swap_with <- random_index (length route_) ;;
        route' <- lift (swap route_ i swap_with) ;;
        mutate_loop rest route' mutation_rate
      else mutate_loop rest route_ mutation_rate
  end.

Definition mutate (route_ : route) (mutation_rate : Q) : M route :=
  mutate_loop (seq 0 (length route_)) route_ mutation_rate.

(** ** The evolution endpoint *)

Record EvolveRequest : Type := mkRequest {
  cities : list Point;
  obstacles : list Obstacle;
  population : list route;
  pop_size : Z;
  mutation_rate : Q;
  generations_per_step : Z
}.

Record EvolveResponse : Type := mkResponse {
  r_population : list route;
  best_route : route;
  best_distance : R;
  generation : Z
}.

(** A scored route: [(score, individual)]. *)
Abbreviation scored := (R * list Z)%type (only parsing).

Definition Rltb (a b : R) : bool := if Rlt_dec a b then true else false.

(** [scored_pop.sort(key=lambda x: x[0])]: a stable sort that compares keys
    with [<] only.  On keys that are totally ordered every stable sort gives
    the same list; this one inserts from the right. *)
Fixpoint insert_scored (x : scored) (l : list scored) : list scored :=
  match l with
  | [] => [x]
  | y :: l' => if Rltb (fst y) (fst x) then y :: insert_scored x l'
               else x :: y :: l'
  end.

Fixpoint sort_scored (l : list scored) : list scored :=
  match l with
  | [] => []
  | x :: l' => insert_scored x (sort_scored l')
  end.

(** [for individual in current_pop: ... scored_pop.append((score, individual))]. *)
Fixpoint score_loop (current_pop : list route) (cities : list Point)
    (obstacles : list Obstacle) (scored_pop : list scored) : M (list scored) :=
  match current_pop with
  | [] => ret scored_pop
  | individual :: rest =>
      log (EvFitness individual) ;;;
      score <- lift (get_route_distance individual cities obstacles) ;;
      score_loop rest cities obstacles (scored_pop ++ [(score, individual)])
  end.

Definition ELITE : nat := 10.
Definition POOL : nat := 50.

(** [while len(new_pop) < req.pop_size].  Every turn appends one route, so
    [pop_size - len(new_pop)] turns are enough: the fuel passed by
    [generation_step]. *)
Fixpoint breeding_loop (fuel : nat) (scored_pop : list scored) (pop_size : Z)
    (mutation_rate : Q) (new_pop : list route) : M (list route) :=
  if Z.of_nat (length new_pop) <? pop_size then
    match fuel with
    | O => raise OutOfFuel
    | S fuel' =>
        parent1 <- random_choice (take POOL scored_pop) ;;
        parent2 <- random_choice (take POOL scored_pop) ;;
        child <- breed (snd parent1) (snd parent2) ;;
        child <- mutate child mutation_rate ;;
        breeding_loop fuel' scored_pop pop_size mutation_rate (new_pop ++ [child])
    end
  else ret new_pop.

(** The body of [for _ in range(req.generations_per_step)]. *)
Definition generation_step (cities : list Point) (obstacles : list Obstacle)
    (pop_size : Z) (mutation_rate : Q) (current_pop : list route)
    : M (list route) :=
  log EvGeneration ;;;
  scored_pop <- score_loop current_pop cities obstacles [] ;;
  let scored_pop := sort_scored scored_pop in
  let new_pop := map snd (take ELITE scored_pop) in
  breeding_loop (Z.to_nat (pop_size - Z.of_nat (length new_pop)))
    scored_pop pop_size mutation_rate new_pop.

Fixpoint evolution_loop (n : nat) (req : EvolveRequest)
    (current_pop : list route) : M (list route) :=
  match n with
  | O => ret current_pop
  | S n' =>
      new_pop <- generation_step (cities req) (obstacles req) (pop_size req)
                   (mutation_rate req) current_pop ;;
      evolution_loop n' req new_pop
  end.

Definition empty_response : EvolveResponse := mkResponse [] [] 0%R 0.

Definition evolve (req : EvolveRequest) : M EvolveResponse :=
  if (length (cities req) <? 2)%nat then ret empty_response
  else
    current_pop <-
      match population req with
      | [] => log EvInit ;;;
              create_initial_population (pop_size req) (length (cities req))
      | _ => ret (population req)
      end ;;
    current_pop <- evolution_loop (Z.to_nat (generations_per_step req)) req
                     current_pop ;;
    best_route_indices <- lift (at_pos current_pop 0%nat) ;;
    log (EvFitness best_route_indices) ;;;
    best_dist <- lift (get_route_distance best_route_indices (cities req)
                         (obstacles req)) ;;
    ret (mkResponse current_pop best_route_indices best_dist 0).

(** * Specification-side definitions *)

(** A route over [n] cities: a permutation of [0, n). *)
Definition is_route (n : nat) (r : list Z) : Prop := r ≡ₚ range n.

(** The edges of the closed tour through [l]: every consecutive pair, and the
    pair from the last element back to the first. *)
Definition closed_edges {A} (l : list A) : list (A * A) :=
  match l with
  | [] => []
  | x :: rest => zip l (rest ++ [x])
  end.

Definition Rsum (l : list R) : R := fold_right Rplus 0%R l.

(** The Euclidean distance between two points of the plane: the root of the
    sum of the squared differences of their coordinates, in the real
    numbers. *)
Definition euclidean (a b : Point) : R :=
  sqrt (Rsqr (Q2R (p_x b) - Q2R (p_x a)) + Rsqr (Q2R (p_y b) - Q2R (p_y a))).

(** The length of the closed tour through [pts] as the specification words
    it: the sum of the Euclidean distances over its edges. *)
Definition euclidean_tour_length (pts : list Point) : R :=
  Rsum (map (fun e => euclidean (fst e) (snd e)) (closed_edges pts)).

(** Numbers on which the double arithmetic of the source stays far from
    overflow and from underflow: the multiples of [2 ^ -256] of magnitude at
    most [2 ^ 256].  A non-zero difference of two of them is at least
    [2 ^ -256], so its square is not rounded to zero, and no square exceeds
    [2 ^ 514]. *)
Definition moderate (q : Q) : Prop :=
  exists k : Z, Z.abs k <= 2 ^ 512 /\ (q == k # 2 ^ 256)%Q.

Definition moderate_inputs (cities : list Point) (obstacles : list Obstacle)
    : Prop :=
  Forall (fun p => moderate (p_x p) /\ moderate (p_y p)) cities
  /\ Forall (fun o => moderate (o_x o) /\ moderate (o_y o)
                      /\ moderate (o_radius o)) obstacles.

(** The cost of a tour from what the code computes on its edges: the
    distances, and 10000 for every pair of an edge and an obstacle that
    collide. *)
Definition tour_length (pts : list Point) : R :=
  Rsum (map (fun e => calculate_distance (fst e) (snd e)) (closed_edges pts)).

Definition collisions (pts : list Point) (obstacles : list Obstacle) : nat :=
  length (List.filter
            (fun eo => line_intersects_circle (fst (fst eo)) (snd (fst eo)) (snd eo))
            (list_prod (closed_edges pts) obstacles)).

Definition spec_route_cost (pts : list Point) (obstacles : list Obstacle) : R :=
  (tour_length pts + 10000 * INR (collisions pts obstacles))%R.

(** The costs of the routes of a population, in order. *)
Fixpoint population_costs (cities : list Point) (obstacles : list Obstacle)
    (pop : list (list Z)) : result (list R) :=
  match pop with
  | [] => Ok []
  | r :: rest =>
      c <~ get_route_distance r cities obstacles ;;
      cs <~ population_costs cities obstacles rest ;;
      Ok (c :: cs)
  end.

(** The least of a list of costs; none for the empty list. *)
Fixpoint min_cost (costs : list R) : option R :=
  match costs with
  | [] => None
  | c :: rest =>
      match min_cost rest with
      | None => Some c
      | Some m => Some (Rmin c m)
      end
  end.

(** * Notions used by the proofs *)

(** How many obstacles the edge from [a] to [b] collides with. *)
Definition hits (a b : Point) (obstacles : list Obstacle) : nat :=
  length (List.filter (line_intersects_circle a b) obstacles).

(** [e] is the edge that leaves position [i] of the closed tour [pts]. *)
Definition edge_at (pts : list Point) (i : nat) (e : Point * Point) : Prop :=
  pts !! i = Some (fst e) /\ pts !! ((i + 1) mod length pts)%nat = Some (snd e).

(** The state after one word of the generator has been consumed. *)
Definition advance (s : state) : state :=
  mkState (tape s) (S (cursor s)) (trace s).

(** What a run returned, without the state it left. *)
Definition value {A} (r : result (A * state)) : result A :=
  match r with Ok (a, _) => Ok a | Raise e => Raise e end.

(** The values already placed in a partly filled child. *)
Definition placed (child : list (option Z)) : list Z :=
  omap (fun slot => slot) child.

(** The slots of a child before position [i] are set. *)
Definition filled_below (i : nat) (child : list (option Z)) : Prop :=
  forall j, (j < i)%nat -> (j < length child)%nat ->
            exists v, child !! j = Some (Some v).

(** Ascending order of the scores. *)
Definition score_le (a b : R * list Z) : Prop := (fst a <= fst b)%R.

(** [x] pairs the route [r] with its fitness. *)
Definition scored_of (cities : list Point) (obstacles : list Obstacle)
    (r : list Z) (x : R * list Z) : Prop :=
  get_route_distance r cities obstacles = Ok (fst x) /\ snd x = r.

(** * Concrete inputs *)

(** A generator that produces [words] and then zeros, before its first call. *)
Definition tape_of (words : list N) : nat -> N := fun n => nth n words 0%N.
Definition fresh (words : list N) : state := mkState (tape_of words) 0 [].

(** The raw words for which [random.random()] returns one half and three
    quarters. *)
Definition half_word : N := 2 ^ 52.
Definition three_quarters_word : N := 3 * 2 ^ 51.

(** Four cities on a line, one unit apart. *)
Definition line_cities : list Point :=
  [mkPoint 0 0; mkPoint 1 0; mkPoint 2 0; mkPoint 3 0].

(** A request whose population is eleven copies of the detour
    [0, 2, 1, 3], evolved for one generation. *)
Definition stale_request : EvolveRequest :=
  mkRequest line_cities [] (replicate 11 [0; 2; 1; 3]) 11 (1 # 2) 1.

(** Generator words for which the one child bred by [stale_request] keeps
    the order of its parents and then has positions 1 and 2 swapped. *)
Definition stale_words : list N :=
  [0; 0; 0; 0; half_word; 0; half_word; half_word; half_word]%N.

(** * Further notions *)

(** The squared distance from the centre of [circle] to the point at
    parameter [t] of the line through [p1] and [p2]; the parameters of the
    segment are those between 0 and 1. *)
Definition sq_dist_at (p1 p2 : Point) (circle : Obstacle) (t : Q) : Q :=
  ((p_x p1 + t * (p_x p2 - p_x p1) - o_x circle) ^ 2
   + (p_y p1 + t * (p_y p2 - p_y p1) - o_y circle) ^ 2)%Q.

(** The cities a route visits, in order: [[cities[k] for k in route]]. *)
Fixpoint route_points (cities : list Point) (r : list Z) : result (list Point) :=
  match r with
  | [] => Ok []
  | k :: rest =>
      p <~ getitem cities k ;;
      pts <~ route_points cities rest ;;
      Ok (p :: pts)
  end.

(** A subscript that Python accepts on a sequence of length [n]. *)
Definition valid_index (n : nat) (k : Z) : Prop :=
  - Z.of_nat n <= k < Z.of_nat n.

(** How many of the closed edges through [pts] collide with one obstacle. *)
Definition edges_hit (pts : list Point) (obs : Obstacle) : nat :=
  length (List.filter (fun e => line_intersects_circle (fst e) (snd e) obs)
            (closed_edges pts)).

(** The consecutive pairs of a list, without the pair that closes the tour. *)
Definition path_edges {A} (l : list A) : list (A * A) := zip l (tail l).

(** The cost of a tour from its edges. *)
Definition edges_cost (es : list (Point * Point)) (obstacles : list Obstacle) : R :=
  (Rsum (map (fun e => calculate_distance (fst e) (snd e)) es)
   + 10000 * INR (list_sum (map (fun e => hits (fst e) (snd e) obstacles) es)))%R.

(** The position that [int(random.random() * n)] yields for a raw word. *)
Definition index_of_word (n : nat) (w : N) : nat :=
  Z.to_nat (Qfloor ((Z.of_N (w mod random_bits)%N # Pos.pow 2 53)
                    * inject_Z (Z.of_nat n))).

(** Ordered crossover as a function of the cut points: the segment
    [parent1[start:end]] stays in place, and the values of [parent2] that are
    not in the segment fill the other positions from left to right, in the
    order they have in [parent2]. *)
Definition ox1 (start end_ : nat) (parent1 parent2 : list Z) : list Z :=
  let segment := take (end_ - start) (drop start parent1) in
  let others := filter (fun v => v ∉ segment) parent2 in
  take start others ++ segment ++ drop start others.

(** The unset slots of [child] take the values of [avail], in order. *)
Fixpoint fill_slots (child : list (option Z)) (avail : list Z)
    : list (option Z) :=
  match child with
  | [] => []
  | Some v :: rest => Some v :: fill_slots rest avail
  | None :: rest =>
      match avail with
      | a :: avail' => Some a :: fill_slots rest avail'
      | [] => None :: fill_slots rest []
      end
  end.

(** The state after [k] words of the generator have been consumed. *)
Definition advance_by (k : nat) (s : state) : state :=
  mkState (tape s) (k + cursor s) (trace s).

(** [s'] comes after [s] on the same tape with the same log. *)
Definition later_draw (s s' : state) : Prop :=
  tape s' = tape s /\ trace s' = trace s /\ (cursor s <= cursor s')%nat.

(** [e] logs a choice at an index below [m]. *)
Definition choice_below (m : nat) (e : event) : Prop :=
  exists i, e = EvChoice i /\ (i < m)%nat.

(** A request that leaves every optional field of [EvolveRequest] at its
    default: no population, [pop_size = 100], [mutation_rate = 0.01],
    [generations_per_step = 10]. *)
Definition default_request (cities : list Point) (obstacles : list Obstacle)
    : EvolveRequest :=
  mkRequest cities obstacles [] 100 (1 # 100) 10.

(** * The fitness function in double precision *)

(** The definitions above read a Python [float] as an exact number.  The
    arithmetic of the source is IEEE 754 binary64: every operation rounds to
    the nearest double, [x ** 2] raises [OverflowError] when the square of a
    finite number is out of range, [/] raises [ZeroDivisionError] on a zero
    divisor and [math.sqrt] raises [ValueError] on a negative argument.  This
    module transcribes [calculate_distance], [line_intersects_circle] and
    [get_route_distance] with that arithmetic, on the primitive doubles. *)
Module Binary64.

(** What a subscript of the model above found, as an option. *)
Definition found {A} (r : result A) : option A :=
  match r with Ok a => Some a | Raise _ => None end.

Inductive error : Type :=
| IndexError          (* a subscript outside the sequence *)
| OverflowError       (* [x ** 2] out of the range of the doubles *)
| ZeroDivisionError   (* [a / b] with [b == 0.0] *)
| ValueError.         (* [math.sqrt] of a negative number *)

Inductive result (A : Type) : Type :=
| Ok (a : A)
| Raise (e : error).
Arguments Ok {A} a.
Arguments Raise {A} e.

Definition rbind {A B} (r : result A) (k : A -> result B) : result B :=
  match r with Ok a => k a | Raise e => Raise e end.

Declare Scope b64_scope.
Delimit Scope b64_scope with b64.
Notation "x <~ r ;; k" := (rbind r (fun x => k))
  (at level 100, r at next level, right associativity) : b64_scope.
Local Open Scope b64_scope.

(** A subscript raises [IndexError] when it finds nothing. *)
Definition located {A} (o : option A) : result A :=
  match o with
  | Some a => Ok a
  | None => Raise IndexError
  end.

Record Point : Type := mkPoint { p_x : float; p_y : float }.
Record Obstacle : Type := mkObstacle { o_x : float; o_y : float; o_radius : float }.

(** ** Arithmetic *)

(** [x ** 2]: the square, rounded; [OverflowError] when [x] is finite and
    its square is not.  (The C library's [pow(x, 2.0)] is taken to round the
    exact square correctly.) *)
Definition square (x : float) : result float :=
  let y := (x * x)%float in
  if is_finite x && is_infinity y then Raise OverflowError else Ok y.

(** [a / b]. *)
Definition truediv (a b : float) : result float :=
  if (b =? 0)%float then Raise ZeroDivisionError else Ok (a / b)%float.

(** [math.sqrt(x)]. *)
Definition math_sqrt (x : float) : result float :=
  if (x <? 0)%float then Raise ValueError else Ok (PrimFloat.sqrt x).

(** [min(a, b)] and [max(a, b)]: the first argument is kept unless the
    second is strictly better; a NaN is never strictly better. *)
Definition py_min (a b : float) : float := if (b <? a)%float then b else a.
Definition py_max (a b : float) : float := if (a <? b)%float then b else a.

(** [float(n)] for an integer [n] that is not negative and below [2 ^ 63]. *)
Definition float_of_int (n : Z) : float := of_uint63 (Uint63.of_Z n).

(** ** Geometry *)

Definition calculate_distance (city1 city2 : Point) : result float :=
  a <~ square (p_x city1 - p_x city2) ;;
  b <~ square (p_y city1 - p_y city2) ;;
  math_sqrt (a + b).

Definition line_intersects_circle (p1 p2 : Point) (circle : Obstacle)
    : result bool :=
  let dx := (p_x p2 - p_x p1)%float in
  let dy := (p_y p2 - p_y p1)%float in
  if (dx =? 0)%float && (dy =? 0)%float then Ok false
  else
    t <~ truediv ((o_x circle - p_x p1) * dx + (o_y circle - p_y p1) * dy)
                 (dx * dx + dy * dy) ;;
    let t := py_max 0 (py_min 1 t) in
    let closest_x := (p_x p1 + t * dx)%float in
    let closest_y := (p_y p1 + t * dy)%float in
    a <~ square (closest_x - o_x circle) ;;
    b <~ square (closest_y - o_y circle) ;;
    let dist_sq := (a + b)%float in
    r2 <~ square (o_radius circle) ;;
    Ok (dist_sq <? r2)%float.

(** ** Fitness *)

(** The inner loop [for obs in obstacles]; [penalty] is a Python [int]. *)
Fixpoint obstacle_loop (from_city to_city : Point) (obstacles : list Obstacle)
    (penalty : Z) : result Z :=
  match obstacles with
  | [] => Ok penalty
  | obs :: rest =>
      hit <~ line_intersects_circle from_city to_city obs ;;
      obstacle_loop from_city to_city rest
        (if hit then penalty + PENALTY else penalty)
  end.

(** The outer loop [for i in range(len(route_indices))].  [dist] starts as
    the integer 0, which the first [dist += d] turns into the double [d];
    the double [0.0] does the same. *)
Fixpoint route_loop (positions : list nat) (route_indices : list Z)
    (cities : list Point) (obstacles : list Obstacle)
    (dist : float) (penalty : Z) : result (float * Z) :=
  match positions with
  | [] => Ok (dist, penalty)
  | i :: rest =>
      a <~ located (found (at_pos route_indices i)) ;;
      from_city <~ located (found (getitem cities a)) ;;
      b <~ located (found (at_pos route_indices
                             ((i + 1) mod length route_indices)%nat)) ;;
      to_city <~ located (found (getitem cities b)) ;;
      d <~ calculate_distance from_city to_city ;;
      penalty' <~ obstacle_loop from_city to_city obstacles penalty ;;
      route_loop rest route_indices cities obstacles (dist + d)%float penalty'
  end.

Definition get_route_distance (route_indices : list Z) (cities : list Point)
    (obstacles : list Obstacle) : result float :=
  acc <~ route_loop (seq 0 (length route_indices)) route_indices cities
           obstacles 0%float 0 ;;
  Ok (fst acc + float_of_int (snd acc))%float.

End Binary64.

(** A double whose sign bit is clear, or a NaN: a double that is not
    negative. *)
Definition unsigned (f : spec_float) : Prop :=
  match f with
  | S754_zero s | S754_infinity s | S754_finite s _ _ => s = false
  | S754_nan => True
  end.

Definition not_negative (x : float) : Prop := unsigned (Prim2SF x).

(** Cities and obstacles on which the arithmetic raises nothing: the
    distance between any two of the cities, and the test of the segment
    between them against any of the obstacles, return. *)
Definition benign (cities : list Binary64.Point)
    (obstacles : list Binary64.Obstacle) : Prop :=
  forall a b, a ∈ cities -> b ∈ cities ->
    (exists d, Binary64.calculate_distance a b = Binary64.Ok d)
    /\ forall obs, obs ∈ obstacles ->
         exists hit, Binary64.line_intersects_circle a b obs = Binary64.Ok hit.

(** * Geometry *)

Lemma Qeq_bool_refl_minus (a : Q) : Qeq_bool (a - a) 0 = true.
Proof. apply Qeq_bool_iff. ring. Qed.

(** C8: a segment whose two endpoints are the same point meets no obstacle,
    whatever the centre and the radius of the obstacle. *)
Theorem zero_length_segment_never_intersects (p : Point) (circle : Obstacle) :
  line_intersects_circle p p circle = false.
Proof.
  unfold line_intersects_circle.
  by rewrite !Qeq_bool_refl_minus.
Qed.

(** The same for two endpoints whose coordinates are equal as rationals. *)
Lemma coincident_endpoints_never_intersect (p1 p2 : Point) (circle : Obstacle) :
  (p_x p1 == p_x p2)%Q -> (p_y p1 == p_y p2)%Q ->
  line_intersects_circle p1 p2 circle = false.
Proof.
  intros Hx Hy. unfold line_intersects_circle.
  assert (Hdx : Qeq_bool (p_x p2 - p_x p1) 0 = true)
    by (apply Qeq_bool_iff; rewrite Hx; ring).
  assert (Hdy : Qeq_bool (p_y p2 - p_y p1) 0 = true)
    by (apply Qeq_bool_iff; rewrite Hy; ring).
  by rewrite Hdx, Hdy.
Qed.

Lemma Qsquare_nonneg (a : Q) : (0 <= a * a)%Q.
Proof. destruct a as [n d]. unfold Qle, Qmult. simpl. nia. Qed.

(** In exact arithmetic the divisor of [line_intersects_circle] is not zero
    past the guard; in doubles rounding can make it zero. *)
Lemma direction_norm_nonzero (dx dy : Q) :
  Qeq_bool dx 0 && Qeq_bool dy 0 = false -> ~ (dx * dx + dy * dy == 0)%Q.
Proof.
  intros Hg Hz.
  pose proof (Qsquare_nonneg dx) as Hx.
  pose proof (Qsquare_nonneg dy) as Hy.
  assert (Hx0 : (dx * dx == 0)%Q) by lra.
  assert (Hy0 : (dy * dy == 0)%Q) by lra.
  apply andb_false_iff in Hg as [Hg|Hg]; apply Qeq_bool_neq in Hg; apply Hg.
  - by destruct (Qmult_integral _ _ Hx0).
  - by destruct (Qmult_integral _ _ Hy0).
Qed.

(** * Fitness *)

Lemma getitem_nonneg {A} (l : list A) (k : Z) (a : A) :
  0 <= k -> l !! Z.to_nat k = Some a -> getitem l k = Ok a.
Proof.
  intros Hk Hl. unfold getitem.
  pose proof (lookup_lt_Some _ _ _ Hl) as Hlt.
  destruct (Z.ltb_spec k 0) as [?|_]; [lia|].
  destruct (Z.leb_spec 0 k) as [_|?]; [|lia].
  destruct (Z.ltb_spec k (Z.of_nat (length l))) as [_|?]; [|lia].
  simpl. by rewrite Hl.
Qed.

Lemma obstacle_loop_count (a b : Point) (obstacles : list Obstacle) (penalty : Z) :
  obstacle_loop a b obstacles penalty
  = penalty + PENALTY * Z.of_nat (hits a b obstacles).
Proof.
  unfold obstacle_loop, hits. revert penalty.
  induction obstacles as [|o os IH]; intros penalty; simpl; [lia|].
  rewrite IH. destruct (line_intersects_circle a b o); simpl length; lia.
Qed.

Lemma collisions_edges (es : list (Point * Point)) (obstacles : list Obstacle) :
  length (List.filter
            (fun eo => line_intersects_circle (fst (fst eo)) (snd (fst eo)) (snd eo))
            (list_prod es obstacles))
  = list_sum (map (fun e => hits (fst e) (snd e) obstacles) es).
Proof.
  induction es as [|e es IH]; [done|].
  simpl. rewrite List.filter_app, length_app, IH. f_equal.
  unfold hits. clear IH. induction obstacles as [|o os IH]; [done|].
  simpl. destruct (line_intersects_circle (fst e) (snd e) o); simpl; by rewrite IH.
Qed.

(** The loop adds to its accumulators the lengths and the collisions of the
    edges that leave the positions it visits. *)
Lemma route_loop_edges (route_indices : route) (cities : list Point)
    (obstacles : list Obstacle) (pts : list Point) :
  Forall2 (fun k p => 0 <= k /\ cities !! Z.to_nat k = Some p) route_indices pts ->
  forall (positions : list nat) (es : list (Point * Point)) (dist : R) (penalty : Z),
  Forall2 (edge_at pts) positions es ->
  route_loop positions route_indices cities obstacles dist penalty
  = Ok ((dist + Rsum (map (fun e => calculate_distance (fst e) (snd e)) es))%R,
        penalty + PENALTY
                  * Z.of_nat (list_sum (map (fun e => hits (fst e) (snd e) obstacles) es))).
Proof.
  intros Hpts positions es. revert positions.
  assert (Hget : forall i p, pts !! i = Some p ->
            exists k, route_indices !! i = Some k /\ getitem cities k = Ok p).
  { intros i p Hp.
    destruct (Forall2_lookup_r _ _ _ _ _ Hpts Hp) as (k & Hk & Hk0 & Hc).
    exists k. split; [done|]. by apply getitem_nonneg. }
  pose proof (Forall2_length _ _ _ Hpts) as Hlen.
  induction es as [|e es IH]; intros positions dist penalty Hes.
  - apply Forall2_nil_inv_r in Hes as ->. unfold Rsum. simpl.
    f_equal. f_equal; [lra|lia].
  - apply Forall2_cons_inv_r in Hes as (i & rest & [Hi Hj] & Hrest & ->).
    cbn [route_loop]. unfold at_pos.
    destruct (Hget _ _ Hi) as (a & -> & Ha). cbn [rbind]. rewrite Ha.
    rewrite Hlen. destruct (Hget _ _ Hj) as (b & -> & Hb). cbn [rbind]. rewrite Hb. cbn [rbind].
    rewrite (IH _ _ _ Hrest), obstacle_loop_count.
    unfold Rsum. simpl. f_equal. f_equal; [lra|lia].
Qed.

(** Position [i] of a closed tour is left by the [i]-th closed edge. *)
Lemma closed_edges_at (pts : list Point) :
  Forall2 (edge_at pts) (seq 0 (length pts)) (closed_edges pts).
Proof.
  destruct pts as [|x rest]; [constructor|].
  unfold closed_edges.
  apply Forall2_same_length_lookup. split.
  - rewrite length_seq, length_zip_with, length_app. cbn [length]. lia.
  - intros i j e Hi He.
    apply lookup_seq in Hi as [-> Hi]. simpl in Hi |- *.
    apply lookup_zip_with_Some in He as (a & b & -> & Ha & Hb).
    split; simpl fst; simpl snd; [done|].
    destruct (decide (i = length rest)) as [->|Hne].
    + rewrite list_lookup_middle in Hb by done.
      replace ((length rest + 1) mod length (x :: rest))%nat with 0%nat.
      * done.
      * replace (length rest + 1)%nat with (length (x :: rest))
          by (cbn [length]; lia).
        by rewrite Nat.Div0.mod_same.
    + rewrite lookup_app_l in Hb by lia.
      rewrite Nat.mod_small by (simpl; lia).
      by replace (i + 1)%nat with (S i) by lia.
Qed.

Lemma calculate_distance_nonneg (a b : Point) : (0 <= calculate_distance a b)%R.
Proof. apply sqrt_pos. Qed.

Lemma tour_length_nonneg (pts : list Point) : (0 <= tour_length pts)%R.
Proof.
  unfold tour_length. induction (closed_edges pts) as [|e es IH]; simpl; [lra|].
  pose proof (calculate_distance_nonneg (fst e) (snd e)). lra.
Qed.

Lemma spec_route_cost_nonneg (pts : list Point) (obstacles : list Obstacle) :
  (0 <= spec_route_cost pts obstacles)%R.
Proof.
  unfold spec_route_cost.
  pose proof (tour_length_nonneg pts).
  pose proof (pos_INR (collisions pts obstacles)). lra.
Qed.

Lemma valid_indices_points (cities : list Point) (route_indices : route) :
  Forall (fun k => 0 <= k < Z.of_nat (length cities)) route_indices ->
  exists pts,
    Forall2 (fun k p => 0 <= k /\ cities !! Z.to_nat k = Some p) route_indices pts.
Proof.
  induction 1 as [|k ks Hk _ [pts IH]]; [by exists []|].
  destruct (lookup_lt_is_Some_2 cities (Z.to_nat k)) as [p Hp]; [lia|].
  exists (p :: pts). constructor; [split; [lia|done]|done].
Qed.

Lemma get_route_distance_points (route_indices : route) (cities : list Point)
    (obstacles : list Obstacle) (pts : list Point) :
  Forall2 (fun k p => 0 <= k /\ cities !! Z.to_nat k = Some p) route_indices pts ->
  get_route_distance route_indices cities obstacles
  = Ok (spec_route_cost pts obstacles).
Proof.
  intros Hpts. unfold get_route_distance.
  pose proof (Forall2_length _ _ _ Hpts) as Hlen.
  rewrite (route_loop_edges _ _ _ _ Hpts _ (closed_edges pts)).
  2:{ rewrite Hlen. apply closed_edges_at. }
  simpl. f_equal. unfold spec_route_cost, tour_length, collisions.
  rewrite collisions_edges, Z.add_0_l, mult_IZR, <- INR_IZR_INZ.
  unfold PENALTY. lra.
Qed.

(** The distance the code computes is the Euclidean distance. *)
Lemma calculate_distance_euclidean (a b : Point) :
  calculate_distance a b = euclidean a b.
Proof.
  unfold calculate_distance, euclidean, Rsqr. f_equal.
  assert (E : ((p_x a - p_x b) ^ 2 + (p_y a - p_y b) ^ 2
               == (p_x a - p_x b) * (p_x a - p_x b)
                  + (p_y a - p_y b) * (p_y a - p_y b))%Q) by (simpl; ring).
  rewrite (Qeq_eqR _ _ E), Q2R_plus, !Q2R_mult, !Q2R_minus. ring.
Qed.

(** The Euclidean distance is the number that is not negative and whose
    square is the sum of the squared coordinate differences. *)
Lemma euclidean_square (a b : Point) :
  (0 <= euclidean a b)%R
  /\ (euclidean a b * euclidean a b
      = (Q2R (p_x b) - Q2R (p_x a)) * (Q2R (p_x b) - Q2R (p_x a))
        + (Q2R (p_y b) - Q2R (p_y a)) * (Q2R (p_y b) - Q2R (p_y a)))%R.
Proof.
  unfold euclidean. split; [apply sqrt_pos|].
  apply sqrt_sqrt.
  pose proof (Rle_0_sqr (Q2R (p_x b) - Q2R (p_x a))).
  pose proof (Rle_0_sqr (Q2R (p_y b) - Q2R (p_y a))).
  unfold Rsqr in *. lra.
Qed.

Lemma tour_length_euclidean (pts : list Point) :
  tour_length pts = euclidean_tour_length pts.
Proof.
  unfold tour_length, euclidean_tour_length. f_equal.
  apply map_ext. intros e. apply calculate_distance_euclidean.
Qed.

(** C5: on a non-empty route of valid city indices, the cost that
    [get_route_distance] returns is the sum of the Euclidean distances over
    the edges of the closed tour, wrap-around edge included, plus 10000 for
    every pair of an edge and an obstacle that collide, and it is never
    negative; a cost is returned on all inputs of moderate magnitude. *)
Theorem route_cost_is_tour_length_plus_penalties (route_indices : route)
    (cities : list Point) (obstacles : list Obstacle) :
  route_indices <> [] ->
  Forall (fun k => 0 <= k < Z.of_nat (length cities)) route_indices ->
  exists pts : list Point,
    Forall2 (fun k p => cities !! Z.to_nat k = Some p) route_indices pts
    /\ (forall c : R,
          get_route_distance route_indices cities obstacles = Ok c ->
          c = (euclidean_tour_length pts
               + 10000 * INR (collisions pts obstacles))%R
          /\ (0 <= c)%R)
    /\ (moderate_inputs cities obstacles ->
        exists c : R, get_route_distance route_indices cities obstacles = Ok c).
Proof.
  intros _ Hvalid.
  destruct (valid_indices_points _ _ Hvalid) as [pts Hpts].
  pose proof (get_route_distance_points _ _ obstacles _ Hpts) as Hcost.
  exists pts. split; [|split].
  - eapply Forall2_impl; [exact Hpts|]. by intros k p [_ ?].
  - intros c Hc. rewrite Hcost in Hc. injection Hc as <-.
    split; [|apply spec_route_cost_nonneg].
    unfold spec_route_cost. by rewrite tour_length_euclidean.
  - intros _. eauto.
Qed.

(** * The generator *)

Lemma next_word_run (s : state) :
  next_word s = Ok (tape s (cursor s), advance s).
Proof. reflexivity. Qed.

Lemma unit_interval_fraction (z : Z) (p : positive) :
  0 <= z < Z.pos p -> (0 <= z # p)%Q /\ (z # p < 1)%Q.
Proof. intros Hz. unfold Qle, Qlt. simpl. lia. Qed.

Lemma random_random_run (s : state) :
  exists u : Q, random_random s = Ok (u, advance s) /\ (0 <= u)%Q /\ (u < 1)%Q.
Proof.
  unfold random_random, bind, ret. rewrite next_word_run.
  eexists. split; [reflexivity|].
  apply unit_interval_fraction.
  pose proof (N.mod_upper_bound (tape s (cursor s)) random_bits) as Hlt.
  assert (Hbits : Z.of_N random_bits = Z.pos (Pos.pow 2 53)) by reflexivity.
  rewrite <- Hbits. split; [apply N2Z.is_nonneg|]. apply N2Z.inj_lt, Hlt. done.
Qed.

(** [int(u * n)] is a position of a sequence of length [n]. *)
Lemma scaled_floor_bound (u : Q) (n : nat) :
  (0 <= u)%Q -> (u < 1)%Q ->
  let k := Z.to_nat (Qfloor (u * inject_Z (Z.of_nat n))) in
  (k <= n)%nat /\ ((0 < n)%nat -> (k < n)%nat).
Proof.
  intros H0 H1 k. subst k.
  set (m := inject_Z (Z.of_nat n)).
  assert (Hm : (0 <= m)%Q).
  { change 0%Q with (inject_Z 0). unfold m. rewrite <- Zle_Qle. lia. }
  assert (Hlo : (0 <= Qfloor (u * m))%Z).
  { rewrite <- (Qfloor_Z 0). apply Qfloor_resp_le.
    by apply Qmult_le_0_compat. }
  assert (Hhi : (Qfloor (u * m) <= Z.of_nat n)%Z).
  { rewrite <- (Qfloor_Z (Z.of_nat n)). apply Qfloor_resp_le. fold m.
    rewrite <- (Qmult_1_l m) at 2.
    apply Qmult_le_compat_r; [by apply Qlt_le_weak|done]. }
  split; [lia|]. intros Hpos.
  assert (Hm' : (0 < m)%Q).
  { change 0%Q with (inject_Z 0). unfold m. rewrite <- Zlt_Qlt. lia. }
  assert (Hlt : (inject_Z (Qfloor (u * m)) < m)%Q).
  { eapply Qle_lt_trans; [apply Qfloor_le|].
    rewrite <- (Qmult_1_l m) at 2. by apply Qmult_lt_compat_r. }
  unfold m in *. rewrite <- Zlt_Qlt in Hlt. lia.
Qed.

Lemma random_index_run (n : nat) (s : state) :
  exists k : nat, random_index n s = Ok (k, advance s)
                  /\ (k <= n)%nat /\ ((0 < n)%nat -> (k < n)%nat).
Proof.
  unfold random_index, bind.
  destruct (random_random_run s) as (u & -> & H0 & H1).
  eexists. split; [reflexivity|]. by apply scaled_floor_bound.
Qed.

Lemma randbelow_run (n : nat) (s : state) :
  (0 < n)%nat ->
  exists k : nat, randbelow n s = Ok (k, advance s) /\ (k < n)%nat.
Proof.
  intros Hn. unfold randbelow, bind. rewrite next_word_run.
  eexists. split; [reflexivity|].
  pose proof (N.mod_upper_bound (tape s (cursor s)) (N.of_nat n)). lia.
Qed.

(** Every index below [n] is drawn by some word. *)
Lemma randbelow_reaches (n k : nat) (s : state) :
  (k < n)%nat -> tape s (cursor s) = N.of_nat k ->
  randbelow n s = Ok (k, advance s).
Proof.
  intros Hk Hw. unfold randbelow, bind, ret. rewrite next_word_run, Hw.
  rewrite N.mod_small by lia. by rewrite Nat2N.id.
Qed.

(** * Swaps, shuffles and mutation *)

(** A swap of two positions inside the list permutes it. *)
Lemma swap_run {A} (l : list A) (i j : nat) :
  (i < length l)%nat -> (j < length l)%nat ->
  exists l', swap l i j = Ok l' /\ l' ≡ₚ l.
Proof.
  intros Hi Hj. unfold swap.
  destruct (lookup_lt_is_Some_2 l i Hi) as [a Ha].
  destruct (lookup_lt_is_Some_2 l j Hj) as [b Hb].
  rewrite Ha, Hb. eexists. split; [reflexivity|].
  by apply Permutation_insert_swap.
Qed.

Lemma bind_run {A B} (m : M A) (k : A -> M B) (s s' : state) (a : A) :
  m s = Ok (a, s') -> bind m k s = k a s'.
Proof. intros H. unfold bind. by rewrite H. Qed.

Lemma lift_run {A} (r : result A) (a : A) (s : state) :
  r = Ok a -> lift r s = Ok (a, s).
Proof. by intros ->. Qed.

Lemma shuffle_from_run {A} (i : nat) (x : list A) (s : state) :
  (i < length x)%nat \/ i = 0%nat ->
  exists x' s', shuffle_from i x s = Ok (x', s') /\ x' ≡ₚ x.
Proof.
  revert x s. induction i as [|i IH]; intros x s Hi.
  - by exists x, s.
  - destruct Hi as [Hi|?]; [|lia].
    cbn [shuffle_from].
    destruct (randbelow_run (S (S i)) s) as (j & Hj & Hlt); [lia|].
    rewrite (bind_run _ _ _ _ _ Hj).
    destruct (swap_run x (S i) j) as (x1 & Hx1 & Hp1); [lia..|].
    rewrite (bind_run _ _ _ _ _ (lift_run _ _ _ Hx1)).
    destruct (IH x1 (advance s)) as (x' & s' & Hrun & Hp).
    { left. rewrite (Permutation_length Hp1). lia. }
    exists x', s'. split; [done|]. by rewrite Hp.
Qed.

Lemma random_shuffle_run {A} (x : list A) (s : state) :
  exists x' s', random_shuffle x s = Ok (x', s') /\ x' ≡ₚ x.
Proof. apply shuffle_from_run. destruct x; simpl; lia. Qed.

Lemma init_loop_run (n k : nat) (indices : list Z) (population : list (list Z))
    (s : state) :
  is_route n indices -> Forall (is_route n) population ->
  exists population' s',
    init_loop k indices population s = Ok (population', s')
    /\ Forall (is_route n) population'
    /\ length population' = (length population + k)%nat.
Proof.
  revert indices population s.
  induction k as [|k IH]; intros indices population s Hidx Hpop.
  - exists population, s. split; [done|]. split; [done|lia].
  - cbn [init_loop].
    destruct (random_shuffle_run indices s) as (x' & s1 & Hrun & Hp).
    rewrite (bind_run _ _ _ _ _ Hrun).
    assert (Hx' : is_route n x') by (unfold is_route in *; by rewrite Hp).
    destruct (IH x' (population ++ [x']) s1 Hx') as (pop' & s' & Hrun' & Hall & Hlen).
    { apply Forall_app. split; [done|]. by constructor. }
    exists pop', s'. split; [done|]. split; [done|].
    rewrite Hlen, length_app. simpl. lia.
Qed.

(** The initial population has [max(pop_size, 0)] routes over the cities. *)
Lemma create_initial_population_run (pop_size : Z) (n_cities : nat) (s : state) :
  exists population' s',
    create_initial_population pop_size n_cities s = Ok (population', s')
    /\ Forall (is_route n_cities) population'
    /\ length population' = Z.to_nat pop_size.
Proof.
  unfold create_initial_population.
  destruct (init_loop_run n_cities (Z.to_nat pop_size) (range n_cities) [] s)
    as (pop' & s' & Hrun & Hall & Hlen); [by unfold is_route|constructor|].
  by exists pop', s'.
Qed.

Lemma mutate_loop_run (positions : list nat) (route_ : list Z)
    (mutation_rate : Q) (s : state) :
  Forall (fun i => (i < length route_)%nat) positions ->
  exists route' s',
    mutate_loop positions route_ mutation_rate s = Ok (route', s')
    /\ route' ≡ₚ route_.
Proof.
  revert route_ s.
  induction positions as [|i rest IH]; intros route_ s Hpos.
  - by exists route_, s.
  - apply Forall_cons in Hpos as [Hi Hrest].
    cbn [mutate_loop].
    destruct (random_random_run s) as (u & Hu & _).
    rewrite (bind_run _ _ _ _ _ Hu).
    destruct (Qltb u mutation_rate); [|by apply IH].
    destruct (random_index_run (length route_) (advance s)) as (j & Hj & _ & Hlt).
    rewrite (bind_run _ _ _ _ _ Hj).
    destruct (swap_run route_ i j) as (r1 & Hr1 & Hp1); [lia..|].
    rewrite (bind_run _ _ _ _ _ (lift_run _ _ _ Hr1)).
    destruct (IH r1 (advance (advance s))) as (r' & s' & Hrun & Hp).
    { rewrite (Permutation_length Hp1). done. }
    exists r', s'. split; [done|]. by rewrite Hp.
Qed.

(** [mutate] returns on every route, with a permutation of it. *)
Lemma mutate_run (route_ : list Z) (mutation_rate : Q) (s : state) :
  exists route' s',
    mutate route_ mutation_rate s = Ok (route', s') /\ route' ≡ₚ route_.
Proof.
  apply mutate_loop_run. apply Forall_forall. intros i Hi.
  apply list_elem_of_In, in_seq in Hi. lia.
Qed.

(** * Ordered crossover *)

Lemma in_child_placed (v : Z) (child : list (option Z)) :
  in_child v child = true <-> v ∈ placed child.
Proof.
  unfold in_child, placed. rewrite existsb_exists, list_elem_of_omap. split.
  - intros ([w|] & Hin & Hv); [|done].
    apply Z.eqb_eq in Hv as <-. exists (Some v). by rewrite list_elem_of_In.
  - intros (slot & Hin & ->). exists (Some v).
    by rewrite <- list_elem_of_In, Z.eqb_refl.
Qed.

Lemma not_in_child_placed (v : Z) (child : list (option Z)) :
  in_child v child = false <-> v ∉ placed child.
Proof. rewrite <- in_child_placed. by destruct (in_child v child). Qed.

Lemma placed_some (v : Z) (child : list (option Z)) :
  placed (Some v :: child) = v :: placed child.
Proof. reflexivity. Qed.

Lemma placed_none (child : list (option Z)) :
  placed (None :: child) = placed child.
Proof. reflexivity. Qed.

Lemma placed_replicate (n : nat) : placed (replicate n None) = [].
Proof. induction n; [done|]. simpl replicate. by rewrite placed_none. Qed.

(** Setting an unset slot adds its value to the placed ones. *)
Lemma placed_insert (child : list (option Z)) (i : nat) (v : Z) :
  child !! i = Some None -> placed (<[i := Some v]> child) ≡ₚ v :: placed child.
Proof.
  revert i. induction child as [|slot child IH]; intros [|i] Hi; try done.
  - simpl in Hi. injection Hi as ->.
    change (<[0%nat := Some v]> (None :: child)) with (Some v :: child).
    by rewrite placed_some, placed_none.
  - simpl in Hi. specialize (IH i Hi).
    change (<[S i := Some v]> (slot :: child))
      with (slot :: <[i := Some v]> child).
    destruct slot as [w|].
    + rewrite !placed_some, IH. apply perm_swap.
    + by rewrite !placed_none.
Qed.

Lemma placed_length (child : list (option Z)) :
  (length (placed child) <= length child)%nat.
Proof.
  induction child as [|[w|] child IH]; [done| |].
  - rewrite placed_some. simpl. lia.
  - rewrite placed_none. simpl. lia.
Qed.

Lemma placed_length_unset (child : list (option Z)) (i : nat) :
  child !! i = Some None -> (length (placed child) < length child)%nat.
Proof.
  revert i. induction child as [|slot child IH]; intros [|i] Hi; try done.
  - simpl in Hi. injection Hi as ->.
    pose proof (placed_length child). rewrite placed_none. simpl. lia.
  - simpl in Hi. specialize (IH i Hi).
    destruct slot; [rewrite placed_some|rewrite placed_none]; simpl; lia.
Qed.

(** A child without unset slots is the route of its placed values. *)
Lemma as_route_filled (child : list (option Z)) :
  (forall i, (i < length child)%nat -> exists v, child !! i = Some (Some v)) ->
  as_route child = Ok (placed child) /\ length (placed child) = length child.
Proof.
  induction child as [|slot child IH]; intros Hall; [done|].
  destruct (Hall 0%nat) as [v Hv]; [simpl; lia|].
  simpl in Hv. injection Hv as ->.
  destruct IH as [IH1 IH2].
  { intros i Hi. apply (Hall (S i)). simpl. lia. }
  cbn [as_route]. rewrite IH1, placed_some. simpl. by rewrite IH2.
Qed.

Lemma set_pos_run {A} (l : list A) (i : nat) (v : A) :
  (i < length l)%nat -> set_pos l i v = Ok (<[i := v]> l).
Proof.
  intros Hi. unfold set_pos.
  by destruct (Nat.ltb_spec i (length l)); [|lia].
Qed.

Lemma at_pos_run {A} (l : list A) (i : nat) (a : A) :
  l !! i = Some a -> at_pos l i = Ok a.
Proof. unfold at_pos. by intros ->. Qed.

(** The copy loop sets the slots [i .. i + n) to values of [parent1]; the
    placed values stay distinct because [parent1] has no duplicates. *)
Lemma copy_loop_run (parent1 : list Z) (n : nat) :
  forall (i : nat) (child : list (option Z)),
  length child = length parent1 ->
  (i + n <= length parent1)%nat ->
  (forall j, (i <= j < length parent1)%nat -> child !! j = Some None) ->
  NoDup (placed child ++ drop i parent1) ->
  exists child',
    copy_loop (seq i n) parent1 child = Ok child'
    /\ length child' = length parent1
    /\ NoDup (placed child')
    /\ (forall v, v ∈ placed child' -> v ∈ placed child \/ v ∈ parent1).
Proof.
  induction n as [|n IH]; intros i child Hlen Hin Hunset Hnd.
  - exists child. split; [done|]. split; [done|].
    split; [by apply NoDup_app in Hnd as [? _]|]. by left.
  - destruct (lookup_lt_is_Some_2 parent1 i) as [v Hv]; [lia|].
    cbn [seq copy_loop].
    rewrite (at_pos_run _ _ _ Hv). cbn [rbind].
    rewrite set_pos_run by lia. cbn [rbind].
    pose proof (placed_insert child i v (Hunset i ltac:(lia))) as Hpl.
    destruct (IH (S i) (<[i := Some v]> child)) as (c' & Hrun & Hlen' & Hnd' & Hsub).
    + by rewrite length_insert.
    + lia.
    + intros j Hj. rewrite list_lookup_insert_ne by lia. apply Hunset. lia.
    + rewrite Hpl. rewrite (drop_S _ _ _ Hv) in Hnd.
      by rewrite <- Permutation_middle in Hnd.
    + exists c'. split; [done|]. split; [done|]. split; [done|].
      intros w Hw. destruct (Hsub w Hw) as [Hw'|Hw']; [|by right].
      rewrite Hpl in Hw'. apply elem_of_cons in Hw' as [->|Hw']; [|by left].
      right. by eapply list_elem_of_lookup_2.
Qed.

Section Scan.
Variables (parent2 : list Z) (child : list (option Z)).

Lemma scan_unfold (fuel p2_index : nat) :
  scan fuel parent2 child p2_index
  = (v <~ at_pos parent2 p2_index ;;
     if in_child v child then
       match fuel with
       | O => Raise OutOfFuel
       | S fuel' => scan fuel' parent2 child (S p2_index)
       end
     else Ok p2_index).
Proof. by destruct fuel. Qed.

(** If [parent2] holds a value that is not in [child] at [k + d], the scan
    from [k] stops at the first such value. *)
Lemma scan_run (v : Z) (d : nat) :
  forall (k fuel : nat),
  parent2 !! (k + d)%nat = Some v ->
  in_child v child = false ->
  (d <= fuel)%nat ->
  exists k' v',
    scan fuel parent2 child k = Ok k'
    /\ parent2 !! k' = Some v'
    /\ in_child v' child = false
    /\ (forall j w, (k <= j < k')%nat -> parent2 !! j = Some w ->
                    in_child w child = true).
Proof.
  induction d as [|d IH]; intros k fuel Hv Hfree Hfuel; rewrite scan_unfold.
  - rewrite Nat.add_0_r in Hv. rewrite (at_pos_run _ _ _ Hv). cbn [rbind].
    rewrite Hfree. exists k, v. repeat split; try done. intros; lia.
  - destruct (lookup_lt_is_Some_2 parent2 k) as [w Hw].
    { apply lookup_lt_Some in Hv. lia. }
    rewrite (at_pos_run _ _ _ Hw). cbn [rbind].
    destruct (in_child w child) eqn:Hin.
    + destruct fuel as [|fuel]; [lia|].
      destruct (IH (S k) fuel) as (k' & v' & Hrun & Hk' & Hfree' & Hskip).
      * by replace (S k + d)%nat with (k + S d)%nat by lia.
      * done.
      * lia.
      * exists k', v'. repeat split; try done.
        intros j x Hj Hx. destruct (decide (j = k)) as [->|Hne].
        -- congruence.
        -- apply (Hskip j x); [lia|done].
    + exists k, w. repeat split; try done. intros; lia.
Qed.

End Scan.

(** A duplicate-free list has a value outside any shorter list. *)
Lemma fresh_value (l k : list Z) :
  NoDup l -> (length k < length l)%nat -> exists x, x ∈ l /\ x ∉ k.
Proof.
  intros Hnd Hlen.
  destruct (decide (Forall (fun x => x ∈ k) l)) as [Hall|Hex].
  - rewrite Forall_forall in Hall.
    pose proof (submseteq_length _ _ (NoDup_submseteq _ _ Hnd Hall)). lia.
  - apply not_Forall_Exists in Hex; [|apply _].
    apply Exists_exists in Hex as (x & Hx & Hnx). by exists x.
Qed.

Section FillLoop.
Variable parent2 : list Z.
Hypothesis parent2_NoDup : NoDup parent2.

(** The fill loop keeps: the placed values are distinct values of
    [parent2], every value of [parent2] before [p2_index] is placed, and the
    slots already visited are set.  A slot still unset then leaves a value of
    [parent2] to find. *)
Lemma fill_loop_run (n : nat) :
  forall (i : nat) (child : list (option Z)) (k : nat),
  (i + n)%nat = length parent2 ->
  length child = length parent2 ->
  NoDup (placed child) ->
  (forall v, v ∈ placed child -> v ∈ parent2) ->
  (forall j w, (j < k)%nat -> parent2 !! j = Some w -> w ∈ placed child) ->
  (forall j, (j < i)%nat -> exists v, child !! j = Some (Some v)) ->
  exists child',
    fill_loop (seq i n) parent2 child k = Ok child'
    /\ length child' = length parent2
    /\ NoDup (placed child')
    /\ (forall v, v ∈ placed child' -> v ∈ parent2)
    /\ (forall j, (j < length parent2)%nat -> exists v, child' !! j = Some (Some v)).
Proof.
  induction n as [|n IH]; intros i child k Hin Hlen Hnd Hsub Hseen Hdone.
  - exists child. repeat split; try done.
    intros j Hj. apply Hdone. lia.
  - destruct (lookup_lt_is_Some_2 child i) as [slot Hslot]; [lia|].
    cbn [seq fill_loop]. rewrite (at_pos_run _ _ _ Hslot). cbn [rbind].
    destruct slot as [v0|].
    + apply IH; try done; [lia|].
      intros j Hj. destruct (decide (j = i)) as [->|]; [by exists v0|].
      apply Hdone. lia.
    + destruct (fresh_value parent2 (placed child) parent2_NoDup)
        as (v & Hv2 & Hfree).
      { pose proof (placed_length_unset _ _ Hslot). lia. }
      apply list_elem_of_lookup in Hv2 as [j Hj].
      assert (Hkj : (k <= j)%nat).
      { destruct (Nat.le_gt_cases k j) as [|Hlt]; [done|].
        destruct Hfree. by apply (Hseen j). }
      destruct (scan_run parent2 child v (j - k) k (length parent2))
        as (k' & v' & Hrun & Hk' & Hfree' & Hskip).
      { by replace (k + (j - k))%nat with j by lia. }
      { by apply not_in_child_placed. }
      { apply lookup_lt_Some in Hj. lia. }
      rewrite Hrun. cbn [rbind].
      rewrite (at_pos_run _ _ _ Hk'). cbn [rbind].
      rewrite set_pos_run by lia. cbn [rbind].
      pose proof (placed_insert child i v' Hslot) as Hpl.
      apply not_in_child_placed in Hfree'.
      apply IH.
      * lia.
      * by rewrite length_insert.
      * rewrite Hpl. by constructor.
      * intros w. rewrite Hpl. intros [->|Hw]%elem_of_cons; [|by apply Hsub].
        by eapply list_elem_of_lookup_2.
      * intros j' w Hj' Hw. rewrite Hpl. apply elem_of_cons.
        destruct (decide (j' < k)%nat) as [Hlt|Hge].
        -- right. by apply (Hseen j').
        -- right. apply in_child_placed, (Hskip j'); [lia|done].
      * intros j' Hj'. destruct (decide (j' = i)) as [->|Hne].
        -- exists v'. apply list_lookup_insert_eq. lia.
        -- rewrite list_lookup_insert_ne by done. apply Hdone. lia.
Qed.

End FillLoop.

Lemma NoDup_range (n : nat) : NoDup (range n).
Proof.
  unfold range. apply NoDup_fmap_2; [apply Nat2Z.inj'|apply NoDup_seq].
Qed.

Lemma length_range (n : nat) : length (range n) = n.
Proof. unfold range. by rewrite length_map, length_seq. Qed.

Lemma is_route_length (n : nat) (r : list Z) : is_route n r -> length r = n.
Proof. intros Hr. by rewrite (Permutation_length Hr), length_range. Qed.

Lemma is_route_NoDup (n : nat) (r : list Z) : is_route n r -> NoDup r.
Proof. intros Hr. unfold is_route in Hr. rewrite Hr. apply NoDup_range. Qed.

(** [breed] on two routes over [n] cities returns a route over [n] cities,
    for every state of the generator. *)
Lemma breed_run (n : nat) (parent1 parent2 : list Z) (s : state) :
  is_route n parent1 -> is_route n parent2 ->
  exists child s', breed parent1 parent2 s = Ok (child, s') /\ is_route n child.
Proof.
  intros H1 H2.
  pose proof (is_route_length _ _ H1) as Hl1.
  pose proof (is_route_length _ _ H2) as Hl2.
  pose proof (is_route_NoDup _ _ H1) as Hnd1.
  pose proof (is_route_NoDup _ _ H2) as Hnd2.
  unfold breed.
  destruct (random_index_run (length parent1) s) as (a & Ha & Hale & _).
  rewrite (bind_run _ _ _ _ _ Ha).
  destruct (random_index_run (length parent1) (advance s)) as (b & Hb & Hble & _).
  rewrite (bind_run _ _ _ _ _ Hb).
  set (cut := if (b <? a)%nat then (b, a) else (a, b)).
  assert (Hcut : (fst cut <= snd cut <= length parent1)%nat).
  { unfold cut. destruct (Nat.ltb_spec b a); simpl; lia. }
  destruct cut as [start end_]. simpl in Hcut.
  destruct (copy_loop_run parent1 (end_ - start) start
              (replicate (length parent1) None))
    as (c1 & Hrun1 & Hlen1 & Hndc1 & Hsub1).
  { by rewrite length_replicate. }
  { lia. }
  { intros j Hj. apply lookup_replicate_2. lia. }
  { rewrite placed_replicate. simpl.
    apply (sublist_NoDup _ parent1); [exact Hnd1|apply sublist_drop]. }
  rewrite (bind_run _ _ _ _ _ (lift_run _ _ _ Hrun1)).
  destruct (fill_loop_run parent2 Hnd2 (length c1) 0 c1 0)
    as (c2 & Hrun2 & Hlen2 & Hndc2 & Hsub2 & Hfull).
  { lia. }
  { lia. }
  { done. }
  { intros v Hv. destruct (Hsub1 v Hv) as [Hv'|Hv'].
    - rewrite placed_replicate in Hv'. by apply elem_of_nil in Hv'.
    - unfold is_route in H1, H2. by rewrite H2, <- H1. }
  { intros; lia. }
  { intros; lia. }
  rewrite (bind_run _ _ _ _ _ (lift_run _ _ _ Hrun2)).
  destruct (as_route_filled c2) as [Hroute Hlenr].
  { intros i Hi. apply Hfull. lia. }
  exists (placed c2), (advance (advance s)).
  split; [by apply lift_run|].
  unfold is_route in *. rewrite <- H2.
  apply submseteq_length_Permutation; [|lia].
  by apply NoDup_submseteq.
Qed.

(** * Ranking *)

Lemma Rltb_true (a b : R) : Rltb a b = true <-> (a < b)%R.
Proof. unfold Rltb. by destruct (Rlt_dec a b). Qed.

Lemma Rltb_false (a b : R) : Rltb a b = false <-> (b <= a)%R.
Proof. unfold Rltb. destruct (Rlt_dec a b); split; try done; lra. Qed.

Lemma insert_scored_perm (x : R * list Z) (l : list (R * list Z)) :
  insert_scored x l ≡ₚ x :: l.
Proof.
  induction l as [|y l IH]; [done|].
  simpl. destruct (Rltb (fst y) (fst x)); [|done].
  rewrite IH. apply perm_swap.
Qed.

Lemma sort_scored_perm (l : list (R * list Z)) : sort_scored l ≡ₚ l.
Proof.
  induction l as [|x l IH]; [done|].
  simpl. by rewrite insert_scored_perm, IH.
Qed.

Lemma sort_scored_length (l : list (R * list Z)) :
  length (sort_scored l) = length l.
Proof. apply Permutation_length, sort_scored_perm. Qed.

Lemma insert_scored_sorted (x : R * list Z) (l : list (R * list Z)) :
  StronglySorted score_le l -> StronglySorted score_le (insert_scored x l).
Proof.
  induction 1 as [|y l Hs IH Hy]; simpl.
  - repeat constructor.
  - destruct (Rltb (fst y) (fst x)) eqn:Hcmp.
    + apply Rltb_true in Hcmp. constructor; [done|].
      rewrite insert_scored_perm. constructor; [unfold score_le; lra|done].
    + apply Rltb_false in Hcmp. constructor; [by constructor|].
      constructor; [done|].
      eapply Forall_impl; [exact Hy|]. unfold score_le. intros z Hz. lra.
Qed.

Lemma sort_scored_sorted (l : list (R * list Z)) :
  StronglySorted score_le (sort_scored l).
Proof.
  induction l as [|x l IH]; [constructor|]. by apply insert_scored_sorted.
Qed.

(** The head of the ranked population scores no more than any entry. *)
Lemma sort_scored_head (l : list (R * list Z)) (x : R * list Z)
    (rest : list (R * list Z)) :
  sort_scored l = x :: rest -> forall y, y ∈ l -> (fst x <= fst y)%R.
Proof.
  intros Hs y Hy.
  pose proof (sort_scored_sorted l) as Hsorted. rewrite Hs in Hsorted.
  rewrite <- (sort_scored_perm l), Hs in Hy.
  apply StronglySorted_inv in Hsorted as [_ Hall].
  apply elem_of_cons in Hy as [->|Hy]; [lra|].
  rewrite Forall_forall in Hall. by apply Hall.
Qed.

Lemma sort_scored_constant (x : R * list Z) (n : nat) :
  sort_scored (replicate n x) = replicate n x.
Proof.
  induction n as [|n IH]; [done|].
  simpl. rewrite IH. destruct n as [|n]; [done|].
  simpl. by rewrite (proj2 (Rltb_false _ _) (Rle_refl _)).
Qed.

Lemma min_cost_spec (costs : list R) (m : R) :
  min_cost costs = Some m -> m ∈ costs /\ forall c, c ∈ costs -> (m <= c)%R.
Proof.
  revert m. induction costs as [|c rest IH]; intros m Hm; [done|].
  simpl in Hm. destruct (min_cost rest) as [m'|] eqn:Hrest.
  - injection Hm as <-. destruct (IH m' eq_refl) as [Hin Hle]. split.
    + unfold Rmin. destruct (Rle_dec c m'); [left|by right].
    + intros x [->|Hx]%elem_of_cons; [apply Rmin_l|].
      etrans; [apply Rmin_r|by apply Hle].
  - injection Hm as <-. destruct rest as [|c' rest']; [|simpl in Hrest].
    + split; [left|]. intros x [->|Hx]%elem_of_cons; [lra|by apply elem_of_nil in Hx].
    + by destruct (min_cost rest').
Qed.

Lemma min_cost_nonempty (costs : list R) :
  costs <> [] -> exists m, min_cost costs = Some m.
Proof.
  destruct costs as [|c rest]; [done|]. intros _. simpl.
  destruct (min_cost rest); eauto.
Qed.

(** * One generation *)

Lemma bind_inv {A B} (m : M A) (k : A -> M B) (s s' : state) (b : B) :
  bind m k s = Ok (b, s') ->
  exists a s1, m s = Ok (a, s1) /\ k a s1 = Ok (b, s').
Proof.
  unfold bind. destruct (m s) as [[a s1]|e]; [|done]. intros H. by exists a, s1.
Qed.

Lemma lift_inv {A} (r : result A) (s s' : state) (a : A) :
  lift r s = Ok (a, s') -> r = Ok a /\ s' = s.
Proof. unfold lift. destruct r; [|done]. by intros [= -> ->]. Qed.

Lemma range_bounds (n : nat) (k : Z) : k ∈ range n -> 0 <= k < Z.of_nat n.
Proof.
  unfold range. intros (i & -> & Hi)%list_elem_of_fmap.
  apply list_elem_of_In, in_seq in Hi. lia.
Qed.

Lemma is_route_bounds (n : nat) (r : list Z) :
  is_route n r -> Forall (fun k => 0 <= k < Z.of_nat n) r.
Proof.
  intros Hr. apply Forall_forall. intros k Hk. apply range_bounds.
  unfold is_route in Hr. by rewrite <- Hr.
Qed.

Section Generation.
Variables (cities : list Point) (obstacles : list Obstacle).

Lemma fitness_of_route (r : list Z) :
  is_route (length cities) r ->
  exists c, get_route_distance r cities obstacles = Ok c.
Proof.
  intros Hr.
  destruct (valid_indices_points cities r (is_route_bounds _ _ Hr)) as [pts Hpts].
  eexists. by apply get_route_distance_points.
Qed.

Lemma scored_of_routes (pop : list (list Z)) :
  Forall (is_route (length cities)) pop ->
  exists sc, Forall2 (scored_of cities obstacles) pop sc.
Proof.
  induction 1 as [|r pop Hr _ [sc IH]]; [by exists []|].
  destruct (fitness_of_route r Hr) as [c Hc].
  exists ((c, r) :: sc). by constructor.
Qed.

Lemma scored_of_snd (pop : list (list Z)) (sc : list (R * list Z)) :
  Forall2 (scored_of cities obstacles) pop sc -> map snd sc = pop.
Proof.
  induction 1 as [|r x pop sc [_ Hx] _ IH]; [done|]. simpl. by rewrite Hx, IH.
Qed.

(** Scoring consumes no word of the generator and logs one fitness
    evaluation per route. *)
Lemma score_loop_run (pop : list (list Z)) (sc : list (R * list Z)) :
  Forall2 (scored_of cities obstacles) pop sc ->
  forall (acc : list (R * list Z)) (s : state),
  score_loop pop cities obstacles acc s
  = Ok (acc ++ sc,
        mkState (tape s) (cursor s) (rev (map EvFitness pop) ++ trace s)).
Proof.
  induction 1 as [|r x pop sc [Hc Hx] _ IH]; intros acc s.
  - simpl. rewrite app_nil_r. by destruct s.
  - cbn [score_loop]. unfold bind at 1. cbn [log].
    rewrite (bind_run _ _ _ _ _ (lift_run _ _ _ Hc)).
    rewrite IH. cbn [tape cursor trace]. f_equal. f_equal.
    + rewrite <- app_assoc. simpl. by rewrite <- Hx, <- surjective_pairing.
    + f_equal. simpl. by rewrite <- app_assoc.
Qed.

Lemma score_loop_inv (pop : list (list Z)) :
  forall (acc res : list (R * list Z)) (s s' : state),
  score_loop pop cities obstacles acc s = Ok (res, s') ->
  exists sc, res = acc ++ sc /\ Forall2 (scored_of cities obstacles) pop sc.
Proof.
  induction pop as [|r pop IH]; intros acc res s s' Hrun.
  - injection Hrun as <- _. exists []. by rewrite app_nil_r.
  - cbn [score_loop] in Hrun.
    apply bind_inv in Hrun as (_ & s1 & _ & Hrun).
    apply bind_inv in Hrun as (c & s2 & Hc & Hrun).
    apply lift_inv in Hc as [Hc _].
    apply IH in Hrun as (sc & -> & Hsc).
    exists ((c, r) :: sc). split; [by rewrite <- app_assoc|].
    by constructor.
Qed.

(** A choice from a non-empty sequence returns one of its entries and logs
    its index. *)
Lemma random_choice_run {A} (l : list A) (s : state) :
  l <> [] ->
  exists i a, l !! i = Some a
    /\ random_choice l s
       = Ok (a, mkState (tape s) (S (cursor s)) (EvChoice i :: trace s)).
Proof.
  intros Hne. unfold random_choice.
  destruct (randbelow_run (length l) s) as (i & Hi & Hlt).
  { destruct l; [done|simpl; lia]. }
  destruct (lookup_lt_is_Some_2 l i Hlt) as [a Ha].
  exists i, a. split; [done|].
  destruct l as [|x l']; [done|].
  rewrite (bind_run _ _ _ _ _ Hi). by rewrite Ha.
Qed.

Lemma breeding_loop_unfold (fuel : nat) (scored_pop : list (R * list Z))
    (pop_size : Z) (mutation_rate : Q) (new_pop : list (list Z)) :
  breeding_loop fuel scored_pop pop_size mutation_rate new_pop
  = if Z.of_nat (length new_pop) <? pop_size then
      match fuel with
      | O => raise OutOfFuel
      | S fuel' =>
          parent1 <- random_choice (take POOL scored_pop) ;;
          parent2 <- random_choice (take POOL scored_pop) ;;
          child <- breed (snd parent1) (snd parent2) ;;
          child <- mutate child mutation_rate ;;
          breeding_loop fuel' scored_pop pop_size mutation_rate
            (new_pop ++ [child])
      end
    else ret new_pop.
Proof. by destruct fuel. Qed.

(** Whatever the loop returns keeps [new_pop] as a prefix and has grown to
    [pop_size] if it was shorter. *)
Lemma breeding_loop_inv (scored_pop : list (R * list Z)) (pop_size : Z)
    (mutation_rate : Q) (fuel : nat) :
  forall (new_pop out : list (list Z)) (s s' : state),
  breeding_loop fuel scored_pop pop_size mutation_rate new_pop s = Ok (out, s') ->
  exists children,
    out = new_pop ++ children
    /\ (Z.of_nat (length new_pop) <= pop_size -> Z.of_nat (length out) = pop_size)
    /\ (pop_size <= Z.of_nat (length new_pop) -> children = []).
Proof.
  induction fuel as [|fuel IH]; intros new_pop out s s' Hrun;
    rewrite breeding_loop_unfold in Hrun;
    destruct (Z.ltb_spec (Z.of_nat (length new_pop)) pop_size) as [Hlt|Hge];
    try done.
  - injection Hrun as <- _. exists []. rewrite app_nil_r.
    split; [done|]. split; [lia|done].
  - apply bind_inv in Hrun as (p1 & s1 & _ & Hrun).
    apply bind_inv in Hrun as (p2 & s2 & _ & Hrun).
    apply bind_inv in Hrun as (c & s3 & _ & Hrun).
    apply bind_inv in Hrun as (c' & s4 & _ & Hrun).
    apply IH in Hrun as (children & -> & Hlen & _).
    exists (c' :: children). split; [by rewrite <- app_assoc|].
    split; [|lia]. intros _. apply Hlen. rewrite length_app. simpl. lia.
  - injection Hrun as <- _. exists []. rewrite app_nil_r.
    split; [done|]. split; [lia|done].
Qed.

(** With routes over [n] cities in a non-empty pool and the fuel of
    [generation_step], the loop returns, and its children are routes. *)
Lemma breeding_loop_run (n : nat) (scored_pop : list (R * list Z))
    (pop_size : Z) (mutation_rate : Q) (fuel : nat) :
  scored_pop <> [] ->
  Forall (fun x => is_route n (snd x)) scored_pop ->
  forall (new_pop : list (list Z)) (s : state),
  (Z.to_nat (pop_size - Z.of_nat (length new_pop)) <= fuel)%nat ->
  exists children s',
    breeding_loop fuel scored_pop pop_size mutation_rate new_pop s
    = Ok (new_pop ++ children, s')
    /\ Forall (is_route n) children.
Proof.
  intros Hne Hroutes.
  assert (Hpool : take POOL scored_pop <> []) by by destruct scored_pop.
  assert (Hpick : forall i x, take POOL scored_pop !! i = Some x ->
                              is_route n (snd x)).
  { intros i x Hx. rewrite Forall_forall in Hroutes. apply Hroutes.
    apply list_elem_of_lookup_2 in Hx.
    eapply elem_of_sublist; [exact Hx|apply sublist_take]. }
  induction fuel as [|fuel IH]; intros new_pop s Hfuel;
    rewrite breeding_loop_unfold;
    destruct (Z.ltb_spec (Z.of_nat (length new_pop)) pop_size) as [Hlt|Hge];
    try lia.
  - exists [], s. by rewrite app_nil_r.
  - destruct (random_choice_run _ s Hpool) as (i1 & p1 & Hp1 & Hc1).
    rewrite (bind_run _ _ _ _ _ Hc1).
    destruct (random_choice_run _ (mkState (tape s) (S (cursor s))
                (EvChoice i1 :: trace s)) Hpool) as (i2 & p2 & Hp2 & Hc2).
    rewrite (bind_run _ _ _ _ _ Hc2).
    destruct (breed_run n (snd p1) (snd p2)
                (mkState (tape s) (S (S (cursor s)))
                   (EvChoice i2 :: EvChoice i1 :: trace s)))
      as (c & s3 & Hb & Hc); [by eapply Hpick..|].
    cbn [tape cursor trace] in *.
    rewrite (bind_run _ _ _ _ _ Hb).
    destruct (mutate_run c mutation_rate s3) as (c' & s4 & Hm & Hc').
    rewrite (bind_run _ _ _ _ _ Hm).
    destruct (IH (new_pop ++ [c']) s4) as (children & s' & Hrun & Hall).
    { rewrite length_app. simpl. lia. }
    exists (c' :: children), s'. rewrite Hrun, <- app_assoc. split; [done|].
    constructor; [|done]. unfold is_route in *. by rewrite Hc'.
  - exists [], s. by rewrite app_nil_r.
Qed.

Lemma elite_length (sc : list (R * list Z)) :
  length (map snd (take ELITE (sort_scored sc))) = (ELITE `min` length sc)%nat.
Proof. by rewrite length_map, length_take, sort_scored_length. Qed.

(** What a generation that returns has returned: the elite of the ranked
    population, then the children. *)
Lemma generation_step_inv (pop_size : Z) (mutation_rate : Q)
    (pop out : list (list Z)) (s s' : state) :
  generation_step cities obstacles pop_size mutation_rate pop s = Ok (out, s') ->
  exists sc children,
    Forall2 (scored_of cities obstacles) pop sc
    /\ out = map snd (take ELITE (sort_scored sc)) ++ children
    /\ (Z.of_nat (ELITE `min` length pop) <= pop_size ->
        Z.of_nat (length out) = pop_size)
    /\ (pop_size <= Z.of_nat (ELITE `min` length pop) -> children = []).
Proof.
  unfold generation_step. intros Hrun.
  apply bind_inv in Hrun as (_ & s1 & _ & Hrun).
  apply bind_inv in Hrun as (sc & s2 & Hsc & Hrun).
  apply score_loop_inv in Hsc as (sc' & -> & Hsc). simpl in Hrun.
  apply breeding_loop_inv in Hrun as (children & -> & Hlen & Hnil).
  rewrite elite_length, <- (Forall2_length _ _ _ Hsc) in Hlen, Hnil.
  by exists sc', children.
Qed.

(** On a non-empty population of routes a generation returns. *)
Lemma generation_step_run (pop_size : Z) (mutation_rate : Q)
    (pop : list (list Z)) (s : state) :
  pop <> [] ->
  Forall (is_route (length cities)) pop ->
  exists sc children s',
    Forall2 (scored_of cities obstacles) pop sc
    /\ generation_step cities obstacles pop_size mutation_rate pop s
       = Ok (map snd (take ELITE (sort_scored sc)) ++ children, s')
    /\ Forall (is_route (length cities)) children.
Proof.
  intros Hne Hpop.
  destruct (scored_of_routes pop Hpop) as [sc Hsc].
  pose proof (scored_of_snd _ _ Hsc) as Hsnd.
  unfold generation_step. unfold bind at 1. cbn [log].
  rewrite (bind_run _ _ _ _ _ (score_loop_run _ _ Hsc [] _)).
  cbn [app].
  edestruct (breeding_loop_run (length cities) (sort_scored sc) pop_size
               mutation_rate) as (children & s' & Hrun & Hall).
  - intros Hnil. apply (f_equal length) in Hnil.
    rewrite sort_scored_length, <- (Forall2_length _ _ _ Hsc) in Hnil.
    by destruct pop.
  - rewrite sort_scored_perm. apply Forall_forall. intros x Hx.
    rewrite Forall_forall in Hpop. apply Hpop. rewrite <- Hsnd.
    apply list_elem_of_fmap. by exists x.
  - reflexivity.
  - exists sc, children, s'. split; [done|]. split; [exact Hrun|done].
Qed.

(** * Populations: size *)

(** C4: with [pop_size >= 10] and a non-empty population, whatever one
    generation returns has exactly [pop_size] routes; and it does return when
    the population consists of routes over the cities. *)
Theorem generation_step_population_size (pop_size : Z) (mutation_rate : Q)
    (pop : list (list Z)) (s : state) :
  10 <= pop_size -> pop <> [] ->
  (forall out s',
      generation_step cities obstacles pop_size mutation_rate pop s = Ok (out, s') ->
      Z.of_nat (length out) = pop_size)
  /\ (Forall (is_route (length cities)) pop ->
      exists out s',
        generation_step cities obstacles pop_size mutation_rate pop s = Ok (out, s')).
Proof.
  intros Hsize Hne. split.
  - intros out s' Hrun.
    apply generation_step_inv in Hrun as (sc & children & _ & _ & Hlen & _).
    apply Hlen. unfold ELITE. lia.
  - intros Hpop.
    destruct (generation_step_run pop_size mutation_rate pop s Hne Hpop)
      as (sc & children & s' & _ & Hrun & _).
    eauto.
Qed.

(** C10: when the population is larger than [pop_size] and [pop_size < 10],
    one generation returns [max(pop_size, min(10, len(population)))] routes,
    which is more than [pop_size]; and it does return when the population
    consists of routes over the cities. *)
Theorem generation_step_oversized_population (pop_size : Z)
    (mutation_rate : Q) (pop : list (list Z)) (s : state) :
  pop_size < Z.of_nat (length pop) -> pop_size < 10 ->
  (forall out s',
      generation_step cities obstacles pop_size mutation_rate pop s = Ok (out, s') ->
      Z.of_nat (length out) = Z.max pop_size (Z.min 10 (Z.of_nat (length pop)))
      /\ pop_size < Z.of_nat (length out))
  /\ (Forall (is_route (length cities)) pop ->
      exists out s',
        generation_step cities obstacles pop_size mutation_rate pop s = Ok (out, s')).
Proof.
  intros Hbig Hsmall. split.
  - intros out s' Hrun.
    apply generation_step_inv in Hrun as (sc & children & Hsc & -> & _ & Hnil).
    rewrite Hnil by (unfold ELITE; lia).
    rewrite app_nil_r, elite_length, <- (Forall2_length _ _ _ Hsc).
    unfold ELITE. lia.
  - intros Hpop. destruct pop as [|r pop'].
    + simpl in Hbig. unfold generation_step, bind. cbn [log score_loop ret].
      cbn [sort_scored]. rewrite breeding_loop_unfold.
      change (length (map snd (take ELITE (@nil (R * list Z))))) with 0%nat.
      destruct (Z.ltb_spec (Z.of_nat 0) pop_size) as [?|_]; [lia|].
      by eexists _, _.
    + destruct (generation_step_run pop_size mutation_rate (r :: pop') s)
        as (sc & children & s' & _ & Hrun & _);
        [done|done|eauto].
Qed.

(** * Populations: elitism *)

Lemma population_costs_scored (pop : list (list Z)) (sc : list (R * list Z)) :
  Forall2 (scored_of cities obstacles) pop sc ->
  population_costs cities obstacles pop = Ok (map fst sc).
Proof.
  induction 1 as [|r x pop sc [Hc _] _ IH]; [done|].
  cbn [population_costs]. rewrite Hc. cbn [rbind]. by rewrite IH.
Qed.

Lemma population_costs_run (pop : list (list Z)) :
  Forall (is_route (length cities)) pop ->
  exists sc, Forall2 (scored_of cities obstacles) pop sc
             /\ population_costs cities obstacles pop = Ok (map fst sc).
Proof.
  intros Hpop. destruct (scored_of_routes _ Hpop) as [sc Hsc].
  exists sc. split; [done|]. by apply population_costs_scored.
Qed.

Lemma scored_of_elem (pop : list (list Z)) (sc : list (R * list Z))
    (x : R * list Z) :
  Forall2 (scored_of cities obstacles) pop sc -> x ∈ sc ->
  snd x ∈ pop /\ get_route_distance (snd x) cities obstacles = Ok (fst x).
Proof.
  intros Hsc Hx. apply list_elem_of_lookup in Hx as [i Hi].
  destruct (Forall2_lookup_r _ _ _ _ _ Hsc Hi) as (r & Hr & Hc & Hs).
  rewrite Hs. split; [by eapply list_elem_of_lookup_2|done].
Qed.

(** C7: on a population of at least 10 routes, for every state of the
    generator, the least cost in the population that one generation returns
    is at most the least cost in the population it was given. *)
Theorem elitism_never_regresses (pop_size : Z) (mutation_rate : Q)
    (pop : list (list Z)) (s : state) :
  (10 <= length pop)%nat ->
  Forall (is_route (length cities)) pop ->
  exists out s' costs_in costs_out m_in m_out,
    generation_step cities obstacles pop_size mutation_rate pop s = Ok (out, s')
    /\ population_costs cities obstacles pop = Ok costs_in
    /\ population_costs cities obstacles out = Ok costs_out
    /\ min_cost costs_in = Some m_in
    /\ min_cost costs_out = Some m_out
    /\ (m_out <= m_in)%R.
Proof.
  intros Hsize Hpop.
  assert (Hne : pop <> []) by (destruct pop; [simpl in Hsize; lia|done]).
  destruct (generation_step_run pop_size mutation_rate pop s Hne Hpop)
    as (sc & children & s' & Hsc & Hrun & Hchildren).
  set (out := map snd (take ELITE (sort_scored sc)) ++ children) in *.
  pose proof (Forall2_length _ _ _ Hsc) as Hlen.
  (* the best scored route is the first route of [out] *)
  destruct (sort_scored sc) as [|best ranked] eqn:Hsorted.
  { apply (f_equal length) in Hsorted. rewrite sort_scored_length in Hsorted.
    simpl in Hsorted. lia. }
  assert (Hbest : best ∈ sc).
  { rewrite <- (sort_scored_perm sc), Hsorted. left. }
  destruct (scored_of_elem _ _ _ Hsc Hbest) as [Hbest_pop Hbest_cost].
  assert (Hout : Forall (is_route (length cities)) out).
  { apply Forall_app. split; [|done].
    apply Forall_forall. intros r [x [-> Hx]]%list_elem_of_fmap.
    assert (Hx' : x ∈ best :: ranked)
      by (eapply elem_of_sublist; [exact Hx|apply sublist_take]).
    rewrite <- Hsorted, sort_scored_perm in Hx'.
    destruct (scored_of_elem _ _ _ Hsc Hx') as [Hin _].
    rewrite Forall_forall in Hpop. by apply Hpop. }
  destruct (population_costs_run out Hout) as (sco & Hsco & Hcout).
  assert (Hhead : exists rest, map fst sco = fst best :: rest).
  { unfold out in Hsco. cbn [take ELITE map app] in Hsco.
    apply Forall2_cons_inv_l in Hsco as (x & sco' & [Hx _] & _ & ->).
    rewrite Hbest_cost in Hx. injection Hx as Hx.
    exists (map fst sco'). simpl. by rewrite Hx. }
  destruct Hhead as [rest Hhead].
  destruct (min_cost_nonempty (map fst sc)) as [m_in Hm_in].
  { destruct sc; [simpl in Hlen; lia|done]. }
  destruct (min_cost_nonempty (map fst sco)) as [m_out Hm_out].
  { by rewrite Hhead. }
  exists out, s', (map fst sc), (map fst sco), m_in, m_out.
  split; [done|]. split; [by apply population_costs_scored|].
  split; [done|]. split; [done|]. split; [done|].
  apply min_cost_spec in Hm_in as [Hin _].
  apply min_cost_spec in Hm_out as [_ Hle].
  apply list_elem_of_fmap in Hin as (y & -> & Hy).
  etrans; [apply (Hle (fst best)); rewrite Hhead; left|].
  by apply (sort_scored_head sc best ranked).
Qed.

End Generation.

(** * Routes: the permutation invariant *)

(** C1: over [n >= 1] cities, every route of the initial population, the
    child bred from two routes and a mutated route are permutations of
    [0, n); each of the three operations returns for every state of the
    generator. *)
Theorem permutation_invariant (n : nat) :
  (1 <= n)%nat ->
  (forall (pop_size : Z) (s : state),
      exists pop s',
        create_initial_population pop_size n s = Ok (pop, s')
        /\ Forall (fun r => r ≡ₚ range n) pop)
  /\ (forall (parent1 parent2 : list Z) (s : state),
        parent1 ≡ₚ range n -> parent2 ≡ₚ range n ->
        exists child s',
          breed parent1 parent2 s = Ok (child, s') /\ child ≡ₚ range n)
  /\ (forall (route_ : list Z) (mutation_rate : Q) (s : state),
        route_ ≡ₚ range n ->
        exists route' s',
          mutate route_ mutation_rate s = Ok (route', s')
          /\ route' ≡ₚ range n).
Proof.
  intros _. split; [|split].
  - intros pop_size s.
    destruct (create_initial_population_run pop_size n s)
      as (pop & s' & Hrun & Hall & _).
    by exists pop, s'.
  - intros parent1 parent2 s H1 H2. by apply breed_run.
  - intros route_ mutation_rate s Hr.
    destruct (mutate_run route_ mutation_rate s) as (r' & s' & Hrun & Hp).
    exists r', s'. split; [done|]. by rewrite Hp.
Qed.

(** C9: on two parents that are permutations of [0, n), [n >= 1], [breed]
    returns a child of length [n]: the scan of the fill loop never reaches
    the end of [parent2] and never runs out of turns. *)
Theorem breed_is_total (n : nat) (parent1 parent2 : list Z) (s : state) :
  (1 <= n)%nat ->
  parent1 ≡ₚ range n -> parent2 ≡ₚ range n ->
  exists child s',
    breed parent1 parent2 s = Ok (child, s') /\ length child = n.
Proof.
  intros _ H1 H2.
  destruct (breed_run n parent1 parent2 s H1 H2) as (child & s' & Hrun & Hc).
  exists child, s'. split; [done|]. by apply is_route_length.
Qed.

(** * The endpoint *)

(** C6: with fewer than 2 cities [evolve] returns the empty response and
    leaves the state as it was: no word of the generator is consumed and no
    initialisation, generation or fitness evaluation is logged. *)
Theorem evolve_degenerate (req : EvolveRequest) (s : state) :
  (length (cities req) < 2)%nat ->
  evolve req s = Ok (mkResponse [] [] 0%R 0, s).
Proof.
  intros Hfew. unfold evolve.
  by destruct (Nat.ltb_spec (length (cities req)) 2); [|lia].
Qed.

(** * The only exception is [IndexError]

    [OutOfFuel] and [TypeError] are outcomes of the embedding, not of the
    program: no run produces them. *)

Lemma rbind_error {A B} (r : result A) (k : A -> result B) (e : error) :
  rbind r k = Raise e ->
  r = Raise e \/ exists a, r = Ok a /\ k a = Raise e.
Proof.
  destruct r as [a|e']; simpl; intros H; [right|left; congruence].
  exists a. by split.
Qed.

Lemma bind_error {A B} (m : M A) (k : A -> M B) (s : state) (e : error) :
  bind m k s = Raise e ->
  m s = Raise e \/ exists a s1, m s = Ok (a, s1) /\ k a s1 = Raise e.
Proof.
  unfold bind. destruct (m s) as [[a s1]|e']; intros H; [right|left; congruence].
  exists a, s1. by split.
Qed.

Lemma lift_error {A} (r : result A) (s : state) (e : error) :
  lift r s = Raise e -> r = Raise e.
Proof. unfold lift. destruct r; intros H; congruence. Qed.

Lemma at_pos_error {A} (l : list A) (i : nat) (e : error) :
  at_pos l i = Raise e -> e = IndexError.
Proof. unfold at_pos. destruct (l !! i); [done|]. by intros [= <-]. Qed.

Lemma set_pos_error {A} (l : list A) (i : nat) (v : A) (e : error) :
  set_pos l i v = Raise e -> e = IndexError.
Proof. unfold set_pos. destruct (i <? length l)%nat; [done|]. by intros [= <-]. Qed.

Lemma getitem_error {A} (l : list A) (k : Z) (e : error) :
  getitem l k = Raise e -> e = IndexError.
Proof.
  unfold getitem. destruct (_ && _); [|by intros [= <-]].
  destruct (l !! _); [done|]. by intros [= <-].
Qed.

Lemma swap_error {A} (l : list A) (i j : nat) (e : error) :
  swap l i j = Raise e -> e = IndexError.
Proof.
  unfold swap. destruct (l !! i); [|by intros [= <-]].
  destruct (l !! j); [done|]. by intros [= <-].
Qed.

Create HintDb raises discriminated.
#[local] Hint Resolve at_pos_error set_pos_error getitem_error swap_error : raises.

(** Split [H : bind m k s = Raise e] (or its [rbind] twin) into the case in
    which [m] raised, closed with the [raises] hints, and the case in which
    the continuation did, left in [H]; as often as possible. *)
Ltac split_raise H :=
  first [ apply bind_error in H as [H|(? & ? & _ & H)]
        | apply rbind_error in H as [H|(? & _ & H)] ].
Ltac raise_cases H :=
  repeat (split_raise H;
          [try apply lift_error in H; solve [eauto with raises]|]).

Lemma route_loop_error (positions : list nat) (route_indices : list Z)
    (cities : list Point) (obstacles : list Obstacle) (dist : R) (penalty : Z)
    (e : error) :
  route_loop positions route_indices cities obstacles dist penalty = Raise e ->
  e = IndexError.
Proof.
  revert dist penalty.
  induction positions as [|i rest IH]; intros dist penalty Hrun; [done|].
  cbn [route_loop] in Hrun. raise_cases Hrun. eauto.
Qed.

Lemma get_route_distance_error (route_indices : list Z) (cities : list Point)
    (obstacles : list Obstacle) (e : error) :
  get_route_distance route_indices cities obstacles = Raise e -> e = IndexError.
Proof.
  unfold get_route_distance. intros Hrun.
  apply rbind_error in Hrun as [Hrun|(acc & _ & Hrun)]; [|done].
  by eapply route_loop_error.
Qed.

#[local] Hint Resolve get_route_distance_error : raises.

Lemma copy_loop_error (positions : list nat) (parent1 : list Z)
    (child : list (option Z)) (e : error) :
  copy_loop positions parent1 child = Raise e -> e = IndexError.
Proof.
  revert child. induction positions as [|i rest IH]; intros child Hrun; [done|].
  cbn [copy_loop] in Hrun. raise_cases Hrun. eauto.
Qed.

Lemma copy_loop_length (positions : list nat) (parent1 : list Z)
    (child child' : list (option Z)) :
  copy_loop positions parent1 child = Ok child' -> length child' = length child.
Proof.
  revert child. induction positions as [|i rest IH]; intros child Hrun.
  - by injection Hrun as <-.
  - cbn [copy_loop] in Hrun.
    destruct (at_pos parent1 i) as [v|]; [|done]. cbn [rbind] in Hrun.
    unfold set_pos in Hrun. destruct (i <? length child)%nat; [|done].
    cbn [rbind] in Hrun. apply IH in Hrun. by rewrite length_insert in Hrun.
Qed.

(** The scan stops, with an index or with [IndexError], before its fuel is
    spent. *)
Lemma scan_error (parent2 : list Z) (child : list (option Z)) (fuel : nat) :
  forall (k : nat) (e : error),
  (length parent2 <= fuel + k)%nat ->
  scan fuel parent2 child k = Raise e -> e = IndexError.
Proof.
  induction fuel as [|fuel IH]; intros k e Hfuel Hrun;
    rewrite scan_unfold in Hrun; unfold at_pos in Hrun;
    destruct (parent2 !! k) as [v|] eqn:Hk; cbn [rbind] in Hrun;
    try (by injection Hrun as <-);
    destruct (in_child v child); try done.
  - apply lookup_lt_Some in Hk. lia.
  - apply (IH (S k)); [lia|done].
Qed.

Lemma fill_loop_filled (parent2 : list Z) (n : nat) :
  forall (i : nat) (child child' : list (option Z)) (k : nat),
  fill_loop (seq i n) parent2 child k = Ok child' ->
  filled_below i child ->
  filled_below (i + n) child' /\ length child' = length child.
Proof.
  induction n as [|n IH]; intros i child child' k Hrun Hfilled.
  - injection Hrun as <-. by rewrite Nat.add_0_r.
  - cbn [seq fill_loop] in Hrun. unfold at_pos in Hrun at 1.
    destruct (child !! i) as [slot|] eqn:Hslot; [|done]. cbn [rbind] in Hrun.
    replace (i + S n)%nat with (S i + n)%nat by lia.
    destruct slot as [v0|].
    + apply IH in Hrun; [done|].
      intros j Hj Hlen. destruct (decide (j = i)) as [->|]; [by exists v0|].
      apply Hfilled; [lia|done].
    + destruct (scan _ parent2 child k) as [k'|]; [|done]. cbn [rbind] in Hrun.
      destruct (at_pos parent2 k') as [v|]; [|done]. cbn [rbind] in Hrun.
      unfold set_pos in Hrun. destruct (i <? length child)%nat; [|done].
      cbn [rbind] in Hrun. apply IH in Hrun as [Hdone Hlen].
      * split; [done|]. by rewrite Hlen, length_insert.
      * intros j Hj Hlen. rewrite length_insert in Hlen.
        destruct (decide (j = i)) as [->|].
        -- exists v. by apply list_lookup_insert_eq.
        -- rewrite list_lookup_insert_ne by done. apply Hfilled; [lia|done].
Qed.

Lemma fill_loop_error (parent2 : list Z) (positions : list nat) :
  forall (child : list (option Z)) (k : nat) (e : error),
  fill_loop positions parent2 child k = Raise e -> e = IndexError.
Proof.
  induction positions as [|i rest IH]; intros child k e Hrun; [done|].
  cbn [fill_loop] in Hrun.
  apply rbind_error in Hrun as [Hrun|(slot & _ & Hrun)];
    [by eapply at_pos_error|].
  destruct slot as [v0|]; [by eapply IH|].
  apply rbind_error in Hrun as [Hrun|(k' & _ & Hrun)].
  { eapply scan_error; [|exact Hrun]. lia. }
  apply rbind_error in Hrun as [Hrun|(v & _ & Hrun)];
    [by eapply at_pos_error|].
  apply rbind_error in Hrun as [Hrun|(child' & _ & Hrun)];
    [by eapply set_pos_error|].
  by eapply IH.
Qed.

Lemma breed_error (parent1 parent2 : list Z) (s : state) (e : error) :
  breed parent1 parent2 s = Raise e -> e = IndexError.
Proof.
  unfold breed. intros Hrun.
  destruct (random_index_run (length parent1) s) as (a & Ha & _).
  rewrite (bind_run _ _ _ _ _ Ha) in Hrun.
  destruct (random_index_run (length parent1) (advance s)) as (b & Hb & _).
  rewrite (bind_run _ _ _ _ _ Hb) in Hrun.
  destruct (if (b <? a)%nat then (b, a) else (a, b)) as [start end_].
  apply bind_error in Hrun as [Hrun|(c1 & s1 & Hc1 & Hrun)].
  { apply lift_error in Hrun. by eapply copy_loop_error. }
  apply bind_error in Hrun as [Hrun|(c2 & s2 & Hc2 & Hrun)].
  { apply lift_error in Hrun. by eapply fill_loop_error. }
  apply lift_inv in Hc2 as [Hc2 _].
  apply fill_loop_filled in Hc2 as [Hfilled Hlen]; [|intros j Hj; lia].
  apply lift_error in Hrun.
  destruct (as_route_filled c2) as [Hroute _]; [|congruence].
  intros i Hi. apply Hfilled; [|done]. simpl. lia.
Qed.

Lemma mutate_error (route_ : list Z) (mutation_rate : Q) (s : state) (e : error) :
  mutate route_ mutation_rate s = Raise e -> e = IndexError.
Proof.
  destruct (mutate_run route_ mutation_rate s) as (r' & s' & Hrun & _).
  by rewrite Hrun.
Qed.

Lemma random_choice_error {A} (l : list A) (s : state) (e : error) :
  random_choice l s = Raise e -> e = IndexError.
Proof.
  unfold random_choice. destruct l as [|x l']; [by intros [= <-]|].
  intros Hrun. apply bind_error in Hrun as [Hrun|(i & s1 & _ & Hrun)]; [done|].
  destruct (_ !! i); [done|]. by injection Hrun as <-.
Qed.

#[local] Hint Resolve copy_loop_error fill_loop_error breed_error mutate_error
  random_choice_error : raises.

Lemma breeding_loop_error (scored_pop : list (R * list Z)) (pop_size : Z)
    (mutation_rate : Q) (fuel : nat) :
  forall (new_pop : list (list Z)) (s : state) (e : error),
  (Z.to_nat (pop_size - Z.of_nat (length new_pop)) <= fuel)%nat ->
  breeding_loop fuel scored_pop pop_size mutation_rate new_pop s = Raise e ->
  e = IndexError.
Proof.
  induction fuel as [|fuel IH]; intros new_pop s e Hfuel Hrun;
    rewrite breeding_loop_unfold in Hrun;
    destruct (Z.ltb_spec (Z.of_nat (length new_pop)) pop_size) as [Hlt|Hge];
    try done; try lia.
  raise_cases Hrun.
  eapply IH; [|exact Hrun]. rewrite length_app. simpl. lia.
Qed.

Lemma score_loop_error (cities : list Point) (obstacles : list Obstacle)
    (pop : list (list Z)) :
  forall (acc : list (R * list Z)) (s : state) (e : error),
  score_loop pop cities obstacles acc s = Raise e -> e = IndexError.
Proof.
  induction pop as [|r pop IH]; intros acc s e Hrun; [done|].
  cbn [score_loop] in Hrun.
  apply bind_error in Hrun as [Hrun|(_ & s1 & _ & Hrun)]; [done|].
  raise_cases Hrun. eauto.
Qed.

Lemma generation_step_error (cities : list Point) (obstacles : list Obstacle)
    (pop_size : Z) (mutation_rate : Q) (pop : list (list Z)) (s : state)
    (e : error) :
  generation_step cities obstacles pop_size mutation_rate pop s = Raise e ->
  e = IndexError.
Proof.
  unfold generation_step. intros Hrun.
  apply bind_error in Hrun as [Hrun|(_ & s1 & _ & Hrun)]; [done|].
  apply bind_error in Hrun as [Hrun|(sc & s2 & _ & Hrun)];
    [by eapply score_loop_error|].
  by eapply breeding_loop_error; [|exact Hrun].
Qed.

Lemma evolution_loop_error (req : EvolveRequest) (n : nat) :
  forall (pop : list (list Z)) (s : state) (e : error),
  evolution_loop n req pop s = Raise e -> e = IndexError.
Proof.
  induction n as [|n IH]; intros pop s e Hrun; [done|].
  cbn [evolution_loop] in Hrun.
  apply bind_error in Hrun as [Hrun|(new_pop & s1 & _ & Hrun)];
    [by eapply generation_step_error|].
  by eapply IH.
Qed.

(** Whatever [evolve] raises is an [IndexError]. *)
Lemma evolve_error (req : EvolveRequest) (s : state) (e : error) :
  evolve req s = Raise e -> e = IndexError.
Proof.
  unfold evolve. destruct (length (cities req) <? 2)%nat; [done|].
  intros Hrun.
  apply bind_error in Hrun as [Hrun|(pop & s1 & _ & Hrun)].
  { destruct (population req); [|done].
    apply bind_error in Hrun as [Hrun|(_ & s1 & _ & Hrun)]; [done|].
    destruct (create_initial_population_run (pop_size req)
                (length (cities req)) s1) as (p & s2 & Hp & _).
    by rewrite Hp in Hrun. }
  apply bind_error in Hrun as [Hrun|(pop' & s2 & _ & Hrun)];
    [by eapply evolution_loop_error|].
  apply bind_error in Hrun as [Hrun|(best & s3 & _ & Hrun)].
  { apply lift_error in Hrun. by eapply at_pos_error. }
  apply bind_error in Hrun as [Hrun|(_ & s4 & _ & Hrun)]; [done|].
  apply bind_error in Hrun as [Hrun|(c & s5 & _ & Hrun)]; [|done].
  apply lift_error in Hrun. by eapply get_route_distance_error.
Qed.

(** * Concrete runs *)

Lemma Q2R_inject_Z (z : Z) : Q2R (inject_Z z) = IZR z.
Proof. unfold Q2R. simpl. field. Qed.

(** The distance between two cities on the horizontal axis. *)
Lemma horizontal_distance (x1 x2 d : Z) :
  Z.abs (x1 - x2) = d ->
  calculate_distance (mkPoint (inject_Z x1) 0) (mkPoint (inject_Z x2) 0)
  = IZR d.
Proof.
  intros <-. unfold calculate_distance. cbn [p_x p_y].
  replace (Q2R ((inject_Z x1 - inject_Z x2) ^ 2 + (0 - 0) ^ 2))
    with (Rsqr (IZR (x1 - x2))).
  - by rewrite sqrt_Rsqr_abs, <- abs_IZR.
  - assert (Heq : ((inject_Z x1 - inject_Z x2) ^ 2 + (0 - 0) ^ 2
                   == inject_Z (x1 - x2) * inject_Z (x1 - x2))%Q).
    { unfold inject_Z, Qeq, Qminus, Qplus, Qmult, Qopp. simpl. nia. }
    rewrite (Qeq_eqR _ _ Heq), Q2R_mult, Q2R_inject_Z. reflexivity.
Qed.

Lemma line_cost_detour :
  get_route_distance [0; 2; 1; 3] line_cities [] = Ok 8%R.
Proof.
  rewrite (get_route_distance_points _ _ _
             [mkPoint 0 0; mkPoint 2 0; mkPoint 1 0; mkPoint 3 0]).
  - f_equal. unfold spec_route_cost, tour_length, collisions, closed_edges, Rsum.
    cbn [app zip zip_with map fold_right fst snd list_prod List.filter length INR].
    pose proof (horizontal_distance 0 2 2 eq_refl) as H02.
    pose proof (horizontal_distance 2 1 1 eq_refl) as H21.
    pose proof (horizontal_distance 1 3 2 eq_refl) as H13.
    pose proof (horizontal_distance 3 0 3 eq_refl) as H30.
    unfold inject_Z in *.
    rewrite H02, H21, H13, H30. lra.
  - repeat constructor; done.
Qed.

Lemma line_cost_straight :
  get_route_distance [0; 1; 2; 3] line_cities [] = Ok 6%R.
Proof.
  rewrite (get_route_distance_points _ _ _
             [mkPoint 0 0; mkPoint 1 0; mkPoint 2 0; mkPoint 3 0]).
  - f_equal. unfold spec_route_cost, tour_length, collisions, closed_edges, Rsum.
    cbn [app zip zip_with map fold_right fst snd list_prod List.filter length INR].
    pose proof (horizontal_distance 0 1 1 eq_refl) as H01.
    pose proof (horizontal_distance 1 2 1 eq_refl) as H12.
    pose proof (horizontal_distance 2 3 1 eq_refl) as H23.
    pose proof (horizontal_distance 3 0 3 eq_refl) as H30.
    unfold inject_Z in *.
    rewrite H01, H12, H23, H30. lra.
  - repeat constructor; done.
Qed.

Lemma generation_step_uniform (cities : list Point) (obstacles : list Obstacle)
    (pop_size : Z) (mutation_rate : Q) (r : list Z) (n : nat) (c : R)
    (s : state) :
  get_route_distance r cities obstacles = Ok c ->
  generation_step cities obstacles pop_size mutation_rate (replicate n r) s
  = breeding_loop
      (Z.to_nat (pop_size
                 - Z.of_nat (length (map snd (take ELITE (replicate n (c, r)))))))
      (replicate n (c, r)) pop_size mutation_rate
      (map snd (take ELITE (replicate n (c, r))))
      (mkState (tape s) (cursor s)
         (rev (map EvFitness (replicate n r)) ++ EvGeneration :: trace s)).
Proof.
  intros Hc. unfold generation_step. unfold bind at 1. cbn [log].
  rewrite (bind_run _ _ _ _ _
             (score_loop_run cities obstacles (replicate n r)
                (replicate n (c, r)) ltac:(by apply Forall2_replicate) [] _)).
  cbn [app tape cursor trace]. by rewrite sort_scored_constant.
Qed.

(** X23: what [evolve] does report when it runs: the first route of the returned
    population, with its cost computed afresh. *)
Lemma evolve_reports_first_route (req : EvolveRequest) (s s' : state)
    (resp : EvolveResponse) :
  (2 <= length (cities req))%nat ->
  evolve req s = Ok (resp, s') ->
  r_population resp !! 0%nat = Some (best_route resp)
  /\ get_route_distance (best_route resp) (cities req) (obstacles req)
     = Ok (best_distance resp)
  /\ generation resp = 0.
Proof.
  intros Hcities. unfold evolve.
  destruct (Nat.ltb_spec (length (cities req)) 2) as [?|_]; [lia|].
  intros Hrun.
  apply bind_inv in Hrun as (pop & s1 & _ & Hrun).
  apply bind_inv in Hrun as (pop' & s2 & _ & Hrun).
  apply bind_inv in Hrun as (best & s3 & Hbest & Hrun).
  apply bind_inv in Hrun as (_ & s4 & _ & Hrun).
  apply bind_inv in Hrun as (c & s5 & Hc & Hrun).
  injection Hrun as <- _. cbn [r_population best_route best_distance generation].
  apply lift_inv in Hbest as [Hbest _]. apply lift_inv in Hc as [Hc _].
  unfold at_pos in Hbest. destruct (pop' !! 0%nat) as [r|]; [|done].
  by injection Hbest as ->.
Qed.

(** C3 at a failing input: after one generation on eleven copies of the
    detour, [evolve] reports the detour, of cost 8, as the best route, while
    the child at the end of the returned population costs 6. *)
Theorem first_route_not_best :
  exists resp s',
    evolve stale_request (fresh stale_words) = Ok (resp, s')
    /\ r_population resp = replicate 10 [0; 2; 1; 3] ++ [[0; 1; 2; 3]]
    /\ best_route resp = [0; 2; 1; 3]
    /\ best_distance resp = 8%R
    /\ get_route_distance [0; 1; 2; 3] (cities stale_request)
         (obstacles stale_request) = Ok 6%R
    /\ (6 < best_distance resp)%R.
Proof.
  unfold evolve, stale_request. cbn [cities obstacles population pop_size
    mutation_rate generations_per_step length line_cities Nat.ltb Nat.leb].
  cbn [replicate]. unfold bind at 1. cbn [ret].
  change (Z.to_nat 1) with 1%nat. cbn [evolution_loop].
  cbn [cities obstacles population pop_size mutation_rate].
  change ([0; 2; 1; 3] :: [0; 2; 1; 3] :: [0; 2; 1; 3] :: [0; 2; 1; 3]
          :: [0; 2; 1; 3] :: [0; 2; 1; 3] :: [0; 2; 1; 3] :: [0; 2; 1; 3]
          :: [0; 2; 1; 3] :: [0; 2; 1; 3] :: [[0; 2; 1; 3]])
    with (replicate 11 [0; 2; 1; 3]).
  assert (Hstep : exists s1,
    generation_step line_cities [] 11 (1 # 2) (replicate 11 [0; 2; 1; 3])
      (fresh stale_words)
    = Ok (replicate 10 [0; 2; 1; 3] ++ [[0; 1; 2; 3]], s1)).
  { rewrite (generation_step_uniform _ _ _ _ _ _ _ _ line_cost_detour).
    generalize 8%R. intros c. eexists. vm_compute. reflexivity. }
  destruct Hstep as [s1 Hstep].
  unfold bind at 1. rewrite (bind_run _ _ _ _ _ Hstep). cbn [ret].
  unfold bind at 1. cbn [lift at_pos replicate app lookup list_lookup].
  unfold bind at 1. cbn [log].
  rewrite (bind_run _ _ _ _ _ (lift_run _ _ _ line_cost_detour)).
  eexists _, _. split; [reflexivity|]. cbn [r_population best_route best_distance].
  split; [done|]. split; [done|]. split; [done|].
  split; [exact line_cost_straight|lra].
Qed.

(** C2 at a failing input: with [pop_size = 12] and twelve routes, a parent
    is drawn at index 11 of the ranked population, outside its first
    [12 / 2] entries. *)
Theorem parent_drawn_outside_top_half :
  exists out s',
    generation_step line_cities [] 12 0 (replicate 12 [0; 1; 2; 3])
      (fresh [11%N]) = Ok (out, s')
    /\ EvChoice 11 ∈ trace s'
    /\ 12 / 2 <= Z.of_nat 11.
Proof.
  rewrite (generation_step_uniform _ _ _ _ _ _ _ _ line_cost_straight).
  generalize 6%R. intros c. eexists _, _. split; [vm_compute; reflexivity|].
  split; [|done]. cbn [trace].
  do 3 apply list_elem_of_further. apply list_elem_of_here.
Qed.

(** * The operations on small inputs *)

(** Cuts at 2 and 3 keep [parent1[2]]; the rest is [parent2] in order. *)
Example breed_middle_cut :
  value (breed [0; 1; 2; 3; 4] [4; 3; 2; 1; 0]
           (fresh [half_word; three_quarters_word]))
  = Ok [4; 3; 2; 1; 0].
Proof. reflexivity. Qed.

(** Cuts drawn in reverse order are swapped: 3 and 0 copy [parent1[0:3]]. *)
Example breed_reversed_cuts :
  value (breed [0; 1; 2; 3; 4] [4; 3; 2; 1; 0] (fresh [three_quarters_word; 0%N]))
  = Ok [0; 1; 2; 4; 3].
Proof. reflexivity. Qed.

(** A second parent with a repeated value runs the scan off its end. *)
Example breed_repeated_value :
  value (breed [0; 1; 2; 3; 4] [4; 3; 2; 1; 1] (fresh [])) = Raise IndexError.
Proof. reflexivity. Qed.

(** Rate one half: positions 0, 2 and 3 draw 0 and are swapped with the
    positions 3, 3 and 0; positions 1 and 4 draw one half and are kept. *)
Example mutate_three_swaps :
  value (mutate [0; 1; 2; 3; 4] (1 # 2)
           (fresh [0; three_quarters_word; half_word; 0; three_quarters_word;
                   0; 1; half_word]%N))
  = Ok [2; 1; 0; 3; 4].
Proof. reflexivity. Qed.

(** Each shuffle starts from the list the previous one left. *)
Example initial_population_of_three :
  value (create_initial_population 3 4 (fresh [0; 1; 1; 5; 7; 2; 1; 9]%N))
  = Ok [[3; 2; 1; 0]; [1; 3; 0; 2]; [2; 0; 1; 3]].
Proof. reflexivity. Qed.

Example initial_population_negative_size :
  value (create_initial_population (-2) 4 (fresh [])) = Ok [].
Proof. reflexivity. Qed.

(** A disk around the midpoint of the segment is crossed; a disk that only
    touches the segment is not; beyond the end of the segment the distance is
    taken to the endpoint. *)
Example segment_through_disk :
  line_intersects_circle (mkPoint 0 0) (mkPoint 10 0) (mkObstacle 5 0 5) = true.
Proof. reflexivity. Qed.

Example segment_tangent_to_disk :
  line_intersects_circle (mkPoint 0 0) (mkPoint 10 0) (mkObstacle 5 5 5) = false.
Proof. reflexivity. Qed.

Example segment_near_endpoint :
  line_intersects_circle (mkPoint 0 0) (mkPoint 10 0) (mkObstacle 14 0 5) = true
  /\ line_intersects_circle (mkPoint 0 0) (mkPoint 10 0) (mkObstacle 15 0 5) = false.
Proof. split; reflexivity. Qed.

(** The two edges of the tour between two cities each cross three disks:
    six penalties. *)
Example three_obstacles_on_one_edge :
  get_route_distance [0; 1] [mkPoint 0 0; mkPoint 10 0]
    [mkObstacle 2 0 1; mkObstacle 5 0 1; mkObstacle 8 0 1]
  = Ok 60020%R.
Proof.
  rewrite (get_route_distance_points _ _ _ [mkPoint 0 0; mkPoint 10 0]).
  - f_equal. unfold spec_route_cost, tour_length, Rsum.
    replace (collisions _ _) with 6%nat by reflexivity.
    cbn [closed_edges app zip zip_with map fold_right fst snd INR].
    pose proof (horizontal_distance 0 10 10 eq_refl) as H1.
    pose proof (horizontal_distance 10 0 10 eq_refl) as H2.
    unfold inject_Z in *. rewrite H1, H2. simpl INR. lra.
  - repeat constructor; done.
Qed.

(** Negative city indices count from the end of the city list. *)
Example negative_city_index :
  get_route_distance [0; -1] line_cities [] = Ok 6%R.
Proof.
  unfold get_route_distance.
  change (route_loop (seq 0 (length [0; -1])) [0; -1] line_cities [] 0%R 0)
    with (Ok ((0 + calculate_distance (mkPoint 0 0) (mkPoint 3 0)
                 + calculate_distance (mkPoint 3 0) (mkPoint 0 0))%R, 0)).
  cbn [rbind fst snd].
  pose proof (horizontal_distance 0 3 3 eq_refl) as H1.
  pose proof (horizontal_distance 3 0 3 eq_refl) as H2.
  unfold inject_Z in *. rewrite H1, H2. f_equal. lra.
Qed.

(** A permutation of [0, n) holds every index below [n] exactly once. *)
Lemma is_route_exactly_once (n : nat) (r : list Z) (k : Z) :
  is_route n r -> 0 <= k < Z.of_nat n -> count_occ Z.eq_dec r k = 1%nat.
Proof.
  intros Hr Hk. unfold is_route in Hr.
  rewrite (Permutation_count_occ Z.eq_dec) in Hr.
  rewrite Hr. apply NoDup_count_occ'.
  - rewrite <- NoDup_ListNoDup. apply NoDup_range.
  - apply list_elem_of_In. unfold range. apply list_elem_of_fmap.
    exists (Z.to_nat k). split; [lia|].
    apply list_elem_of_In, in_seq. lia.
Qed.

(** * The theorems at concrete inputs *)

Lemma detour_is_route : [0; 2; 1; 3] ≡ₚ range 4.
Proof. apply perm_skip, perm_swap. Qed.

Lemma reversed_is_route : [3; 2; 1; 0] ≡ₚ range 4.
Proof. symmetry. apply (Permutation_rev (range 4)). Qed.

Lemma permutation_invariant_witness :
  (forall (pop_size : Z) (s : state),
      exists pop s',
        create_initial_population pop_size 4 s = Ok (pop, s')
        /\ Forall (fun r => r ≡ₚ range 4) pop)
  /\ (exists child s',
        breed [0; 2; 1; 3] [3; 2; 1; 0] (fresh [half_word; 1%N]) = Ok (child, s')
        /\ child ≡ₚ range 4)
  /\ (exists route' s',
        mutate [3; 2; 1; 0] (1 # 2) (fresh [0%N; half_word]) = Ok (route', s')
        /\ route' ≡ₚ range 4).
Proof.
  destruct (permutation_invariant 4 ltac:(lia)) as (Hinit & Hbreed & Hmutate).
  split; [exact Hinit|]. split.
  - apply Hbreed; [exact detour_is_route|exact reversed_is_route].
  - apply Hmutate. exact reversed_is_route.
Defined.

Lemma breed_is_total_witness :
  exists child s',
    breed [0; 2; 1; 3] [3; 2; 1; 0] (fresh [half_word; 1%N]) = Ok (child, s')
    /\ length child = 4%nat.
Proof.
  apply (breed_is_total 4 [0; 2; 1; 3] [3; 2; 1; 0] (fresh [half_word; 1%N])).
  - lia.
  - exact detour_is_route.
  - exact reversed_is_route.
Defined.

(** The four cities on a line and a disk of radius one half are of moderate
    magnitude. *)
Lemma integer_moderate (n : Z) : Z.abs n <= 2 ^ 256 -> moderate (inject_Z n).
Proof.
  intros Hn. exists (n * 2 ^ 256). split.
  - rewrite Z.abs_mul. change (2 ^ 512) with (2 ^ 256 * 2 ^ 256).
    rewrite (Z.abs_eq (2 ^ 256)) by lia. nia.
  - unfold Qeq, inject_Z. simpl Qnum. simpl Qden.
    change (Z.pos (2 ^ 256)) with (2 ^ 256). lia.
Qed.

Lemma half_moderate : moderate (1 # 2).
Proof.
  exists (2 ^ 255). split; [vm_compute; discriminate|].
  unfold Qeq. simpl Qnum. simpl Qden. vm_compute. reflexivity.
Qed.

Lemma line_inputs_moderate : moderate_inputs line_cities [mkObstacle 1 0 (1 # 2)].
Proof.
  split.
  - repeat constructor; simpl; apply (integer_moderate _); vm_compute; discriminate.
  - repeat constructor; simpl;
      [apply (integer_moderate 1)|apply (integer_moderate 0)|apply half_moderate];
      vm_compute; discriminate.
Qed.

Lemma route_cost_is_tour_length_plus_penalties_witness :
  exists pts : list Point,
    Forall2 (fun k p => line_cities !! Z.to_nat k = Some p) [0; 2; 1; 3] pts
    /\ (forall c : R,
          get_route_distance [0; 2; 1; 3] line_cities [mkObstacle 1 0 (1 # 2)]
          = Ok c ->
          c = (euclidean_tour_length pts
               + 10000 * INR (collisions pts [mkObstacle 1 0 (1 # 2)]))%R
          /\ (0 <= c)%R)
    /\ exists c : R,
         get_route_distance [0; 2; 1; 3] line_cities [mkObstacle 1 0 (1 # 2)]
         = Ok c.
Proof.
  destruct (route_cost_is_tour_length_plus_penalties [0; 2; 1; 3] line_cities
              [mkObstacle 1 0 (1 # 2)]) as (pts & Hpts & Hcost & Hreturns).
  - discriminate.
  - repeat constructor; simpl; lia.
  - exists pts. split; [exact Hpts|]. split; [exact Hcost|].
    apply Hreturns. exact line_inputs_moderate.
Defined.

Lemma evolve_degenerate_witness :
  evolve (mkRequest [mkPoint 0 0] [] [[0]; [7]] 5 (1 # 100) 10) (fresh [3%N])
  = Ok (mkResponse [] [] 0%R 0, fresh [3%N]).
Proof.
  apply (evolve_degenerate
           (mkRequest [mkPoint 0 0] [] [[0]; [7]] 5 (1 # 100) 10) (fresh [3%N])).
  simpl. lia.
Defined.

Lemma detours_are_routes (n : nat) :
  Forall (is_route (length line_cities)) (replicate n [0; 2; 1; 3]).
Proof. apply Forall_replicate. exact detour_is_route. Qed.

Lemma generation_step_population_size_witness :
  (forall out s',
      generation_step line_cities [] 12 (1 # 100) (replicate 12 [0; 2; 1; 3])
        (fresh [11%N]) = Ok (out, s') ->
      Z.of_nat (length out) = 12)
  /\ (Forall (is_route (length line_cities)) (replicate 12 [0; 2; 1; 3]) ->
      exists out s',
        generation_step line_cities [] 12 (1 # 100) (replicate 12 [0; 2; 1; 3])
          (fresh [11%N]) = Ok (out, s')).
Proof.
  apply (generation_step_population_size line_cities [] 12 (1 # 100)
           (replicate 12 [0; 2; 1; 3]) (fresh [11%N])).
  - lia.
  - discriminate.
Defined.

Lemma generation_step_oversized_population_witness :
  (forall out s',
      generation_step line_cities [] 3 (1 # 100) (replicate 5 [0; 2; 1; 3])
        (fresh []) = Ok (out, s') ->
      Z.of_nat (length out) = Z.max 3 (Z.min 10 (Z.of_nat 5))
      /\ 3 < Z.of_nat (length out))
  /\ (Forall (is_route (length line_cities)) (replicate 5 [0; 2; 1; 3]) ->
      exists out s',
        generation_step line_cities [] 3 (1 # 100) (replicate 5 [0; 2; 1; 3])
          (fresh []) = Ok (out, s')).
Proof.
  apply (generation_step_oversized_population line_cities [] 3 (1 # 100)
           (replicate 5 [0; 2; 1; 3]) (fresh [])).
  - simpl. lia.
  - lia.
Defined.

Lemma elitism_never_regresses_witness :
  exists out s' costs_in costs_out m_in m_out,
    generation_step line_cities [] 11 (1 # 2) (replicate 11 [0; 2; 1; 3])
      (fresh stale_words) = Ok (out, s')
    /\ population_costs line_cities [] (replicate 11 [0; 2; 1; 3]) = Ok costs_in
    /\ population_costs line_cities [] out = Ok costs_out
    /\ min_cost costs_in = Some m_in
    /\ min_cost costs_out = Some m_out
    /\ (m_out <= m_in)%R.
Proof.
  apply (elitism_never_regresses line_cities [] 11 (1 # 2)
           (replicate 11 [0; 2; 1; 3]) (fresh stale_words)).
  - simpl. lia.
  - exact (detours_are_routes 11).
Defined.

(** * More geometry *)

Lemma Qltb_lt (a b : Q) : Qltb a b = true <-> (a < b)%Q.
Proof.
  unfold Qltb. rewrite negb_true_iff. split.
  - intros H. apply Qnot_le_lt. intros Hle. apply Qle_bool_iff in Hle. congruence.
  - intros H. destruct (Qle_bool b a) eqn:E; [|done].
    apply Qle_bool_iff in E. by apply Qlt_not_le in H.
Qed.

Lemma Qltb_ge (a b : Q) : Qltb a b = false <-> (b <= a)%Q.
Proof.
  unfold Qltb. rewrite negb_false_iff. apply Qle_bool_iff.
Qed.

Lemma bool_eq_by_true (a b : bool) : (a = true <-> b = true) -> a = b.
Proof. destruct a, b; intuition congruence. Qed.

(** X4: the radius enters the test through its square only: its sign does not
    matter, and a disk of radius zero is never met, not even by a segment
    through its centre. *)
Theorem radius_enters_squared (p1 p2 : Point) (x y r : Q) :
  line_intersects_circle p1 p2 (mkObstacle x y (- r))
  = line_intersects_circle p1 p2 (mkObstacle x y r)
  /\ line_intersects_circle p1 p2 (mkObstacle x y 0) = false.
Proof.
  unfold line_intersects_circle. cbn [o_x o_y o_radius].
  destruct (_ && _); [done|]. split.
  - apply bool_eq_by_true. rewrite !Qltb_lt.
    assert (E : ((- r) ^ 2 == r ^ 2)%Q) by (simpl; ring).
    by rewrite E.
  - apply Qltb_ge.
    match goal with
    | |- (_ <= ?a ^ 2 + ?b ^ 2)%Q =>
        pose proof (Qsquare_nonneg a); pose proof (Qsquare_nonneg b);
        assert (Ea : (a ^ 2 == a * a)%Q) by (simpl; ring);
        assert (Eb : (b ^ 2 == b * b)%Q) by (simpl; ring);
        assert (E0 : (0 ^ 2 == 0)%Q) by reflexivity
    end.
    lra.
Qed.

(** The distance in real coordinates. *)
Lemma calculate_distance_real (a b : Point) :
  calculate_distance a b
  = sqrt (Rsqr (Q2R (p_x a) - Q2R (p_x b)) + Rsqr (Q2R (p_y a) - Q2R (p_y b))).
Proof.
  unfold calculate_distance, Rsqr. f_equal.
  assert (E : ((p_x a - p_x b) ^ 2 + (p_y a - p_y b) ^ 2
               == (p_x a - p_x b) * (p_x a - p_x b)
                  + (p_y a - p_y b) * (p_y a - p_y b))%Q) by (simpl; ring).
  rewrite (Qeq_eqR _ _ E), Q2R_plus, !Q2R_mult, !Q2R_minus. reflexivity.
Qed.

Lemma norm_triangle (ux uy vx vy : R) :
  (sqrt (Rsqr (ux + vx) + Rsqr (uy + vy))
   <= sqrt (Rsqr ux + Rsqr uy) + sqrt (Rsqr vx + Rsqr vy))%R.
Proof.
  set (A := sqrt (Rsqr ux + Rsqr uy)). set (B := sqrt (Rsqr vx + Rsqr vy)).
  assert (HA : (0 <= A)%R) by apply sqrt_pos.
  assert (HB : (0 <= B)%R) by apply sqrt_pos.
  assert (HA2 : (A * A = Rsqr ux + Rsqr uy)%R).
  { apply sqrt_sqrt. pose proof (Rle_0_sqr ux). pose proof (Rle_0_sqr uy). lra. }
  assert (HB2 : (B * B = Rsqr vx + Rsqr vy)%R).
  { apply sqrt_sqrt. pose proof (Rle_0_sqr vx). pose proof (Rle_0_sqr vy). lra. }
  rewrite <- (sqrt_Rsqr (A + B)) by lra.
  apply sqrt_le_1_alt. unfold Rsqr in *.
  assert (Hdot : (ux * vx + uy * vy <= A * B)%R).
  { destruct (Rle_dec (ux * vx + uy * vy) 0) as [Hneg|Hpos].
    - pose proof (Rmult_le_pos A B HA HB). lra.
    - apply Rsqr_incr_0_var; [|by apply Rmult_le_pos].
      unfold Rsqr.
      replace (A * B * (A * B))%R with ((A * A) * (B * B))%R by ring.
      rewrite HA2, HB2.
      pose proof (Rle_0_sqr (ux * vy - uy * vx)) as Hcs. unfold Rsqr in Hcs.
      lra. }
  nra.
Qed.

Lemma calculate_distance_sym (a b : Point) :
  calculate_distance a b = calculate_distance b a.
Proof. rewrite !calculate_distance_real. f_equal. unfold Rsqr. ring. Qed.

(** X1: [calculate_distance] is a metric on the points: symmetric, zero exactly
    on points with equal coordinates, and subject to the triangle
    inequality. *)
Theorem calculate_distance_metric (a b c : Point) :
  calculate_distance a b = calculate_distance b a
  /\ (calculate_distance a b = 0%R
      <-> (p_x a == p_x b)%Q /\ (p_y a == p_y b)%Q)
  /\ (calculate_distance a c
      <= calculate_distance a b + calculate_distance b c)%R.
Proof.
  split; [|split].
  - apply calculate_distance_sym.
  - rewrite calculate_distance_real.
    pose proof (Rle_0_sqr (Q2R (p_x a) - Q2R (p_x b))) as Hx.
    pose proof (Rle_0_sqr (Q2R (p_y a) - Q2R (p_y b))) as Hy.
    split.
    + intros H0. apply sqrt_eq_0 in H0; [|lra].
      assert (Hx0 : Rsqr (Q2R (p_x a) - Q2R (p_x b)) = 0%R) by lra.
      assert (Hy0 : Rsqr (Q2R (p_y a) - Q2R (p_y b)) = 0%R) by lra.
      apply Rsqr_0_uniq in Hx0, Hy0.
      split; apply eqR_Qeq; lra.
    + intros [Ex Ey]. apply Qeq_eqR in Ex, Ey. rewrite Ex, Ey.
      unfold Rsqr. replace (_ + _)%R with 0%R by ring. apply sqrt_0.
  - rewrite !calculate_distance_real.
    replace (Q2R (p_x a) - Q2R (p_x c))%R
      with ((Q2R (p_x a) - Q2R (p_x b)) + (Q2R (p_x b) - Q2R (p_x c)))%R by ring.
    replace (Q2R (p_y a) - Q2R (p_y c))%R
      with ((Q2R (p_y a) - Q2R (p_y b)) + (Q2R (p_y b) - Q2R (p_y c)))%R by ring.
    apply norm_triangle.
Qed.

(** * More on fitness *)

Lemma getitem_valid {A} (l : list A) (k : Z) :
  (exists a, getitem l k = Ok a) <-> valid_index (length l) k.
Proof.
  unfold getitem, valid_index. cbv zeta.
  destruct (Z.ltb_spec k 0) as [Hneg|Hpos].
  - destruct (Z.leb_spec 0 (k + Z.of_nat (length l))) as [Hlo|Hlo];
      destruct (Z.ltb_spec (k + Z.of_nat (length l)) (Z.of_nat (length l)))
        as [Hhi|Hhi]; cbn [andb]; try lia.
    + destruct (lookup_lt_is_Some_2 l (Z.to_nat (k + Z.of_nat (length l))))
        as [a Ha]; [lia|]. rewrite Ha. split; [lia|eauto].
    + split; [by intros [? ?]|lia].
  - destruct (Z.leb_spec 0 k) as [Hlo|Hlo]; [|lia].
    destruct (Z.ltb_spec k (Z.of_nat (length l))) as [Hhi|Hhi]; cbn [andb].
    + destruct (lookup_lt_is_Some_2 l (Z.to_nat k)) as [a Ha]; [lia|].
      rewrite Ha. split; [lia|eauto].
    + split; [by intros [? ?]|lia].
Qed.

Lemma getitem_outcome {A} (l : list A) (k : Z) :
  (exists a, getitem l k = Ok a) \/ getitem l k = Raise IndexError.
Proof.
  destruct (getitem l k) as [a|e] eqn:E; [left; eauto|right].
  by rewrite (getitem_error _ _ _ E).
Qed.

Lemma route_points_Forall2 (cities : list Point) (r : list Z) (pts : list Point) :
  route_points cities r = Ok pts
  <-> Forall2 (fun k p => getitem cities k = Ok p) r pts.
Proof.
  revert pts. induction r as [|k r IH]; intros pts; simpl.
  - split; [intros [= <-]; constructor|intros ->%Forall2_nil_inv_l; done].
  - destruct (getitem cities k) as [p|e] eqn:Ek; simpl.
    + destruct (route_points cities r) as [pts'|e] eqn:Er; simpl.
      * split.
        -- intros [= <-]. constructor; [done|]. by apply IH.
        -- intros (p' & pts'' & Hp & Hrest & ->)%Forall2_cons_inv_l.
           apply IH in Hrest. congruence.
      * split; [done|].
        intros (p' & pts'' & Hp & Hrest & ->)%Forall2_cons_inv_l.
        apply IH in Hrest. congruence.
    + split; [done|].
      intros (p' & pts'' & Hp & Hrest & ->)%Forall2_cons_inv_l. congruence.
Qed.

Lemma route_points_valid (cities : list Point) (r : list Z) :
  (exists pts, route_points cities r = Ok pts)
  <-> Forall (valid_index (length cities)) r.
Proof.
  induction r as [|k r IH]; simpl.
  - split; [constructor|by exists []].
  - rewrite Forall_cons, <- IH, <- getitem_valid. split.
    + intros [pts Hpts].
      destruct (getitem cities k) as [p|]; [|done]. simpl in Hpts.
      destruct (route_points cities r) as [pts'|]; [|done]. eauto.
    + intros [[p ->] [pts ->]]. simpl. eauto.
Qed.

Lemma route_points_outcome (cities : list Point) (r : list Z) :
  (exists pts, route_points cities r = Ok pts)
  \/ route_points cities r = Raise IndexError.
Proof.
  induction r as [|k r IH]; simpl; [left; eauto|].
  destruct (getitem_outcome cities k) as [[p ->]| ->]; [|by right]. simpl.
  destruct IH as [[pts ->]| ->]; [left; simpl; eauto|by right].
Qed.

(** With Python's subscripts: the loop over the edges that leave the visited
    positions. *)
Lemma route_loop_points (route_indices : list Z) (cities : list Point)
    (obstacles : list Obstacle) (pts : list Point) :
  Forall2 (fun k p => getitem cities k = Ok p) route_indices pts ->
  forall (positions : list nat) (es : list (Point * Point)) (dist : R) (penalty : Z),
  Forall2 (edge_at pts) positions es ->
  route_loop positions route_indices cities obstacles dist penalty
  = Ok ((dist + Rsum (map (fun e => calculate_distance (fst e) (snd e)) es))%R,
        penalty + PENALTY
                  * Z.of_nat (list_sum (map (fun e => hits (fst e) (snd e) obstacles) es))).
Proof.
  intros Hpts positions es. revert positions.
  assert (Hget : forall i p, pts !! i = Some p ->
            exists k, route_indices !! i = Some k /\ getitem cities k = Ok p).
  { intros i p Hp.
    destruct (Forall2_lookup_r _ _ _ _ _ Hpts Hp) as (k & Hk & Hc). eauto. }
  pose proof (Forall2_length _ _ _ Hpts) as Hlen.
  induction es as [|e es IH]; intros positions dist penalty Hes.
  - apply Forall2_nil_inv_r in Hes as ->. unfold Rsum. simpl.
    f_equal. f_equal; [lra|lia].
  - apply Forall2_cons_inv_r in Hes as (i & rest & [Hi Hj] & Hrest & ->).
    cbn [route_loop]. unfold at_pos.
    destruct (Hget _ _ Hi) as (a & -> & Ha). cbn [rbind]. rewrite Ha.
    rewrite Hlen. destruct (Hget _ _ Hj) as (b & -> & Hb). cbn [rbind].
    rewrite Hb. cbn [rbind].
    rewrite (IH _ _ _ Hrest), obstacle_loop_count.
    unfold Rsum. simpl. f_equal. f_equal; [lra|lia].
Qed.

(** The cost of a route whose subscripts Python accepts. *)
Lemma get_route_distance_at (route_indices : list Z) (cities : list Point)
    (obstacles : list Obstacle) (pts : list Point) :
  route_points cities route_indices = Ok pts ->
  get_route_distance route_indices cities obstacles
  = Ok (spec_route_cost pts obstacles).
Proof.
  intros Hpts%route_points_Forall2. unfold get_route_distance.
  pose proof (Forall2_length _ _ _ Hpts) as Hlen.
  rewrite (route_loop_points _ _ _ _ Hpts _ (closed_edges pts)).
  2:{ rewrite Hlen. apply closed_edges_at. }
  simpl. f_equal. unfold spec_route_cost, tour_length, collisions.
  rewrite collisions_edges, Z.add_0_l, mult_IZR, <- INR_IZR_INZ.
  unfold PENALTY. lra.
Qed.

(** What the loop has read when it returns. *)
Lemma route_loop_reads (route_indices : list Z) (cities : list Point)
    (obstacles : list Obstacle) (positions : list nat) :
  forall (dist : R) (penalty : Z) (acc : R * Z),
  route_loop positions route_indices cities obstacles dist penalty = Ok acc ->
  forall i, i ∈ positions ->
  exists k p, route_indices !! i = Some k /\ getitem cities k = Ok p.
Proof.
  induction positions as [|j rest IH]; intros dist penalty acc Hrun i Hi.
  - by apply elem_of_nil in Hi.
  - cbn [route_loop] in Hrun. unfold at_pos in Hrun at 1.
    destruct (route_indices !! j) as [a|] eqn:Ea; [|done]. cbn [rbind] in Hrun.
    destruct (getitem cities a) as [pa|] eqn:Epa; [|done]. cbn [rbind] in Hrun.
    destruct (at_pos route_indices _) as [b|]; [|done]. cbn [rbind] in Hrun.
    destruct (getitem cities b) as [pb|]; [|done]. cbn [rbind] in Hrun.
    apply elem_of_cons in Hi as [->|Hi]; [eauto|].
    by eapply IH.
Qed.

Lemma get_route_distance_invalid (route_indices : list Z)
    (cities : list Point) (obstacles : list Obstacle) :
  ~ Forall (valid_index (length cities)) route_indices ->
  get_route_distance route_indices cities obstacles = Raise IndexError.
Proof.
  intros Hbad.
  destruct (get_route_distance route_indices cities obstacles) as [c|e] eqn:E.
  - destruct Hbad. unfold get_route_distance in E.
    destruct (route_loop _ _ _ _ _ _) as [acc|] eqn:Eloop; [|done].
    apply Forall_forall. intros k Hk.
    apply list_elem_of_lookup in Hk as [i Hi].
    destruct (route_loop_reads _ _ _ _ _ _ _ Eloop i) as (k' & p & Hk' & Hp).
    { apply list_elem_of_In, in_seq. apply lookup_lt_Some in Hi. lia. }
    apply getitem_valid. exists p. congruence.
  - by rewrite (get_route_distance_error _ _ _ _ E).
Qed.

Lemma calculate_distance_self (p : Point) : calculate_distance p p = 0%R.
Proof.
  rewrite calculate_distance_real. unfold Rsqr.
  replace (_ + _)%R with 0%R by ring. apply sqrt_0.
Qed.

(** X6: a route that visits no city or one city costs nothing, whatever the
    obstacles: the only edge of a one-city tour has length zero and a
    zero-length edge collides with nothing. *)
Theorem short_route_costs_nothing (route_indices : list Z)
    (cities : list Point) (obstacles : list Obstacle) :
  (length route_indices <= 1)%nat ->
  Forall (valid_index (length cities)) route_indices ->
  get_route_distance route_indices cities obstacles = Ok 0%R.
Proof.
  intros Hshort [pts Hpts]%route_points_valid.
  rewrite (get_route_distance_at _ _ _ _ Hpts). f_equal.
  apply route_points_Forall2, Forall2_length in Hpts.
  destruct pts as [|p [|q pts]]; [| |simpl in Hpts; lia].
  - unfold spec_route_cost, tour_length, collisions, Rsum. simpl. lra.
  - unfold spec_route_cost, tour_length, collisions.
    rewrite collisions_edges. unfold closed_edges, Rsum.
    cbn [app zip zip_with map fold_right list_sum fst snd].
    rewrite calculate_distance_self.
    replace (hits p p obstacles) with 0%nat; [simpl; lra|].
    unfold hits. induction obstacles as [|o os IH]; [done|].
    simpl. by rewrite (coincident_endpoints_never_intersect p p o).
Qed.

Lemma hits_cons (a b : Point) (o : Obstacle) (obstacles : list Obstacle) :
  hits a b (o :: obstacles)
  = ((if line_intersects_circle a b o then 1 else 0) + hits a b obstacles)%nat.
Proof. unfold hits. simpl. by destruct (line_intersects_circle a b o). Qed.

Lemma edges_hit_sum (es : list (Point * Point)) (o : Obstacle)
    (obstacles : list Obstacle) :
  list_sum (map (fun e => hits (fst e) (snd e) (o :: obstacles)) es)
  = (length (List.filter (fun e => line_intersects_circle (fst e) (snd e) o) es)
     + list_sum (map (fun e => hits (fst e) (snd e) obstacles) es))%nat.
Proof.
  induction es as [|e es IH]; [done|].
  simpl map. simpl list_sum. rewrite IH, hits_cons. simpl List.filter.
  destruct (line_intersects_circle (fst e) (snd e) o); simpl; lia.
Qed.

(** X7: one more obstacle adds 10000 for each edge of the tour that collides with
    it and changes nothing else: the cost never drops, and rises by at most
    10000 times the number of edges. *)
Theorem obstacle_adds_its_penalties (route_indices : list Z)
    (cities : list Point) (obstacles : list Obstacle) (o : Obstacle)
    (pts : list Point) (c : R) :
  route_points cities route_indices = Ok pts ->
  get_route_distance route_indices cities obstacles = Ok c ->
  get_route_distance route_indices cities (o :: obstacles)
  = Ok (c + 10000 * INR (edges_hit pts o))%R
  /\ (edges_hit pts o <= length route_indices)%nat.
Proof.
  intros Hpts Hc.
  rewrite (get_route_distance_at _ _ obstacles _ Hpts) in Hc.
  rewrite (get_route_distance_at _ _ (o :: obstacles) _ Hpts).
  injection Hc as <-. split.
  - f_equal. unfold spec_route_cost, collisions, edges_hit.
    rewrite !collisions_edges, edges_hit_sum, plus_INR. lra.
  - unfold edges_hit. etrans; [apply List.filter_length_le|].
    apply route_points_Forall2, Forall2_length in Hpts. rewrite Hpts.
    destruct pts as [|p pts]; [done|].
    unfold closed_edges. rewrite length_zip_with, length_app. cbn [length]. lia.
Qed.

(** ** The cost belongs to the cyclic tour *)

Lemma spec_route_cost_edges (pts : list Point) (obstacles : list Obstacle) :
  spec_route_cost pts obstacles = edges_cost (closed_edges pts) obstacles.
Proof.
  unfold spec_route_cost, edges_cost, tour_length, collisions.
  by rewrite collisions_edges.
Qed.

Lemma Rsum_perm (l l' : list R) : l ≡ₚ l' -> Rsum l = Rsum l'.
Proof.
  unfold Rsum. induction 1; simpl; lra.
Qed.

Lemma list_sum_perm (l l' : list nat) : l ≡ₚ l' -> list_sum l = list_sum l'.
Proof. induction 1; simpl; lia. Qed.

Lemma edges_cost_perm (es es' : list (Point * Point))
    (obstacles : list Obstacle) :
  es ≡ₚ es' -> edges_cost es obstacles = edges_cost es' obstacles.
Proof.
  intros Hp. unfold edges_cost.
  rewrite (Rsum_perm _ _ (Permutation_map _ Hp)).
  by rewrite (list_sum_perm _ _ (Permutation_map _ Hp)).
Qed.

Lemma zip_longer {A B} (l e : list A) (k : list B) :
  (length k <= length l)%nat -> zip (l ++ e) k = zip l k.
Proof.
  revert k. induction l as [|x l IH]; intros [|y k] Hlen; simpl in *;
    try done; try lia.
  - by destruct e.
  - rewrite IH by lia. done.
Qed.

(** The closed tour is the path that returns to its first city. *)
Lemma closed_edges_path {A} (x : A) (rest : list A) :
  closed_edges (x :: rest) = path_edges (x :: rest ++ [x]).
Proof.
  unfold closed_edges, path_edges. cbn [tail].
  change (x :: rest ++ [x]) with ((x :: rest) ++ [x]).
  rewrite zip_longer; [done|]. rewrite length_app. simpl. lia.
Qed.

Lemma path_edges_snoc {A} (l : list A) (b a : A) :
  path_edges ((l ++ [b]) ++ [a]) = path_edges (l ++ [b]) ++ [(b, a)].
Proof.
  unfold path_edges. induction l as [|x l IH]; [done|].
  destruct l as [|y l]; [done|].
  simpl in IH |- *. by rewrite IH.
Qed.

(** Starting the tour one city later only rotates its edges. *)
Lemma closed_edges_rotate {A} (a : A) (rest : list A) :
  closed_edges (rest ++ [a]) ≡ₚ closed_edges (a :: rest).
Proof.
  destruct rest as [|b rest]; [done|].
  rewrite closed_edges_path.
  change ((b :: rest) ++ [a]) with (b :: (rest ++ [a])).
  rewrite closed_edges_path.
  change (a :: (b :: rest) ++ [a]) with (a :: b :: (rest ++ [a])).
  change (path_edges (a :: b :: rest ++ [a]))
    with ((a, b) :: path_edges (b :: rest ++ [a])).
  replace (b :: (rest ++ [a]) ++ [b]) with (((b :: rest) ++ [a]) ++ [b])
    by reflexivity.
  rewrite path_edges_snoc. symmetry. apply Permutation_cons_append.
Qed.

Lemma route_points_app (cities : list Point) (r1 r2 : list Z) :
  route_points cities (r1 ++ r2)
  = (p1 <~ route_points cities r1 ;;
     p2 <~ route_points cities r2 ;;
     Ok (p1 ++ p2)).
Proof.
  induction r1 as [|k r1 IH]; simpl.
  - by destruct (route_points cities r2).
  - destruct (getitem cities k) as [p|]; [|done]. simpl. rewrite IH.
    destruct (route_points cities r1) as [p1|]; [|done]. simpl.
    by destruct (route_points cities r2).
Qed.

Lemma get_route_distance_via_points (route_indices : list Z)
    (cities : list Point) (obstacles : list Obstacle) :
  get_route_distance route_indices cities obstacles
  = (pts <~ route_points cities route_indices ;;
     Ok (edges_cost (closed_edges pts) obstacles)).
Proof.
  destruct (route_points_outcome cities route_indices) as [[pts Hpts]|Hbad].
  - rewrite (get_route_distance_at _ _ _ _ Hpts), Hpts. simpl.
    by rewrite spec_route_cost_edges.
  - rewrite Hbad. simpl. apply get_route_distance_invalid.
    intros [pts Hpts]%route_points_valid. congruence.
Qed.

Lemma get_route_distance_rotate1 (a : Z) (rest : list Z)
    (cities : list Point) (obstacles : list Obstacle) :
  get_route_distance (rest ++ [a]) cities obstacles
  = get_route_distance (a :: rest) cities obstacles.
Proof.
  rewrite !get_route_distance_via_points, route_points_app. simpl.
  destruct (getitem_outcome cities a) as [[p ->]| ->];
    destruct (route_points_outcome cities rest) as [[pts ->]| ->];
    simpl; try done.
  f_equal. apply edges_cost_perm, closed_edges_rotate.
Qed.

(** X8: the cost does not depend on the city at which the tour starts: a route
    and each of its rotations have the same cost, or both raise. *)
Theorem cost_of_rotated_route (route_indices : list Z) (i : nat)
    (cities : list Point) (obstacles : list Obstacle) :
  get_route_distance (drop i route_indices ++ take i route_indices)
    cities obstacles
  = get_route_distance route_indices cities obstacles.
Proof.
  induction i as [|i IH].
  - by rewrite drop_0, take_0, app_nil_r.
  - destruct (route_indices !! i) as [a|] eqn:Ea.
    + rewrite <- IH, (drop_S _ _ _ Ea), (take_S_r _ _ _ Ea), app_assoc.
      apply get_route_distance_rotate1.
    + apply lookup_ge_None in Ea.
      rewrite drop_ge, take_ge by lia. done.
Qed.

(** * The fitness function in double precision *)

(** ** Signs *)

Lemma binary_round_aux_unsigned (m e : Z) (l : location) :
  unsigned (binary_round_aux prec emax false m e l).
Proof.
  unfold binary_round_aux.
  destruct (shr_fexp prec emax m e l) as [mrs' e'].
  destruct (shr_fexp prec emax _ e' loc_Exact) as [mrs'' e''].
  destruct (shr_m mrs''); simpl; [done| |done].
  by destruct (Z.leb e'' _).
Qed.

Lemma binary_round_unsigned (m : positive) (e : Z) :
  unsigned (binary_round prec emax false m e).
Proof.
  unfold binary_round. destruct (shl_align _ _ _) as [mz ez].
  apply binary_round_aux_unsigned.
Qed.

Lemma SFmul_self_unsigned (x : spec_float) : unsigned (SF64mul x x).
Proof.
  destruct x as [s|s| |s m e]; unfold SF64mul, SFmul.
  - by destruct s.
  - by destruct s.
  - done.
  - replace (xorb s s) with false by (by destruct s).
    apply binary_round_aux_unsigned.
Qed.

Lemma SFadd_unsigned (x y : spec_float) :
  unsigned x -> unsigned y -> unsigned (SF64add x y).
Proof.
  destruct x as [sx|sx| |sx mx ex], y as [sy|sy| |sy my ey];
    unfold SF64add, SFadd; cbn [unsigned]; intros Hx Hy; subst; try done.
  cbn [cond_Zopp Z.add binary_normalize]. apply binary_round_unsigned.
Qed.

Lemma SFsqrt_unsigned (x : spec_float) : unsigned x -> unsigned (SF64sqrt x).
Proof.
  destruct x as [s|s| |s m e]; unfold SF64sqrt, SFsqrt; cbn [unsigned];
    intros Hx; subst; try done.
  destruct (SFsqrt_core_binary _ _ _ _) as [[mz ez] lz].
  apply binary_round_aux_unsigned.
Qed.

Lemma unsigned_not_below_zero (x : spec_float) :
  unsigned x -> SFltb x (S754_zero false) = false.
Proof.
  destruct x as [s|s| |s m e]; cbn [unsigned]; intros Hx; subst; done.
Qed.

Lemma zero_not_negative : not_negative 0.
Proof. reflexivity. Qed.

Lemma add_not_negative (a b : float) :
  not_negative a -> not_negative b -> not_negative (a + b).
Proof. unfold not_negative. rewrite add_spec. apply SFadd_unsigned. Qed.

Lemma not_negative_ltb (x : float) : not_negative x -> (x <? 0)%float = false.
Proof.
  intros Hx. rewrite ltb_spec. change (Prim2SF 0) with (S754_zero false).
  by apply unsigned_not_below_zero.
Qed.

Lemma float_of_int_not_negative (n : Z) : not_negative (Binary64.float_of_int n).
Proof.
  unfold not_negative, Binary64.float_of_int. rewrite of_uint63_spec.
  pose proof (Uint63.to_Z_bounded (Uint63.of_Z n)) as [Hlo _].
  destruct (Uint63.to_Z (Uint63.of_Z n)) as [|m|m]; cbn [binary_normalize].
  - done.
  - apply binary_round_unsigned.
  - lia.
Qed.

(** ** Outcomes of the arithmetic *)

Lemma square_outcome (x : float) :
  (exists y, Binary64.square x = Binary64.Ok y /\ not_negative y)
  \/ Binary64.square x = Binary64.Raise Binary64.OverflowError.
Proof.
  unfold Binary64.square. cbv zeta.
  destruct (is_finite x && is_infinity (x * x)); [by right|left].
  eexists. split; [done|].
  unfold not_negative. rewrite mul_spec. apply SFmul_self_unsigned.
Qed.

Lemma math_sqrt_outcome (x : float) :
  not_negative x ->
  exists y, Binary64.math_sqrt x = Binary64.Ok y /\ not_negative y.
Proof.
  intros Hx. unfold Binary64.math_sqrt. rewrite (not_negative_ltb x Hx).
  eexists. split; [done|].
  unfold not_negative. rewrite sqrt_spec. by apply SFsqrt_unsigned.
Qed.

(** [calculate_distance] returns a distance that is not negative, or raises
    [OverflowError]; [math.sqrt] never sees a negative number. *)
Lemma calculate_distance_outcome (a b : Binary64.Point) :
  (exists d, Binary64.calculate_distance a b = Binary64.Ok d /\ not_negative d)
  \/ Binary64.calculate_distance a b = Binary64.Raise Binary64.OverflowError.
Proof.
  unfold Binary64.calculate_distance.
  destruct (square_outcome (Binary64.p_x a - Binary64.p_x b))
    as [(u & -> & Hu)| ->]; [|by right].
  destruct (square_outcome (Binary64.p_y a - Binary64.p_y b))
    as [(v & -> & Hv)| ->]; [|by right].
  left. cbn [Binary64.rbind]. apply math_sqrt_outcome.
  by apply add_not_negative.
Qed.

Lemma square_error (x : float) (e : Binary64.error) :
  Binary64.square x = Binary64.Raise e -> e = Binary64.OverflowError.
Proof. destruct (square_outcome x) as [(y & -> & _)| ->]; congruence. Qed.

(** [line_intersects_circle] raises nothing but [ZeroDivisionError] and
    [OverflowError]. *)
Lemma line_intersects_circle_error (p1 p2 : Binary64.Point)
    (circle : Binary64.Obstacle) (e : Binary64.error) :
  Binary64.line_intersects_circle p1 p2 circle = Binary64.Raise e ->
  e = Binary64.ZeroDivisionError \/ e = Binary64.OverflowError.
Proof.
  unfold Binary64.line_intersects_circle. cbv zeta.
  destruct (_ && _); [done|].
  unfold Binary64.truediv.
  destruct (_ =? 0)%float; cbn [Binary64.rbind]; [left; congruence|].
  intros Hrun. right.
  repeat match type of Hrun with
         | Binary64.rbind (Binary64.square ?x) _ = _ =>
             destruct (Binary64.square x) as [?|?] eqn:?; cbn [Binary64.rbind] in Hrun
         end; try done.
  all: injection Hrun as <-; by eapply square_error.
Qed.

Lemma obstacle_loop_outcome (a b : Binary64.Point)
    (obstacles : list Binary64.Obstacle) (penalty : Z) :
  0 <= penalty ->
  match Binary64.obstacle_loop a b obstacles penalty with
  | Binary64.Ok penalty' => 0 <= penalty'
  | Binary64.Raise e =>
      e = Binary64.ZeroDivisionError \/ e = Binary64.OverflowError
  end.
Proof.
  revert penalty. induction obstacles as [|obs rest IH]; intros penalty Hp.
  - done.
  - cbn [Binary64.obstacle_loop].
    destruct (Binary64.line_intersects_circle a b obs) as [hit|e] eqn:E;
      cbn [Binary64.rbind].
    + apply IH. unfold PENALTY. destruct hit; lia.
    + by eapply line_intersects_circle_error.
Qed.

(** ** Subscripts *)

Lemma located_at_pos {A} (l : list A) (i : nat) :
  Binary64.located (Binary64.found (at_pos l i))
  = match l !! i with
    | Some a => Binary64.Ok a
    | None => Binary64.Raise Binary64.IndexError
    end.
Proof. unfold at_pos. by destruct (l !! i). Qed.

Lemma located_getitem_Ok {A} (l : list A) (k : Z) (a : A) :
  Binary64.located (Binary64.found (getitem l k)) = Binary64.Ok a ->
  valid_index (length l) k.
Proof.
  intros H. apply getitem_valid.
  destruct (getitem l k) as [a'|]; [eauto|done].
Qed.

Lemma located_getitem_valid {A} (l : list A) (k : Z) :
  valid_index (length l) k ->
  exists a, Binary64.located (Binary64.found (getitem l k)) = Binary64.Ok a.
Proof. intros [a ->]%getitem_valid. simpl. eauto. Qed.

(** ** The fitness loop *)

Lemma route_loop_outcome (positions : list nat) (route_indices : list Z)
    (cities : list Binary64.Point) (obstacles : list Binary64.Obstacle)
    (dist : float) (penalty : Z) :
  not_negative dist -> 0 <= penalty ->
  match Binary64.route_loop positions route_indices cities obstacles dist penalty with
  | Binary64.Ok (d, p) =>
      not_negative d /\ 0 <= p
      /\ forall i, i ∈ positions ->
           exists k, route_indices !! i = Some k
                     /\ valid_index (length cities) k
  | Binary64.Raise e =>
      e <> Binary64.ValueError
      /\ (Forall (valid_index (length cities)) route_indices ->
          Forall (fun i => (i < length route_indices)%nat) positions ->
          e <> Binary64.IndexError)
  end.
Proof.
  revert dist penalty.
  induction positions as [|i rest IH]; intros dist penalty Hd Hp.
  - simpl. split; [done|]. split; [done|]. by intros i ?%elem_of_nil.
  - cbn [Binary64.route_loop]. rewrite !located_at_pos.
    destruct (route_indices !! i) as [a|] eqn:Ea; cbn [Binary64.rbind].
    2:{ split; [done|]. intros _ [Hi _]%Forall_cons.
        by apply lookup_ge_None in Ea; lia. }
    destruct (Binary64.located (Binary64.found (getitem cities a)))
      as [from_city|e] eqn:Efrom; cbn [Binary64.rbind].
    2:{ assert (e = Binary64.IndexError) as ->.
        { by destruct (getitem cities a); simpl in Efrom; congruence. }
        split; [done|]. intros Hvalid _.
        destruct (located_getitem_valid cities a) as [p Hp']; [|congruence].
        eapply Forall_forall; [exact Hvalid|]. by eapply list_elem_of_lookup_2. }
    destruct (route_indices !! ((i + 1) mod length route_indices)%nat)
      as [b|] eqn:Eb; cbn [Binary64.rbind].
    2:{ split; [done|]. intros _ [Hi _]%Forall_cons.
        apply lookup_ge_None in Eb.
        pose proof (Nat.mod_upper_bound (i + 1) (length route_indices)). lia. }
    destruct (Binary64.located (Binary64.found (getitem cities b)))
      as [to_city|e] eqn:Eto; cbn [Binary64.rbind].
    2:{ assert (e = Binary64.IndexError) as ->.
        { by destruct (getitem cities b); simpl in Eto; congruence. }
        split; [done|]. intros Hvalid _.
        destruct (located_getitem_valid cities b) as [p Hp']; [|congruence].
        eapply Forall_forall; [exact Hvalid|]. by eapply list_elem_of_lookup_2. }
    destruct (calculate_distance_outcome from_city to_city)
      as [(d & -> & Hd')| ->]; cbn [Binary64.rbind]; [|done].
    pose proof (obstacle_loop_outcome from_city to_city obstacles penalty Hp)
      as Hobs.
    destruct (Binary64.obstacle_loop from_city to_city obstacles penalty)
      as [penalty'|e]; cbn [Binary64.rbind].
    2:{ destruct Hobs as [-> | ->]; done. }
    specialize (IH (dist + d)%float penalty' (add_not_negative _ _ Hd Hd') Hobs).
    destruct (Binary64.route_loop rest route_indices cities obstacles
                (dist + d) penalty') as [[d' p']|e].
    + destruct IH as (Hd'' & Hp'' & Hreads). split; [done|]. split; [done|].
      intros j [->|Hj]%elem_of_cons; [|by apply Hreads].
      exists a. split; [done|]. by eapply located_getitem_Ok.
    + destruct IH as [Hne Hidx]. split; [done|].
      intros Hvalid [_ Hrest]%Forall_cons. by apply Hidx.
Qed.

(** ** What rounding does to the segment test *)

(** X2: in double arithmetic [line_intersects_circle] reports a collision
    that is none.  The disk of radius 1 at (1, 3) touches the line through
    (0, 0) and (3, 4): every point of the line is at squared distance 1 or
    more from its centre, and none is strictly inside.  The source rounds the
    projection parameter 15/25 and the closest point, finds a squared
    distance just below 1, and answers [True]. *)
Theorem tangent_disk_is_reported :
  Binary64.line_intersects_circle
    (Binary64.mkPoint 0 0) (Binary64.mkPoint 3 4) (Binary64.mkObstacle 1 3 1)
  = Binary64.Ok true
  /\ forall t : Q,
       (1 ^ 2 <= sq_dist_at (mkPoint 0 0) (mkPoint 3 4) (mkObstacle 1 3 1) t)%Q.
Proof.
  split; [vm_compute; reflexivity|].
  intros t. unfold sq_dist_at. simpl p_x. simpl p_y. simpl o_x. simpl o_y.
  pose proof (Qsquare_nonneg (5 * t - 3)). simpl. lra.
Qed.

(** X3: in double arithmetic the answer of [line_intersects_circle] depends
    on the order of the endpoints.  The disk of radius 2 at (4, 2) touches
    the line through (0, 0) and (3, 4), so no point is strictly inside it;
    from (0, 0) to (3, 4) the source answers [True], from (3, 4) to (0, 0)
    it answers [False]. *)
Theorem endpoint_order_changes_answer :
  Binary64.line_intersects_circle
    (Binary64.mkPoint 0 0) (Binary64.mkPoint 3 4) (Binary64.mkObstacle 4 2 2)
  = Binary64.Ok true
  /\ Binary64.line_intersects_circle
       (Binary64.mkPoint 3 4) (Binary64.mkPoint 0 0) (Binary64.mkObstacle 4 2 2)
     = Binary64.Ok false
  /\ forall t : Q,
       (2 ^ 2 <= sq_dist_at (mkPoint 0 0) (mkPoint 3 4) (mkObstacle 4 2 2) t)%Q.
Proof.
  split; [vm_compute; reflexivity|]. split; [vm_compute; reflexivity|].
  intros t. unfold sq_dist_at. simpl p_x. simpl p_y. simpl o_x. simpl o_y.
  pose proof (Qsquare_nonneg (5 * t - 4)). simpl. lra.
Qed.

(** ** What the fitness function returns and raises *)

Lemma located_getitem_elem {A} (l : list A) (k : Z) (a : A) :
  Binary64.located (Binary64.found (getitem l k)) = Binary64.Ok a -> a ∈ l.
Proof.
  unfold getitem. cbv zeta. destruct (_ && _); [|done].
  destruct (l !! _) as [a'|] eqn:E; [|done]. simpl. intros [= <-].
  by eapply list_elem_of_lookup_2.
Qed.

Lemma located_getitem_error {A} (l : list A) (k : Z) (e : Binary64.error) :
  Binary64.located (Binary64.found (getitem l k)) = Binary64.Raise e ->
  e = Binary64.IndexError.
Proof. destruct (getitem l k); simpl; congruence. Qed.

Lemma obstacle_loop_benign (a b : Binary64.Point)
    (obstacles : list Binary64.Obstacle) (penalty : Z) :
  (forall obs, obs ∈ obstacles ->
     exists hit, Binary64.line_intersects_circle a b obs = Binary64.Ok hit) ->
  exists penalty', Binary64.obstacle_loop a b obstacles penalty
                   = Binary64.Ok penalty'.
Proof.
  revert penalty. induction obstacles as [|obs rest IH]; intros penalty Hok.
  - simpl. eauto.
  - cbn [Binary64.obstacle_loop].
    destruct (Hok obs) as [hit ->]; [apply list_elem_of_here|].
    cbn [Binary64.rbind]. apply IH.
    intros obs' Hin. apply Hok. by apply list_elem_of_further.
Qed.

(** On benign inputs the loop raises nothing but [IndexError]. *)
Lemma route_loop_benign (positions : list nat) (route_indices : list Z)
    (cities : list Binary64.Point) (obstacles : list Binary64.Obstacle)
    (dist : float) (penalty : Z) (e : Binary64.error) :
  benign cities obstacles ->
  Binary64.route_loop positions route_indices cities obstacles dist penalty
  = Binary64.Raise e ->
  e = Binary64.IndexError.
Proof.
  intros Hben. revert dist penalty.
  induction positions as [|i rest IH]; intros dist penalty; [done|].
  cbn [Binary64.route_loop]. rewrite !located_at_pos.
  destruct (route_indices !! i) as [a|]; cbn [Binary64.rbind]; [|congruence].
  destruct (Binary64.located (Binary64.found (getitem cities a)))
    as [from_city|e'] eqn:Efrom; cbn [Binary64.rbind].
  2:{ intros [= <-]. by eapply located_getitem_error. }
  destruct (route_indices !! ((i + 1) mod length route_indices)%nat) as [b|];
    cbn [Binary64.rbind]; [|congruence].
  destruct (Binary64.located (Binary64.found (getitem cities b)))
    as [to_city|e'] eqn:Eto; cbn [Binary64.rbind].
  2:{ intros [= <-]. by eapply located_getitem_error. }
  destruct (Hben from_city to_city) as [[d ->] Htests];
    [by eapply located_getitem_elem..|].
  cbn [Binary64.rbind].
  destruct (obstacle_loop_benign from_city to_city obstacles penalty Htests)
    as [penalty' ->].
  cbn [Binary64.rbind]. apply IH.
Qed.

Lemma get_route_distance_returns (route_indices : list Z)
    (cities : list Binary64.Point) (obstacles : list Binary64.Obstacle)
    (c : float) :
  Binary64.get_route_distance route_indices cities obstacles = Binary64.Ok c ->
  Forall (valid_index (length cities)) route_indices
  /\ (c <? 0)%float = false.
Proof.
  intros Hrun. unfold Binary64.get_route_distance in Hrun.
  pose proof (route_loop_outcome (seq 0 (length route_indices)) route_indices
                cities obstacles 0 0 zero_not_negative (Z.le_refl 0)) as Hloop.
  destruct (Binary64.route_loop _ _ _ _ _ _) as [[d p]|e]; [|done].
  destruct Hloop as (Hd & Hp & Hreads).
  cbn [Binary64.rbind fst snd] in Hrun. injection Hrun as <-. split.
  - apply Forall_forall. intros k Hk.
    apply list_elem_of_lookup in Hk as [i Hi].
    destruct (Hreads i) as (k' & Hk' & Hvalid).
    { apply list_elem_of_In, in_seq. apply lookup_lt_Some in Hi. lia. }
    congruence.
  - apply not_negative_ltb, add_not_negative;
      [done|apply float_of_int_not_negative].
Qed.

Lemma get_route_distance_raised (route_indices : list Z)
    (cities : list Binary64.Point) (obstacles : list Binary64.Obstacle)
    (e : Binary64.error) :
  Binary64.get_route_distance route_indices cities obstacles = Binary64.Raise e ->
  e <> Binary64.ValueError
  /\ (e = Binary64.IndexError ->
      ~ Forall (valid_index (length cities)) route_indices)
  /\ (benign cities obstacles -> e = Binary64.IndexError).
Proof.
  intros Hrun. unfold Binary64.get_route_distance in Hrun.
  pose proof (route_loop_outcome (seq 0 (length route_indices)) route_indices
                cities obstacles 0 0 zero_not_negative (Z.le_refl 0)) as Hloop.
  destruct (Binary64.route_loop _ _ _ _ _ _) as [[d p]|e'] eqn:Eloop; [done|].
  cbn [Binary64.rbind] in Hrun. injection Hrun as ->.
  destruct Hloop as [Hne Hidx]. split; [done|]. split.
  - intros -> Hvalid. apply Hidx; [done| |done].
    apply Forall_forall. intros i Hi%list_elem_of_In%in_seq. lia.
  - intros Hben. by eapply route_loop_benign.
Qed.

(** X5: [get_route_distance] in double arithmetic.  It returns only on a route
    all of whose entries are subscripts that Python accepts on the city list,
    and the cost it returns is not negative.  When it raises, the error is
    never the [ValueError] of [math.sqrt], and it is [IndexError] only if
    some entry is not a valid subscript.  On cities and obstacles whose
    distances and collision tests all return, it returns on every route of
    valid subscripts and raises [IndexError] on every other route.  Without
    that, valid subscripts do not make it return: between the cities (0, 0)
    and (2^600, 0) the square overflows, and beside an obstacle an edge of
    length 2^-600 divides by a squared length that was rounded to zero. *)
Theorem get_route_distance_outcomes :
  (forall (route_indices : list Z) (cities : list Binary64.Point)
          (obstacles : list Binary64.Obstacle) (c : float),
     Binary64.get_route_distance route_indices cities obstacles = Binary64.Ok c ->
     Forall (valid_index (length cities)) route_indices
     /\ (c <? 0)%float = false)
  /\ (forall (route_indices : list Z) (cities : list Binary64.Point)
             (obstacles : list Binary64.Obstacle) (e : Binary64.error),
        Binary64.get_route_distance route_indices cities obstacles
        = Binary64.Raise e ->
        e <> Binary64.ValueError
        /\ (e = Binary64.IndexError ->
            ~ Forall (valid_index (length cities)) route_indices))
  /\ (forall (route_indices : list Z) (cities : list Binary64.Point)
             (obstacles : list Binary64.Obstacle),
        benign cities obstacles ->
        (Forall (valid_index (length cities)) route_indices ->
         exists c, Binary64.get_route_distance route_indices cities obstacles
                   = Binary64.Ok c)
        /\ (~ Forall (valid_index (length cities)) route_indices ->
            Binary64.get_route_distance route_indices cities obstacles
            = Binary64.Raise Binary64.IndexError))
  /\ Binary64.get_route_distance [0; 1]
       [Binary64.mkPoint 0 0; Binary64.mkPoint 0x1p600 0] []
     = Binary64.Raise Binary64.OverflowError
  /\ Binary64.get_route_distance [0; 1]
       [Binary64.mkPoint 0 0; Binary64.mkPoint 0x1p-600 0]
       [Binary64.mkObstacle 1 1 1]
     = Binary64.Raise Binary64.ZeroDivisionError.
Proof.
  split; [exact get_route_distance_returns|].
  split.
  { intros route_indices cities obstacles e Hrun.
    destruct (get_route_distance_raised _ _ _ _ Hrun) as (Hne & Hidx & _).
    by split. }
  split; [|split; vm_compute; reflexivity].
  intros route_indices cities obstacles Hben.
  destruct (Binary64.get_route_distance route_indices cities obstacles)
    as [c|e] eqn:Erun.
  - destruct (get_route_distance_returns _ _ _ _ Erun) as [Hvalid _].
    split; [eauto|]. by intros Hbad.
  - destruct (get_route_distance_raised _ _ _ _ Erun) as (_ & Hidx & Hkind).
    rewrite (Hkind Hben) in Hidx |- *.
    split; [|done]. intros Hvalid. by destruct (Hidx eq_refl).
Qed.

(** X9: in double arithmetic the cost of a tour depends on its direction.
    Through the cities (0, 0), (3, 4) and (-100, 0), with the disk of
    radius 2 at (4, 2) that touches the first edge, the route [0, 1, 2]
    is charged one penalty and costs more than 10208, and the reversed
    route is charged none and costs less than 209. *)
Theorem reversed_route_costs_a_penalty :
  exists c c' : float,
    Binary64.get_route_distance [0; 1; 2]
      [Binary64.mkPoint 0 0; Binary64.mkPoint 3 4; Binary64.mkPoint (-100) 0]
      [Binary64.mkObstacle 4 2 2]
    = Binary64.Ok c
    /\ Binary64.get_route_distance (rev [0; 1; 2])
         [Binary64.mkPoint 0 0; Binary64.mkPoint 3 4; Binary64.mkPoint (-100) 0]
         [Binary64.mkObstacle 4 2 2]
       = Binary64.Ok c'
    /\ (10208 <? c)%float = true
    /\ (c' <? 209)%float = true
    /\ (c' + 10000 =? c)%float = true.
Proof.
  eexists _, _. split; [vm_compute; reflexivity|].
  split; [vm_compute; reflexivity|].
  repeat split; vm_compute; reflexivity.
Qed.

(** * Ordered crossover, exactly *)

Lemma random_index_word (n : nat) (s : state) :
  random_index n s = Ok (index_of_word n (tape s (cursor s)), advance s).
Proof. reflexivity. Qed.

Lemma copy_loop_exact (parent1 : list Z) (m : nat) :
  forall (i : nat) (child : list (option Z)),
  (i + m <= length parent1)%nat -> length child = length parent1 ->
  copy_loop (seq i m) parent1 child
  = Ok (take i child ++ map Some (take m (drop i parent1))
          ++ drop (i + m) child).
Proof.
  induction m as [|m IH]; intros i child Hin Hlen.
  - simpl. by rewrite Nat.add_0_r, take_drop.
  - destruct (lookup_lt_is_Some_2 parent1 i) as [v Hv]; [lia|].
    cbn [seq copy_loop]. rewrite (at_pos_run _ _ _ Hv). cbn [rbind].
    rewrite set_pos_run by lia. cbn [rbind].
    rewrite IH by (rewrite ?length_insert; lia).
    rewrite (drop_S _ _ _ Hv). cbn [take map].
    rewrite drop_insert_lt by lia.
    assert (Hi : <[i:=Some v]> child !! i = Some (Some v))
      by (apply list_lookup_insert_eq; lia).
    rewrite (take_S_r _ _ _ Hi), take_insert_ge by lia.
    replace (i + S m)%nat with (S i + m)%nat by lia.
    by rewrite <- app_assoc.
Qed.

Lemma placed_app (c1 c2 : list (option Z)) :
  placed (c1 ++ c2) = placed c1 ++ placed c2.
Proof. unfold placed. apply omap_app. Qed.

Lemma placed_map_Some (l : list Z) : placed (map Some l) = l.
Proof.
  induction l as [|v l IH]; [done|].
  cbn [map]. by rewrite placed_some, IH.
Qed.

Lemma as_route_map_Some (l : list Z) : as_route (map Some l) = Ok l.
Proof. induction l as [|v l IH]; [done|]. simpl. by rewrite IH. Qed.

Lemma filter_none {A} (P : A -> Prop) `{!forall x, Decision (P x)} (l : list A) :
  (forall x, x ∈ l -> ~ P x) -> filter P l = [].
Proof.
  induction l as [|x l IH]; intros Hall; [done|].
  rewrite filter_cons_False by (apply Hall; left).
  apply IH. intros y Hy. apply Hall. by right.
Qed.

Lemma filter_all {A} (P : A -> Prop) `{!forall x, Decision (P x)} (l : list A) :
  (forall x, x ∈ l -> P x) -> filter P l = l.
Proof.
  induction l as [|x l IH]; intros Hall; [done|].
  rewrite filter_cons_True by (apply Hall; left).
  f_equal. apply IH. intros y Hy. apply Hall. by right.
Qed.

Section Fill.
Variable parent2 : list Z.
Hypothesis parent2_NoDup : NoDup parent2.

(** The scan stops at the first value of [parent2] that is not placed
    yet. *)
Lemma scan_finds_head (child : list (option Z)) (k : nat) (a : Z)
    (avail : list Z) :
  filter (fun v => v ∉ placed child) parent2 = a :: avail ->
  (forall j w, (j < k)%nat -> parent2 !! j = Some w -> w ∈ placed child) ->
  exists k',
    scan (length parent2) parent2 child k = Ok k'
    /\ parent2 !! k' = Some a
    /\ (forall j w, (j < k')%nat -> parent2 !! j = Some w -> w ∈ placed child).
Proof.
  intros Hfilter Hseen.
  assert (Ha : a ∈ filter (fun v => v ∉ placed child) parent2)
    by (rewrite Hfilter; left).
  apply list_elem_of_filter in Ha as [Hfree Ha].
  apply list_elem_of_lookup in Ha as [j Hj].
  assert (Hkj : (k <= j)%nat).
  { destruct (Nat.le_gt_cases k j) as [|Hlt]; [done|].
    destruct Hfree. by apply (Hseen j). }
  destruct (scan_run parent2 child a (j - k) k (length parent2))
    as (k' & v' & Hrun & Hk' & Hfree' & Hskip).
  { by replace (k + (j - k))%nat with j by lia. }
  { by apply not_in_child_placed. }
  { apply lookup_lt_Some in Hj. lia. }
  assert (Hbefore : forall i w, (i < k')%nat -> parent2 !! i = Some w ->
                                w ∈ placed child).
  { intros i w Hi Hw. destruct (decide (i < k)%nat) as [Hlt|Hge].
    - by apply (Hseen i).
    - apply in_child_placed, (Hskip i); [lia|done]. }
  exists k'. split; [done|]. split; [|done].
  rewrite <- (take_drop_middle _ _ _ Hk'), filter_app in Hfilter.
  rewrite filter_none in Hfilter.
  - apply not_in_child_placed in Hfree'.
    rewrite filter_cons_True in Hfilter by done. simpl in Hfilter.
    congruence.
  - intros x Hx Hnot. apply Hnot.
    apply list_elem_of_lookup in Hx as [i Hi].
    apply lookup_take_Some in Hi as [Hi Hlt]. by apply (Hbefore i).
Qed.

(** Once the head of the values still to place is placed, the tail is what
    is still to place. *)
Lemma avail_step (P P' : list Z) (a : Z) (avail : list Z) :
  P' ≡ₚ a :: P ->
  filter (fun v => v ∉ P) parent2 = a :: avail ->
  filter (fun v => v ∉ P') parent2 = avail.
Proof.
  intros HP Hfilter.
  assert (Hnd : NoDup (a :: avail)).
  { rewrite <- Hfilter. by apply NoDup_filter. }
  apply NoDup_cons in Hnd as [Ha _].
  rewrite (list_filter_iff _ (fun v => v <> a /\ v ∉ P)).
  - rewrite <- (list_filter_filter (fun v => v <> a) (fun v => v ∉ P)), Hfilter.
    rewrite filter_cons_False by (by intros ?).
    apply filter_all. intros x Hx ->. done.
  - intros v. rewrite HP, not_elem_of_cons. done.
Qed.

(** The fill loop, exactly: the slots already visited stay, and the unset
    ones among the others take the unplaced values of [parent2] in order. *)
Lemma fill_loop_exact (todo : list (option Z)) :
  forall (visited : list (option Z)) (k : nat),
  (forall j w, (j < k)%nat -> parent2 !! j = Some w ->
               w ∈ placed (visited ++ todo)) ->
  (length todo
   <= length (placed todo)
      + length (filter (fun v => v ∉ placed (visited ++ todo)) parent2))%nat ->
  fill_loop (seq (length visited) (length todo)) parent2 (visited ++ todo) k
  = Ok (visited
        ++ fill_slots todo
             (filter (fun v => v ∉ placed (visited ++ todo)) parent2)).
Proof.
  induction todo as [|slot todo IH]; intros visited k Hseen Hroom.
  - simpl. by rewrite app_nil_r.
  - cbn [length seq fill_loop].
    rewrite (at_pos_run _ _ slot) by (by apply list_lookup_middle).
    cbn [rbind]. destruct slot as [v0|].
    + rewrite placed_some in Hroom. cbn [length] in Hroom.
      assert (E : visited ++ Some v0 :: todo = (visited ++ [Some v0]) ++ todo)
        by (by rewrite <- app_assoc).
      rewrite E in Hseen, Hroom |- *.
      replace (S (length visited)) with (length (visited ++ [Some v0]))
        by (rewrite length_app; simpl; lia).
      rewrite (IH (visited ++ [Some v0]) k Hseen)
        by (apply le_S_n in Hroom; exact Hroom).
      by rewrite <- app_assoc.
    + rewrite placed_none in Hroom. cbn [length] in Hroom.
      pose proof (placed_length todo) as Hle.
      destruct (filter (fun v => v ∉ placed (visited ++ None :: todo)) parent2)
        as [|a avail] eqn:Havail; [cbn [length] in Hroom; lia|].
      destruct (scan_finds_head _ k a avail Havail Hseen)
        as (k' & Hrun & Hk' & Hseen').
      rewrite Hrun. cbn [rbind]. rewrite (at_pos_run _ _ _ Hk'). cbn [rbind].
      rewrite set_pos_run by (rewrite length_app; simpl; lia). cbn [rbind].
      assert (Hplaced : placed (<[length visited := Some a]> (visited ++ None :: todo))
                        ≡ₚ a :: placed (visited ++ None :: todo)).
      { apply placed_insert. by apply list_lookup_middle. }
      rewrite insert_app_r_alt, Nat.sub_diag in Hplaced |- * by lia.
      cbn [insert list_insert] in Hplaced |- *.
      pose proof (avail_step _ _ _ _ Hplaced Havail) as Hnext.
      assert (E : visited ++ Some a :: todo = (visited ++ [Some a]) ++ todo)
        by (by rewrite <- app_assoc).
      rewrite E in Hplaced, Hnext |- *.
      replace (S (length visited)) with (length (visited ++ [Some a]))
        by (rewrite length_app; simpl; lia).
      rewrite (IH (visited ++ [Some a]) k').
      * rewrite Hnext, <- app_assoc. done.
      * intros j w Hj Hw. rewrite Hplaced. right. by apply (Hseen' j).
      * rewrite Hnext. cbn [length] in Hroom. lia.
Qed.

End Fill.

Lemma fill_slots_set (l : list Z) (rest : list (option Z)) (avail : list Z) :
  fill_slots (map Some l ++ rest) avail = map Some l ++ fill_slots rest avail.
Proof. induction l as [|v l IH]; [done|]. simpl. by rewrite IH. Qed.

Lemma fill_slots_unset (m : nat) (rest : list (option Z)) (avail : list Z) :
  (m <= length avail)%nat ->
  fill_slots (replicate m None ++ rest) avail
  = map Some (take m avail) ++ fill_slots rest (drop m avail).
Proof.
  revert avail. induction m as [|m IH]; intros avail Hm; [by rewrite drop_0|].
  destruct avail as [|a avail]; [simpl in Hm; lia|].
  simpl. rewrite IH by (simpl in Hm; lia). done.
Qed.

Lemma fill_slots_all_unset (avail : list Z) :
  fill_slots (replicate (length avail) None) avail = map Some avail.
Proof.
  rewrite <- (app_nil_r (replicate _ _)), fill_slots_unset by done.
  by rewrite firstn_all, drop_all, app_nil_r.
Qed.

(** Leaving out the values of a duplicate-free part of a duplicate-free list
    shortens it by the length of the part. *)
Lemma length_filter_complement (l part : list Z) :
  NoDup l -> NoDup part -> (forall x, x ∈ part -> x ∈ l) ->
  (length (filter (fun v => v ∉ part) l) + length part)%nat = length l.
Proof.
  intros Hl Hpart Hsub.
  rewrite <- (Permutation_length (filter_app_complement (fun v => v ∈ part) l)).
  rewrite length_app.
  assert (Hin : filter (fun v => v ∈ part) l ≡ₚ part).
  { apply list.NoDup_Permutation; [by apply NoDup_filter|done|].
    intros x. rewrite list_elem_of_filter.
    split; [by intros [? ?]|]. intros Hx. split; [done|by apply Hsub]. }
  rewrite (Permutation_length Hin). lia.
Qed.

Lemma breed_run_ox1 (parent1 parent2 : list Z) (s : state) :
  NoDup parent1 -> parent1 ≡ₚ parent2 ->
  breed parent1 parent2 s
  = Ok (ox1 (index_of_word (length parent1) (tape s (cursor s))
             `min` index_of_word (length parent1) (tape s (S (cursor s))))
            (index_of_word (length parent1) (tape s (cursor s))
             `max` index_of_word (length parent1) (tape s (S (cursor s))))
            parent1 parent2,
        advance (advance s)).
Proof.
  intros Hnd1 Hperm.
  assert (Hnd2 : NoDup parent2) by (by rewrite <- Hperm).
  pose proof (Permutation_length Hperm) as Hlen.
  unfold breed.
  rewrite (bind_run _ _ _ _ _ (random_index_word (length parent1) s)).
  rewrite (bind_run _ _ _ _ _ (random_index_word (length parent1) (advance s))).
  cbn [tape cursor advance].
  destruct (random_index_run (length parent1) s) as (a & Ha & Hale & _).
  destruct (random_index_run (length parent1) (advance s)) as (b & Hb & Hble & _).
  rewrite random_index_word in Ha, Hb. cbn [tape cursor advance] in Hb.
  injection Ha as Ha. injection Hb as Hb. rewrite Ha, Hb. clear Ha Hb.
  assert (Hcut : (if (b <? a)%nat then (b, a) else (a, b))
                 = (a `min` b, a `max` b)%nat).
  { destruct (Nat.ltb_spec b a); f_equal; lia. }
  rewrite Hcut.
  set (start := (a `min` b)%nat). set (end_ := (a `max` b)%nat).
  assert (Hbounds : (start <= end_ <= length parent1)%nat) by lia.
  rewrite (bind_run _ _ _ _ _
             (lift_run _ _ _ (copy_loop_exact parent1 (end_ - start) start
                                (replicate (length parent1) None)
                                ltac:(lia) ltac:(by rewrite length_replicate)))).
  rewrite take_replicate, drop_replicate.
  replace (start `min` length parent1)%nat with start by lia.
  replace (length parent1 - (start + (end_ - start)))%nat
    with (length parent1 - end_)%nat by lia.
  set (segment := take (end_ - start) (drop start parent1)).
  set (child := replicate start None ++ map Some segment
                ++ replicate (length parent1 - end_) None).
  assert (Hplaced : placed child = segment).
  { unfold child. rewrite !placed_app, !placed_replicate, placed_map_Some.
    by rewrite app_nil_r. }
  assert (Hseg_len : length segment = (end_ - start)%nat).
  { unfold segment. rewrite length_take, length_drop. lia. }
  assert (Hchild_len : length child = length parent1).
  { unfold child. rewrite !length_app, !length_replicate, length_map. lia. }
  assert (Hothers : (length (filter (fun v => v ∉ segment) parent2)
                     + length segment)%nat = length parent2).
  { apply length_filter_complement; [done| |].
    - apply (sublist_NoDup _ parent1); [done|].
      etrans; [apply sublist_take|apply sublist_drop].
    - intros x Hx. rewrite <- Hperm.
      eapply elem_of_sublist; [exact Hx|].
      etrans; [apply sublist_take|apply sublist_drop]. }
  pose proof (fill_loop_exact parent2 Hnd2 child [] 0%nat) as Hfill.
  cbn [app length] in Hfill. rewrite Hplaced in Hfill.
  rewrite (bind_run _ _ _ _ _ (lift_run _ _ _ (Hfill ltac:(intros; lia)
                                                  ltac:(lia)))).
  unfold child.
  rewrite fill_slots_unset, fill_slots_set by lia.
  replace (length parent1 - end_)%nat
    with (length (drop start (filter (fun v => v ∉ segment) parent2)))
    by (rewrite length_drop; lia).
  rewrite fill_slots_all_unset, <- !map_app, as_route_map_Some.
  reflexivity.
Qed.

(** X10: [breed] is ordered crossover: with the two positions its two draws give
    as cut points, in either order, the child keeps [parent1] between the
    cuts and holds the other values in the order of [parent2]; it consumes
    exactly two words of the generator. *)
Theorem breed_is_ordered_crossover (parent1 parent2 : list Z) (s : state) :
  NoDup parent1 -> parent1 ≡ₚ parent2 ->
  breed parent1 parent2 s
  = Ok (ox1 (index_of_word (length parent1) (tape s (cursor s))
             `min` index_of_word (length parent1) (tape s (S (cursor s))))
            (index_of_word (length parent1) (tape s (cursor s))
             `max` index_of_word (length parent1) (tape s (S (cursor s))))
            parent1 parent2,
        advance (advance s)).
Proof. apply breed_run_ox1. Qed.

Example ox1_middle_cut :
  ox1 1 3 [0; 1; 2; 3; 4] [4; 3; 2; 1; 0] = [4; 1; 2; 3; 0].
Proof. reflexivity. Qed.

Lemma segment_split (l : list Z) (start end_ : nat) :
  (start <= end_)%nat ->
  l = take start l ++ take (end_ - start) (drop start l) ++ drop end_ l.
Proof.
  intros Hle.
  rewrite <- (take_drop start l) at 1. f_equal.
  rewrite <- (take_drop (end_ - start) (drop start l)) at 1. f_equal.
  rewrite drop_drop. f_equal. lia.
Qed.

Lemma filter_out_segment (l : list Z) (start end_ : nat) :
  NoDup l -> (start <= end_)%nat ->
  filter (fun v => v ∉ take (end_ - start) (drop start l)) l
  = take start l ++ drop end_ l.
Proof.
  intros Hnd Hle.
  set (segment := take (end_ - start) (drop start l)).
  pose proof (segment_split l start end_ Hle) as Hsplit. fold segment in Hsplit.
  rewrite Hsplit in Hnd.
  apply NoDup_app in Hnd as (_ & Hfront & Hnd).
  apply NoDup_app in Hnd as (_ & Hback & _).
  rewrite Hsplit at 1. rewrite !filter_app.
  rewrite (filter_all _ (take start l)), (filter_none _ segment),
    (filter_all _ (drop end_ l)); [done| | |].
  - intros x Hx Hseg. by apply (Hback x).
  - intros x Hx Hnot. done.
  - intros x Hx Hseg. apply (Hfront x Hx). apply elem_of_app. by left.
Qed.

Lemma ox1_same_parent (p : list Z) (start end_ : nat) :
  NoDup p -> (start <= end_ <= length p)%nat -> ox1 start end_ p p = p.
Proof.
  intros Hnd Hle. unfold ox1. cbv zeta.
  rewrite filter_out_segment by (done || lia).
  rewrite take_app_length', drop_app_length' by (rewrite length_take; lia).
  symmetry. apply segment_split. lia.
Qed.

Lemma index_of_word_bound (n : nat) (w : N) : (index_of_word n w <= n)%nat.
Proof.
  pose (s := mkState (fun _ => w) 0 []).
  destruct (random_index_run n s) as (k & Hk & Hle & _).
  rewrite random_index_word in Hk. injection Hk as <-. exact Hle.
Qed.

(** X11: a route bred with itself comes back unchanged, whatever the cut points:
    a population of copies of one route breeds only copies of it. *)
Theorem breed_with_itself (p : list Z) (s : state) :
  NoDup p -> breed p p s = Ok (p, advance (advance s)).
Proof.
  intros Hnd. rewrite breed_run_ox1 by done.
  rewrite ox1_same_parent; [done|done|].
  pose proof (index_of_word_bound (length p) (tape s (cursor s))).
  pose proof (index_of_word_bound (length p) (tape s (S (cursor s)))). lia.
Qed.

(** X12: for a [parent1] without duplicates and a [parent2] that is a
    permutation of it, the child has the values of [parent1] at the positions
    between the two drawn cut points, and when the two cut points coincide it
    is [parent2]. *)
Theorem breed_keeps_segment (parent1 parent2 child : list Z) (s s' : state)
    (start end_ : nat) :
  NoDup parent1 -> parent1 ≡ₚ parent2 ->
  start = (index_of_word (length parent1) (tape s (cursor s))
           `min` index_of_word (length parent1) (tape s (S (cursor s))))%nat ->
  end_ = (index_of_word (length parent1) (tape s (cursor s))
          `max` index_of_word (length parent1) (tape s (S (cursor s))))%nat ->
  breed parent1 parent2 s = Ok (child, s') ->
  (forall i, (start <= i < end_)%nat -> child !! i = parent1 !! i)
  /\ (start = end_ -> child = parent2).
Proof.
  intros Hnd Hperm Hstart Hend Hrun.
  rewrite breed_run_ox1, <- Hstart, <- Hend in Hrun by done.
  injection Hrun as <- _.
  pose proof (index_of_word_bound (length parent1) (tape s (cursor s))).
  pose proof (index_of_word_bound (length parent1) (tape s (S (cursor s)))).
  assert (Hnd2 : NoDup parent2) by (by rewrite <- Hperm).
  set (segment := take (end_ - start) (drop start parent1)).
  assert (Hothers : (length (filter (fun v => v ∉ segment) parent2)
                     + length segment)%nat = length parent2).
  { apply length_filter_complement; [done| |].
    - apply (sublist_NoDup _ parent1); [done|].
      etrans; [apply sublist_take|apply sublist_drop].
    - intros x Hx. rewrite <- Hperm.
      eapply elem_of_sublist; [exact Hx|].
      etrans; [apply sublist_take|apply sublist_drop]. }
  assert (Hseg_len : length segment = (end_ - start)%nat).
  { unfold segment. rewrite length_take, length_drop. lia. }
  pose proof (Permutation_length Hperm) as Hlen.
  split.
  - intros i Hi. unfold ox1. cbv zeta. fold segment.
    rewrite lookup_app_r by (rewrite length_take; lia).
    rewrite length_take.
    replace (start `min` length (filter (fun v => v ∉ segment) parent2))%nat
      with start by lia.
    rewrite lookup_app_l by lia.
    unfold segment. rewrite lookup_take_lt, lookup_drop by lia.
    f_equal. lia.
  - intros Heq. unfold ox1. cbv zeta.
    replace (end_ - start)%nat with 0%nat by lia. rewrite take_0.
    rewrite filter_all by (intros x _; apply not_elem_of_nil).
    cbn [app]. apply take_drop.
Qed.

(** * Mutation and initialisation, by the draws *)

Lemma advance_by_S (k : nat) (s : state) :
  advance_by (S k) s = advance_by k (advance s).
Proof. unfold advance_by, advance. simpl. f_equal. lia. Qed.

Lemma advance_by_0 (s : state) : advance_by 0 s = s.
Proof. by destruct s. Qed.

Lemma random_random_word (s : state) :
  random_random s
  = Ok (Z.of_N (tape s (cursor s) mod random_bits)%N # Pos.pow 2 53, advance s).
Proof. reflexivity. Qed.

Lemma mutate_loop_unchanged (mutation_rate : Q) (positions : list nat) :
  (mutation_rate <= 0)%Q ->
  forall (route_ : list Z) (s : state),
  mutate_loop positions route_ mutation_rate s
  = Ok (route_, advance_by (length positions) s).
Proof.
  intros Hrate. induction positions as [|i rest IH]; intros route_ s.
  - simpl. by rewrite advance_by_0.
  - cbn [mutate_loop length]. rewrite advance_by_S.
    destruct (random_random_run s) as (u & Hu & H0 & _).
    rewrite (bind_run _ _ _ _ _ Hu).
    assert (Hno : Qltb u mutation_rate = false) by (apply Qltb_ge; lra).
    rewrite Hno. apply IH.
Qed.

(** X14: with a mutation rate of zero, or below, [mutate] returns the route as it
    was, after one draw per position. *)
Theorem mutate_rate_zero (route_ : list Z) (mutation_rate : Q) (s : state) :
  (mutation_rate <= 0)%Q ->
  mutate route_ mutation_rate s = Ok (route_, advance_by (length route_) s).
Proof.
  intros Hrate. unfold mutate.
  rewrite mutate_loop_unchanged by done. by rewrite length_seq.
Qed.

Lemma later_draw_refl (s : state) : later_draw s s.
Proof. by unfold later_draw. Qed.

Lemma later_draw_trans (s1 s2 s3 : state) :
  later_draw s1 s2 -> later_draw s2 s3 -> later_draw s1 s3.
Proof.
  unfold later_draw. intros (? & ? & ?) (? & ? & ?).
  split; [congruence|]. split; [congruence|lia].
Qed.

Lemma later_draw_advance (s : state) : later_draw s (advance s).
Proof. unfold later_draw, advance. simpl. repeat split; lia. Qed.

(** Any list goes through [mutate]: the result is a reordering of it, the
    log is untouched, and each position costs one draw or two. *)
Lemma mutate_loop_state (mutation_rate : Q) (positions : list nat) :
  forall (route_ route' : list Z) (s s' : state),
  mutate_loop positions route_ mutation_rate s = Ok (route', s') ->
  later_draw s s'
  /\ (cursor s + length positions <= cursor s'
      <= cursor s + 2 * length positions)%nat.
Proof.
  induction positions as [|i rest IH]; intros route_ route' s s' Hrun.
  - injection Hrun as _ <-. split; [apply later_draw_refl|simpl; lia].
  - cbn [mutate_loop] in Hrun.
    apply bind_inv in Hrun as (u & s0 & Hu & Hrun).
    rewrite random_random_word in Hu. injection Hu as _ <-.
    destruct (Qltb u mutation_rate).
    + apply bind_inv in Hrun as (j & s0 & Hj & Hrun).
      rewrite random_index_word in Hj. injection Hj as _ <-.
      apply bind_inv in Hrun as (r1 & s1 & Hswap & Hrun).
      apply lift_inv in Hswap as [_ ->].
      apply IH in Hrun as [Hlater Hcur]. split.
      * eapply later_draw_trans; [apply later_draw_advance|].
        eapply later_draw_trans; [apply later_draw_advance|done].
      * cbn [advance cursor length] in *. lia.
    + apply IH in Hrun as [Hlater Hcur]. split.
      * eapply later_draw_trans; [apply later_draw_advance|done].
      * cbn [advance cursor length] in *. lia.
Qed.

(** X15: [mutate] accepts every list, route or not: it returns a reordering of
    it, logs nothing, and consumes one or two words of the generator per
    position. *)
Theorem mutate_reorders (route_ : list Z) (mutation_rate : Q) (s : state) :
  exists route' s',
    mutate route_ mutation_rate s = Ok (route', s')
    /\ route' ≡ₚ route_
    /\ tape s' = tape s /\ trace s' = trace s
    /\ (cursor s + length route_ <= cursor s'
        <= cursor s + 2 * length route_)%nat.
Proof.
  destruct (mutate_run route_ mutation_rate s) as (r' & s' & Hrun & Hp).
  exists r', s'. split; [done|]. split; [done|].
  apply mutate_loop_state in Hrun as [(Ht & Hl & _) Hcur].
  rewrite length_seq in Hcur. done.
Qed.

Lemma shuffle_from_state {A} (i : nat) :
  forall (x x' : list A) (s s' : state),
  shuffle_from i x s = Ok (x', s') -> s' = advance_by i s.
Proof.
  induction i as [|i IH]; intros x x' s s' Hrun.
  - injection Hrun as _ <-. by rewrite advance_by_0.
  - cbn [shuffle_from] in Hrun.
    apply bind_inv in Hrun as (j & s1 & Hj & Hrun).
    injection Hj as _ <-.
    apply bind_inv in Hrun as (x1 & s2 & Hswap & Hrun).
    apply lift_inv in Hswap as [_ ->].
    apply IH in Hrun. by rewrite advance_by_S.
Qed.

Lemma advance_by_add (j k : nat) (s : state) :
  advance_by j (advance_by k s) = advance_by (j + k) s.
Proof. unfold advance_by. simpl. f_equal. lia. Qed.

Lemma init_loop_state (n k : nat) :
  forall (indices : list Z) (population population' : list (list Z))
         (s s' : state),
  length indices = n ->
  init_loop k indices population s = Ok (population', s') ->
  s' = advance_by (k * (n - 1)) s.
Proof.
  induction k as [|k IH]; intros indices population population' s s' Hlen Hrun.
  - injection Hrun as _ <-. by rewrite advance_by_0.
  - cbn [init_loop] in Hrun.
    apply bind_inv in Hrun as (x' & s1 & Hshuffle & Hrun).
    destruct (random_shuffle_run indices s) as (y & s2 & Hy & Hp).
    rewrite Hy in Hshuffle. injection Hshuffle as <- <-.
    apply shuffle_from_state in Hy. rewrite Hlen in Hy.
    apply IH in Hrun; [|by rewrite (Permutation_length Hp)].
    rewrite Hrun, Hy, advance_by_add. f_equal. lia.
Qed.

(** X16: [create_initial_population] returns [pop_size] routes, none for a
    negative [pop_size], each a permutation of the city indices, and has
    drawn [n_cities - 1] words per route, none when there is one city or
    none. *)
Theorem initial_population_shape (pop_size : Z) (n_cities : nat) (s : state) :
  exists pop,
    create_initial_population pop_size n_cities s
    = Ok (pop, advance_by (Z.to_nat pop_size * (n_cities - 1)) s)
    /\ length pop = Z.to_nat pop_size
    /\ Forall (fun r => r ≡ₚ range n_cities) pop.
Proof.
  destruct (create_initial_population_run pop_size n_cities s)
    as (pop & s' & Hrun & Hall & Hlen).
  exists pop. split; [|done].
  rewrite Hrun. do 2 f_equal.
  unfold create_initial_population in Hrun.
  apply (init_loop_state n_cities) in Hrun; [done|apply length_range].
Qed.

(** * Selection, by the log *)

Lemma breed_state (parent1 parent2 child : list Z) (s s' : state) :
  breed parent1 parent2 s = Ok (child, s') -> s' = advance (advance s).
Proof.
  unfold breed. intros Hrun.
  apply bind_inv in Hrun as (a & s1 & Ha & Hrun).
  rewrite random_index_word in Ha. injection Ha as _ <-.
  apply bind_inv in Hrun as (b & s2 & Hb & Hrun).
  rewrite random_index_word in Hb. injection Hb as _ <-.
  destruct (if (b <? a)%nat then (b, a) else (a, b)) as [start end_].
  apply bind_inv in Hrun as (c1 & s3 & Hc1 & Hrun).
  apply lift_inv in Hc1 as [_ ->].
  apply bind_inv in Hrun as (c2 & s4 & Hc2 & Hrun).
  apply lift_inv in Hc2 as [_ ->].
  by apply lift_inv in Hrun as [_ ->].
Qed.

Lemma random_choice_inv {A} (l : list A) (a : A) (s s' : state) :
  random_choice l s = Ok (a, s') ->
  exists i, l !! i = Some a
            /\ s' = mkState (tape s) (S (cursor s)) (EvChoice i :: trace s).
Proof.
  unfold random_choice. destruct l as [|x l]; [done|].
  intros Hrun. apply bind_inv in Hrun as (i & s1 & Hi & Hrun).
  injection Hi as <- <-.
  destruct (_ !! _) as [b|] eqn:Hb; [|done].
  injection Hrun as <- <-. eauto.
Qed.

Lemma breeding_loop_trace (scored_pop : list (R * list Z)) (pop_size : Z)
    (mutation_rate : Q) (fuel : nat) :
  forall (new_pop out : list (list Z)) (s s' : state),
  breeding_loop fuel scored_pop pop_size mutation_rate new_pop s = Ok (out, s') ->
  exists evs,
    trace s' = evs ++ trace s
    /\ Forall (choice_below (POOL `min` length scored_pop)) evs
    /\ length evs = (2 * (length out - length new_pop))%nat.
Proof.
  induction fuel as [|fuel IH]; intros new_pop out s s' Hrun;
    rewrite breeding_loop_unfold in Hrun;
    destruct (Z.ltb_spec (Z.of_nat (length new_pop)) pop_size) as [Hlt|Hge];
    try done.
  - injection Hrun as <- <-. exists []. split; [done|]. split; [done|simpl; lia].
  - apply bind_inv in Hrun as (p1 & s1 & Hp1 & Hrun).
    apply random_choice_inv in Hp1 as (i1 & Hi1 & ->).
    apply bind_inv in Hrun as (p2 & s2 & Hp2 & Hrun).
    apply random_choice_inv in Hp2 as (i2 & Hi2 & ->).
    cbn [tape cursor trace] in Hrun.
    apply bind_inv in Hrun as (c & s3 & Hc & Hrun).
    apply breed_state in Hc as ->.
    apply bind_inv in Hrun as (c' & s4 & Hc' & Hrun).
    apply mutate_loop_state in Hc' as [(_ & Htrace & _) _].
    destruct (breeding_loop_inv _ _ _ _ _ _ _ _ Hrun) as (ch & Hout & _).
    apply IH in Hrun as (evs & Hevs & Hall & Hlen).
    rewrite Htrace in Hevs. cbn [advance trace] in Hevs.
    exists (evs ++ [EvChoice i2; EvChoice i1]).
    split; [by rewrite <- app_assoc|]. split.
    + apply Forall_app. split; [done|].
      apply lookup_lt_Some in Hi1, Hi2. rewrite length_take in Hi1, Hi2.
      repeat constructor; eexists; (split; [reflexivity|lia]).
    + rewrite length_app, Hlen, length_app. simpl.
      rewrite Hout, !length_app. simpl. lia.
  - injection Hrun as <- <-. exists []. split; [done|]. split; [done|simpl; lia].
Qed.

(** X17: what one generation logs, newest first: the choices of the parents, two
    for each child, every one at an index below 50 and below the size of the
    population; before them one fitness evaluation for each route of the
    population, in order.  The pool of the parents is the first 50 ranked
    routes, whatever [pop_size] is. *)
Theorem generation_step_log (cities : list Point) (obstacles : list Obstacle)
    (pop_size : Z) (mutation_rate : Q) (pop out : list (list Z))
    (s s' : state) :
  generation_step cities obstacles pop_size mutation_rate pop s = Ok (out, s') ->
  exists choices,
    trace s'
    = choices ++ rev (map EvFitness pop) ++ EvGeneration :: trace s
    /\ Forall (choice_below (50 `min` length pop)) choices
    /\ length choices = (2 * (length out - 10 `min` length pop))%nat.
Proof.
  unfold generation_step. intros Hrun.
  apply bind_inv in Hrun as (u & s1 & Hlog & Hrun).
  assert (Hs1 : s1 = mkState (tape s) (cursor s) (EvGeneration :: trace s))
    by (unfold log in Hlog; congruence).
  subst s1. clear Hlog.
  apply bind_inv in Hrun as (sc & s2 & Hsc & Hrun).
  destruct (score_loop_inv _ _ _ _ _ _ _ Hsc) as (sc' & -> & Hsc').
  rewrite (score_loop_run _ _ _ _ Hsc') in Hsc. injection Hsc as <-.
  cbn [app] in Hrun.
  apply breeding_loop_trace in Hrun as (evs & Hevs & Hall & Hlen).
  rewrite elite_length in Hlen.
  rewrite sort_scored_length in Hall.
  rewrite <- (Forall2_length _ _ _ Hsc') in Hlen, Hall.
  exists evs. cbn [trace] in Hevs. unfold POOL in Hall. unfold ELITE in Hlen.
  done.
Qed.

(** * Whole calls *)

(** One generation on a non-empty population of routes returns a population
    of routes whose first route is a cheapest route of the population it was
    given. *)
Lemma generation_step_best (cities : list Point) (obstacles : list Obstacle)
    (pop_size : Z) (mutation_rate : Q) (pop : list (list Z)) (s : state) :
  pop <> [] ->
  Forall (is_route (length cities)) pop ->
  exists best rest s' c,
    generation_step cities obstacles pop_size mutation_rate pop s
    = Ok (best :: rest, s')
    /\ Forall (is_route (length cities)) (best :: rest)
    /\ best ∈ pop
    /\ get_route_distance best cities obstacles = Ok c
    /\ (forall r c', r ∈ pop -> get_route_distance r cities obstacles = Ok c' ->
                     (c <= c')%R).
Proof.
  intros Hne Hpop.
  destruct (generation_step_run cities obstacles pop_size mutation_rate pop s
              Hne Hpop) as (sc & children & s' & Hsc & Hrun & Hchildren).
  pose proof (Forall2_length _ _ _ Hsc) as Hlen.
  destruct (sort_scored sc) as [|best ranked] eqn:Hsorted.
  { apply (f_equal length) in Hsorted. rewrite sort_scored_length in Hsorted.
    destruct pop; [done|]. simpl in *. lia. }
  assert (Hbest : best ∈ sc).
  { rewrite <- (sort_scored_perm sc), Hsorted. left. }
  destruct (scored_of_elem _ _ _ _ _ Hsc Hbest) as [Hbest_pop Hbest_cost].
  cbn [ELITE take map app] in Hrun.
  exists (snd best), (map snd (take 9 ranked) ++ children), s', (fst best).
  split; [exact Hrun|]. split; [|split; [done|split; [done|]]].
  - constructor; [by apply (proj1 (Forall_forall _ _) Hpop)|].
    apply Forall_app. split; [|done].
    apply Forall_forall. intros r [x [-> Hx]]%list_elem_of_fmap.
    assert (Hx' : x ∈ best :: ranked).
    { right. eapply elem_of_sublist; [exact Hx|apply sublist_take]. }
    rewrite <- Hsorted, sort_scored_perm in Hx'.
    destruct (scored_of_elem _ _ _ _ _ Hsc Hx') as [Hin _].
    by apply (proj1 (Forall_forall _ _) Hpop).
  - intros r c' Hr Hc'.
    apply list_elem_of_lookup in Hr as [i Hi].
    destruct (Forall2_lookup_l _ _ _ _ _ Hsc Hi) as (x & Hx & Hcx & _).
    rewrite Hc' in Hcx. injection Hcx as ->.
    apply (sort_scored_head sc best ranked Hsorted).
    by eapply list_elem_of_lookup_2.
Qed.

(** The evolution loop on a non-empty population of routes: it returns such
    a population; after at least one generation its first route costs no
    more than any route it started from, and it has [pop_size] routes when
    [pop_size >= 10]. *)
Lemma evolution_loop_run (req : EvolveRequest) (n : nat) :
  forall (pop : list (list Z)) (s : state),
  pop <> [] ->
  Forall (is_route (length (cities req))) pop ->
  exists out s',
    evolution_loop n req pop s = Ok (out, s')
    /\ out <> []
    /\ Forall (is_route (length (cities req))) out
    /\ (n = 0%nat -> out = pop)
    /\ ((1 <= n)%nat -> 10 <= pop_size req ->
        Z.of_nat (length out) = pop_size req)
    /\ ((1 <= n)%nat ->
        exists best rest c,
          out = best :: rest
          /\ get_route_distance best (cities req) (obstacles req) = Ok c
          /\ (forall r c', r ∈ pop ->
                get_route_distance r (cities req) (obstacles req) = Ok c' ->
                (c <= c')%R)).
Proof.
  induction n as [|n IH]; intros pop s Hne Hpop.
  - exists pop, s. repeat split; try done; lia.
  - cbn [evolution_loop].
    destruct (generation_step_best (cities req) (obstacles req) (pop_size req)
                (mutation_rate req) pop s Hne Hpop)
      as (best & rest & s1 & c & Hstep & Hout & Hbest & Hc & Hmin).
    rewrite (bind_run _ _ _ _ _ Hstep).
    destruct (IH (best :: rest) s1 ltac:(done) Hout)
      as (out & s' & Hrun & Hne' & Hroutes & Hzero & Hsize & Hhead).
    exists out, s'. split; [done|]. split; [done|]. split; [done|].
    split; [lia|]. split.
    + intros _ Hten. destruct n as [|n].
      * rewrite (Hzero eq_refl).
        apply generation_step_inv in Hstep as (sc & ch & _ & _ & Hlen & _).
        apply Hlen. unfold ELITE. lia.
      * apply Hsize; [lia|done].
    + intros _. destruct n as [|n].
      * rewrite (Hzero eq_refl). by exists best, rest, c.
      * destruct (Hhead ltac:(lia)) as (b' & r' & c' & -> & Hc' & Hmin').
        exists b', r', c'. split; [done|]. split; [done|].
        intros r cr Hr Hcr. etrans; [|by apply (Hmin r cr)].
        apply (Hmin' best c); [left|done].
Qed.

(** The population that the evolution loop starts from. *)
Lemma initial_population_run (req : EvolveRequest) (s : state) :
  Forall (is_route (length (cities req))) (population req) ->
  (population req = [] -> 1 <= pop_size req) ->
  exists pop s',
    (match population req with
     | [] => bind (log EvInit)
               (fun _ => create_initial_population (pop_size req)
                           (length (cities req)))
     | _ => ret (population req)
     end) s = Ok (pop, s')
    /\ pop <> []
    /\ Forall (is_route (length (cities req))) pop
    /\ (population req <> [] -> pop = population req).
Proof.
  intros Hroutes Hsize. destruct (population req) as [|r rest] eqn:Epop.
  - unfold bind at 1. cbn [log].
    destruct (create_initial_population_run (pop_size req)
                (length (cities req))
                (mkState (tape s) (cursor s) (EvInit :: trace s)))
      as (pop & s' & Hrun & Hall & Hlen).
    exists pop, s'. split; [done|]. split; [|split; [done|done]].
    intros ->. simpl in Hlen. specialize (Hsize eq_refl). lia.
  - exists (r :: rest), s. by repeat split.
Qed.

Lemma evolve_run (req : EvolveRequest) (s : state) :
  (2 <= length (cities req))%nat ->
  Forall (is_route (length (cities req))) (population req) ->
  (population req = [] -> 1 <= pop_size req) ->
  exists pop out best rest c s',
    evolve req s = Ok (mkResponse out best c 0, s')
    /\ out = best :: rest
    /\ Forall (is_route (length (cities req))) out
    /\ get_route_distance best (cities req) (obstacles req) = Ok c
    /\ (population req <> [] -> pop = population req)
    /\ (generations_per_step req <= 0 -> out = pop)
    /\ (1 <= generations_per_step req -> 10 <= pop_size req ->
        Z.of_nat (length out) = pop_size req)
    /\ (1 <= generations_per_step req ->
        forall r c', r ∈ pop ->
          get_route_distance r (cities req) (obstacles req) = Ok c' ->
          (c <= c')%R).
Proof.
  intros Hcities Hroutes Hsize. unfold evolve.
  destruct (Nat.ltb_spec (length (cities req)) 2) as [?|_]; [lia|].
  destruct (initial_population_run req s Hroutes Hsize)
    as (pop & s1 & Hinit & Hne & Hpop & Hsame).
  rewrite (bind_run _ _ _ _ _ Hinit).
  destruct (evolution_loop_run req (Z.to_nat (generations_per_step req)) pop s1
              Hne Hpop)
    as (out & s2 & Hloop & Hne' & Hout & Hzero & Hlen & Hhead).
  rewrite (bind_run _ _ _ _ _ Hloop).
  destruct out as [|best rest]; [done|].
  rewrite (bind_run _ _ _ _ _
             (lift_run (at_pos (best :: rest) 0) best s2 eq_refl)).
  unfold bind at 1. cbn [log].
  destruct (fitness_of_route (cities req) (obstacles req) best) as [c Hc].
  { by apply Forall_cons in Hout as [? _]. }
  rewrite (bind_run _ _ _ _ _ (lift_run _ _ _ Hc)).
  exists pop, (best :: rest), best, rest, c. eexists.
  split; [reflexivity|]. split; [done|]. split; [done|]. split; [done|].
  split; [done|]. split; [|split].
  - intros Hgens. apply Hzero. lia.
  - intros Hgens. apply Hlen. lia.
  - intros Hgens r c' Hr Hc'.
    destruct (Hhead ltac:(lia)) as (b & r0 & c0 & [= <- <-] & Hc0 & Hmin).
    rewrite Hc in Hc0. injection Hc0 as <-. by apply (Hmin r c').
Qed.

Lemma get_route_distance_nonneg (route_indices : list Z) (cities : list Point)
    (obstacles : list Obstacle) (c : R) :
  get_route_distance route_indices cities obstacles = Ok c -> (0 <= c)%R.
Proof.
  destruct (route_points_outcome cities route_indices) as [[pts Hpts]|Hbad].
  - rewrite (get_route_distance_at _ _ _ _ Hpts). intros [= <-].
    apply spec_route_cost_nonneg.
  - rewrite get_route_distance_invalid; [done|].
    intros [pts Hpts]%route_points_valid. congruence.
Qed.

(** X19: on a request with at least two cities whose population consists of
    routes over the cities (or is empty, with [pop_size >= 1]), [evolve]
    returns: the population it returns is not empty and consists of routes
    over the cities, the best distance is not negative, and after at least
    one generation with [pop_size >= 10] the population has [pop_size]
    routes. *)
Theorem evolve_returns_routes (req : EvolveRequest) (s : state) :
  (2 <= length (cities req))%nat ->
  Forall (fun r => r ≡ₚ range (length (cities req))) (population req) ->
  (population req = [] -> 1 <= pop_size req) ->
  exists resp s',
    evolve req s = Ok (resp, s')
    /\ r_population resp <> []
    /\ Forall (fun r => r ≡ₚ range (length (cities req))) (r_population resp)
    /\ (0 <= best_distance resp)%R
    /\ (1 <= generations_per_step req -> 10 <= pop_size req ->
        Z.of_nat (length (r_population resp)) = pop_size req).
Proof.
  intros Hcities Hroutes Hsize.
  destruct (evolve_run req s Hcities Hroutes Hsize)
    as (pop & out & best & rest & c & s' & Hrun & -> & Hout & Hc & _ & _
        & Hlen & _).
  eexists _, s'. split; [exact Hrun|]. cbn [r_population best_distance].
  split; [done|]. split; [exact Hout|]. split; [|done].
  by eapply get_route_distance_nonneg.
Qed.

(** X20: after at least one generation the distance that [evolve] reports is at
    most the cost of every route of the population it was given: a call
    never reports a worse tour than the best one supplied. *)
Theorem evolve_never_reports_worse (req : EvolveRequest) (s : state)
    (r : list Z) (c : R) :
  (2 <= length (cities req))%nat ->
  Forall (fun r => r ≡ₚ range (length (cities req))) (population req) ->
  1 <= generations_per_step req ->
  r ∈ population req ->
  get_route_distance r (cities req) (obstacles req) = Ok c ->
  exists resp s',
    evolve req s = Ok (resp, s') /\ (best_distance resp <= c)%R.
Proof.
  intros Hcities Hroutes Hgens Hr Hc.
  assert (Hne : population req <> []) by (intros E; rewrite E in Hr; inversion Hr).
  destruct (evolve_run req s Hcities Hroutes ltac:(done))
    as (pop & out & best & rest & c0 & s' & Hrun & _ & _ & _ & Hsame & _ & _
        & Hmin).
  eexists _, s'. split; [exact Hrun|]. cbn [best_distance].
  apply (Hmin Hgens r c); [|done]. by rewrite (Hsame Hne).
Qed.

Lemma evolution_loop_none (req : EvolveRequest) (n : nat) (s : state) :
  (n = 0)%nat -> forall pop, evolution_loop n req pop s = Ok (pop, s).
Proof. by intros ->. Qed.

(** X21: without generations ([generations_per_step <= 0]) [evolve] hands the
    population back as it came, reports its first route with the cost of that
    route, evaluates no other route and draws nothing; the other routes need
    not even be routes. *)
Theorem evolve_without_generations (req : EvolveRequest) (s : state)
    (first : list Z) (others : list (list Z)) (c : R) :
  (2 <= length (cities req))%nat ->
  generations_per_step req <= 0 ->
  population req = first :: others ->
  get_route_distance first (cities req) (obstacles req) = Ok c ->
  evolve req s
  = Ok (mkResponse (first :: others) first c 0,
        mkState (tape s) (cursor s) (EvFitness first :: trace s)).
Proof.
  intros Hcities Hgens Hpop Hc. unfold evolve.
  destruct (Nat.ltb_spec (length (cities req)) 2) as [?|_]; [lia|].
  rewrite Hpop. unfold bind at 1. cbn [ret].
  rewrite (bind_run _ _ _ _ _
             (evolution_loop_none req (Z.to_nat (generations_per_step req)) s
                ltac:(lia) (first :: others))).
  rewrite (bind_run _ _ _ _ _
             (lift_run (at_pos (first :: others) 0) first s eq_refl)).
  unfold bind at 1. cbn [log].
  by rewrite (bind_run _ _ _ _ _ (lift_run _ _ _ Hc)).
Qed.

Lemma generation_step_nothing (cities : list Point) (obstacles : list Obstacle)
    (pop_size : Z) (mutation_rate : Q) (s : state) :
  pop_size <= 0 ->
  generation_step cities obstacles pop_size mutation_rate [] s
  = Ok ([], mkState (tape s) (cursor s) (EvGeneration :: trace s)).
Proof.
  intros Hsize. unfold generation_step, bind. cbn [log score_loop ret].
  cbn [sort_scored]. rewrite breeding_loop_unfold.
  change (length (map snd (take ELITE (@nil (R * list Z))))) with 0%nat.
  by destruct (Z.ltb_spec (Z.of_nat 0) pop_size) as [?|_]; [lia|].
Qed.

Lemma evolution_loop_nothing (req : EvolveRequest) (n : nat) :
  pop_size req <= 0 ->
  forall s, exists s', evolution_loop n req [] s = Ok ([], s').
Proof.
  intros Hsize. induction n as [|n IH]; intros s; [by exists s|].
  cbn [evolution_loop].
  rewrite (bind_run _ _ _ _ _ (generation_step_nothing _ _ _ _ s Hsize)).
  apply IH.
Qed.

(** X22: with at least two cities, no population and [pop_size <= 0] there is no
    route to report: [evolve] raises [IndexError] at [current_pop[0]],
    whatever the number of generations. *)
Theorem evolve_without_population (req : EvolveRequest) (s : state) :
  (2 <= length (cities req))%nat ->
  population req = [] ->
  pop_size req <= 0 ->
  evolve req s = Raise IndexError.
Proof.
  intros Hcities Hpop Hsize. unfold evolve.
  destruct (Nat.ltb_spec (length (cities req)) 2) as [?|_]; [lia|].
  rewrite Hpop. unfold bind at 1. unfold bind at 1. cbn [log].
  unfold create_initial_population.
  replace (Z.to_nat (pop_size req)) with 0%nat by lia. cbn [init_loop ret].
  destruct (evolution_loop_nothing req (Z.to_nat (generations_per_step req))
              Hsize (mkState (tape s) (cursor s) (EvInit :: trace s)))
    as [s' Hloop].
  by rewrite (bind_run _ _ _ _ _ Hloop).
Qed.

(** * Elitism, exactly *)

Lemma sorted_app_le {A} (R : A -> A -> Prop) (l1 l2 : list A) (x1 x2 : A) :
  StronglySorted R (l1 ++ l2) -> x1 ∈ l1 -> x2 ∈ l2 -> R x1 x2.
Proof.
  induction l1 as [|y l1 IH]; intros Hs H1 H2; [by apply elem_of_nil in H1|].
  simpl in Hs. apply StronglySorted_inv in Hs as [Hs Hall].
  apply elem_of_cons in H1 as [->|H1]; [|by apply IH].
  rewrite Forall_forall in Hall. apply Hall, elem_of_app. by right.
Qed.

(** X18: what one generation keeps: the population it returns starts with the
    [min(10, len)] cheapest routes of the population it was given, unchanged,
    each at most as costly as every route it drops; the children follow, and
    there are none when [pop_size] is at most that number. *)
Theorem generation_step_elite (cities : list Point) (obstacles : list Obstacle)
    (pop_size : Z) (mutation_rate : Q) (pop out : list (list Z))
    (s s' : state) :
  generation_step cities obstacles pop_size mutation_rate pop s = Ok (out, s') ->
  exists elite dropped children,
    out = elite ++ children
    /\ elite ++ dropped ≡ₚ pop
    /\ length elite = (10 `min` length pop)%nat
    /\ (forall e d ce cd, e ∈ elite -> d ∈ dropped ->
          get_route_distance e cities obstacles = Ok ce ->
          get_route_distance d cities obstacles = Ok cd ->
          (ce <= cd)%R)
    /\ (pop_size <= Z.of_nat (10 `min` length pop) -> children = []).
Proof.
  intros Hrun.
  apply generation_step_inv in Hrun as (sc & children & Hsc & -> & _ & Hnil).
  exists (map snd (take ELITE (sort_scored sc))),
         (map snd (drop ELITE (sort_scored sc))), children.
  split; [done|]. split; [|split; [|split; [|done]]].
  - rewrite <- map_app, take_drop, sort_scored_perm.
    by rewrite (scored_of_snd _ _ _ _ Hsc).
  - by rewrite elite_length, (Forall2_length _ _ _ Hsc).
  - intros e d ce cd [x [-> Hx]]%list_elem_of_fmap
      [y [-> Hy]]%list_elem_of_fmap Hce Hcd.
    pose proof (sort_scored_sorted sc) as Hsorted.
    rewrite <- (take_drop ELITE (sort_scored sc)) in Hsorted.
    pose proof (sorted_app_le _ _ _ _ _ Hsorted Hx Hy) as Hle.
    assert (Hx' : x ∈ sc).
    { rewrite <- (sort_scored_perm sc).
      eapply elem_of_sublist; [exact Hx|apply sublist_take]. }
    assert (Hy' : y ∈ sc).
    { rewrite <- (sort_scored_perm sc).
      eapply elem_of_sublist; [exact Hy|apply sublist_drop]. }
    destruct (scored_of_elem _ _ _ _ _ Hsc Hx') as [_ Hcx].
    destruct (scored_of_elem _ _ _ _ _ Hsc Hy') as [_ Hcy].
    unfold score_le in Hle. congruence.
Qed.

(** X13: [breed] returns a list of integers or raises [IndexError], on any two
    lists: a slot that the copy loop left unset is always filled, so no
    [None] leaves [breed], and the scan stops at the end of [parent2] at the
    latest. *)
Theorem breed_leaves_no_slot_unset (parent1 parent2 : list Z) (s : state) :
  (exists child,
      breed parent1 parent2 s = Ok (child, advance (advance s))
      /\ length child = length parent1)
  \/ breed parent1 parent2 s = Raise IndexError.
Proof.
  destruct (breed parent1 parent2 s) as [[child s']|e] eqn:Hrun.
  - left. exists child. pose proof (breed_state _ _ _ _ _ Hrun) as ->.
    split; [done|].
    unfold breed in Hrun.
    apply bind_inv in Hrun as (a & s1 & _ & Hrun).
    apply bind_inv in Hrun as (b & s2 & _ & Hrun).
    destruct (if (b <? a)%nat then (b, a) else (a, b)) as [start end_].
    apply bind_inv in Hrun as (c1 & s3 & Hc1 & Hrun).
    apply lift_inv in Hc1 as [Hc1 _].
    apply bind_inv in Hrun as (c2 & s4 & Hc2 & Hrun).
    apply lift_inv in Hc2 as [Hc2 _].
    apply lift_inv in Hrun as [Hrun _].
    apply copy_loop_length in Hc1. rewrite length_replicate in Hc1.
    apply fill_loop_filled in Hc2 as [Hfilled Hlen]; [|intros j Hj; lia].
    destruct (as_route_filled c2) as [Hroute Hlen'].
    { intros i Hi. apply Hfilled; [simpl; lia|done]. }
    rewrite Hroute in Hrun. injection Hrun as <-. lia.
  - right. by rewrite (breed_error _ _ _ _ Hrun).
Qed.

(** * The further theorems at concrete inputs *)

Lemma short_route_costs_nothing_witness :
  get_route_distance [-1] line_cities [mkObstacle 3 0 1] = Ok 0%R.
Proof.
  apply (short_route_costs_nothing [-1] line_cities [mkObstacle 3 0 1]).
  - simpl. lia.
  - repeat constructor; simpl; lia.
Defined.

Lemma obstacle_adds_its_penalties_witness :
  get_route_distance [0; 2; 1; 3] line_cities [mkObstacle 1 0 (1 # 2)]
  = Ok (8 + 10000
            * INR (edges_hit [mkPoint 0 0; mkPoint 2 0; mkPoint 1 0; mkPoint 3 0]
                     (mkObstacle 1 0 (1 # 2))))%R
  /\ (edges_hit [mkPoint 0 0; mkPoint 2 0; mkPoint 1 0; mkPoint 3 0]
        (mkObstacle 1 0 (1 # 2)) <= 4)%nat.
Proof.
  apply (obstacle_adds_its_penalties [0; 2; 1; 3] line_cities []
           (mkObstacle 1 0 (1 # 2))
           [mkPoint 0 0; mkPoint 2 0; mkPoint 1 0; mkPoint 3 0] 8%R).
  - reflexivity.
  - exact line_cost_detour.
Defined.

Lemma detour_NoDup : NoDup [0; 2; 1; 3].
Proof. exact (is_route_NoDup 4 _ detour_is_route). Qed.

Lemma detour_reversed : [0; 2; 1; 3] ≡ₚ [3; 2; 1; 0].
Proof. rewrite detour_is_route. symmetry. exact reversed_is_route. Qed.

Lemma breed_is_ordered_crossover_witness :
  breed [0; 2; 1; 3] [3; 2; 1; 0] (fresh [half_word; 1%N])
  = Ok (ox1 (index_of_word 4 half_word `min` index_of_word 4 1)
            (index_of_word 4 half_word `max` index_of_word 4 1)
            [0; 2; 1; 3] [3; 2; 1; 0],
        advance (advance (fresh [half_word; 1%N]))).
Proof.
  apply (breed_is_ordered_crossover [0; 2; 1; 3] [3; 2; 1; 0]
           (fresh [half_word; 1%N])).
  - exact detour_NoDup.
  - exact detour_reversed.
Defined.

Lemma breed_with_itself_witness :
  breed [0; 2; 1; 3] [0; 2; 1; 3] (fresh [half_word; three_quarters_word])
  = Ok ([0; 2; 1; 3], advance (advance (fresh [half_word; three_quarters_word]))).
Proof.
  apply (breed_with_itself [0; 2; 1; 3] (fresh [half_word; three_quarters_word])).
  exact detour_NoDup.
Defined.

Lemma breed_keeps_segment_witness :
  (forall i, (0 <= i < 2)%nat -> [0; 2; 3; 1] !! i = [0; 2; 1; 3] !! i)
  /\ (0%nat = 2%nat -> [0; 2; 3; 1] = [3; 2; 1; 0]).
Proof.
  apply (breed_keeps_segment [0; 2; 1; 3] [3; 2; 1; 0] [0; 2; 3; 1]
           (fresh [half_word; 1%N]) (advance (advance (fresh [half_word; 1%N])))
           0 2).
  - exact detour_NoDup.
  - exact detour_reversed.
  - reflexivity.
  - reflexivity.
  - reflexivity.
Defined.

Lemma mutate_rate_zero_witness :
  mutate [0; 2; 1; 3] 0 (fresh [0%N])
  = Ok ([0; 2; 1; 3], advance_by 4 (fresh [0%N])).
Proof.
  apply (mutate_rate_zero [0; 2; 1; 3] 0 (fresh [0%N])). apply Qle_refl.
Defined.

(** One generation on twelve copies of the straight route, its first choice
    at index 11. *)
Lemma uniform_generation_run :
  exists out s',
    generation_step line_cities [] 12 0 (replicate 12 [0; 1; 2; 3])
      (fresh [11%N]) = Ok (out, s').
Proof.
  rewrite (generation_step_uniform _ _ _ _ _ _ _ _ line_cost_straight).
  generalize 6%R. intros c. eexists _, _. vm_compute. reflexivity.
Qed.

Lemma generation_step_log_witness :
  exists out s' choices,
    generation_step line_cities [] 12 0 (replicate 12 [0; 1; 2; 3])
      (fresh [11%N]) = Ok (out, s')
    /\ trace s'
       = choices ++ rev (map EvFitness (replicate 12 [0; 1; 2; 3]))
         ++ EvGeneration :: trace (fresh [11%N])
    /\ Forall (choice_below (50 `min` 12)) choices
    /\ length choices = (2 * (length out - 10 `min` 12))%nat.
Proof.
  destruct uniform_generation_run as (out & s' & Hrun).
  destruct (generation_step_log line_cities [] 12 0 (replicate 12 [0; 1; 2; 3])
              out (fresh [11%N]) s' Hrun) as (choices & Hlog).
  exists out, s', choices. split; [exact Hrun|exact Hlog].
Defined.

Lemma generation_step_elite_witness :
  exists out s' elite dropped children,
    generation_step line_cities [] 12 0 (replicate 12 [0; 1; 2; 3])
      (fresh [11%N]) = Ok (out, s')
    /\ out = elite ++ children
    /\ elite ++ dropped ≡ₚ replicate 12 [0; 1; 2; 3]
    /\ length elite = (10 `min` 12)%nat.
Proof.
  destruct uniform_generation_run as (out & s' & Hrun).
  destruct (generation_step_elite line_cities [] 12 0
              (replicate 12 [0; 1; 2; 3]) out (fresh [11%N]) s' Hrun)
    as (elite & dropped & children & Hout & Hperm & Hlen & _).
  exists out, s', elite, dropped, children.
  split; [exact Hrun|]. split; [exact Hout|]. split; [exact Hperm|exact Hlen].
Defined.

Lemma evolve_returns_routes_witness :
  exists resp s',
    evolve (default_request line_cities []) (fresh []) = Ok (resp, s')
    /\ r_population resp <> []
    /\ Forall (fun r => r ≡ₚ range 4) (r_population resp)
    /\ (0 <= best_distance resp)%R
    /\ (1 <= 10 -> 10 <= 100 -> Z.of_nat (length (r_population resp)) = 100).
Proof.
  apply (evolve_returns_routes (default_request line_cities []) (fresh [])).
  - simpl. lia.
  - constructor.
  - intros _. simpl. lia.
Defined.

Lemma evolve_never_reports_worse_witness :
  exists resp s',
    evolve stale_request (fresh stale_words) = Ok (resp, s')
    /\ (best_distance resp <= 8)%R.
Proof.
  apply (evolve_never_reports_worse stale_request (fresh stale_words)
           [0; 2; 1; 3] 8%R).
  - simpl. lia.
  - exact (detours_are_routes 11).
  - simpl. lia.
  - left.
  - exact line_cost_detour.
Defined.

Lemma evolve_without_generations_witness :
  evolve (mkRequest line_cities [] [[0; 2; 1; 3]; [9; 9]] 5 (1 # 100) 0)
    (fresh [7%N])
  = Ok (mkResponse [[0; 2; 1; 3]; [9; 9]] [0; 2; 1; 3] 8%R 0,
        mkState (tape_of [7%N]) 0 [EvFitness [0; 2; 1; 3]]).
Proof.
  apply (evolve_without_generations
           (mkRequest line_cities [] [[0; 2; 1; 3]; [9; 9]] 5 (1 # 100) 0)
           (fresh [7%N]) [0; 2; 1; 3] [[9; 9]] 8%R).
  - simpl. lia.
  - simpl. lia.
  - reflexivity.
  - exact line_cost_detour.
Defined.

Lemma evolve_without_population_witness :
  evolve (mkRequest line_cities [] [] 0 (1 # 100) 10) (fresh [])
  = Raise IndexError.
Proof.
  apply (evolve_without_population
           (mkRequest line_cities [] [] 0 (1 # 100) 10) (fresh [])).
  - simpl. lia.
  - reflexivity.
  - simpl. lia.
Defined.

Lemma stale_request_runs :
  exists resp s', evolve stale_request (fresh stale_words) = Ok (resp, s').
Proof.
  destruct (evolve_run stale_request (fresh stale_words))
    as (pop & out & best & rest & c & s' & Hrun & _);
    [simpl; lia|exact (detours_are_routes 11)|done|].
  eauto.
Qed.

Lemma evolve_reports_first_route_witness :
  exists resp s',
    evolve stale_request (fresh stale_words) = Ok (resp, s')
    /\ r_population resp !! 0%nat = Some (best_route resp)
    /\ get_route_distance (best_route resp) line_cities []
       = Ok (best_distance resp)
    /\ generation resp = 0.
Proof.
  destruct stale_request_runs as (resp & s' & Hrun).
  exists resp, s'. split; [exact Hrun|].
  apply (evolve_reports_first_route stale_request (fresh stale_words) s' resp).
  - simpl. lia.
  - exact Hrun.
Defined.

(** Three cities and a disk whose distances and collision tests all
    return. *)
Lemma touched_tour_benign :
  benign [Binary64.mkPoint 0 0; Binary64.mkPoint 3 4; Binary64.mkPoint (-100) 0]
         [Binary64.mkObstacle 4 2 2].
Proof.
  intros a b Ha Hb.
  apply list_elem_of_In in Ha, Hb. simpl in Ha, Hb.
  destruct Ha as [<-|[<-|[<-|[]]]]; destruct Hb as [<-|[<-|[<-|[]]]];
    (split;
     [match goal with |- exists d, ?r = _ =>
        destruct r as [d|e] eqn:E; [eauto|vm_compute in E; discriminate E] end
     |intros obs Ho; apply list_elem_of_In in Ho; simpl in Ho;
      destruct Ho as [<-|[]];
      match goal with |- exists h, ?r = _ =>
        destruct r as [h|e] eqn:E; [eauto|vm_compute in E; discriminate E] end]).
Qed.

Lemma get_route_distance_outcomes_witness :
  (exists c : float,
     Binary64.get_route_distance [0; 1; 2]
       [Binary64.mkPoint 0 0; Binary64.mkPoint 3 4; Binary64.mkPoint (-100) 0]
       [Binary64.mkObstacle 4 2 2]
     = Binary64.Ok c)
  /\ Binary64.get_route_distance [0; 3; 2]
       [Binary64.mkPoint 0 0; Binary64.mkPoint 3 4; Binary64.mkPoint (-100) 0]
       [Binary64.mkObstacle 4 2 2]
     = Binary64.Raise Binary64.IndexError.
Proof.
  destruct get_route_distance_outcomes as (_ & _ & Hbenign & _).
  split.
  - apply (Hbenign [0; 1; 2] _ _ touched_tour_benign).
    repeat constructor; unfold valid_index; simpl; lia.
  - apply (Hbenign [0; 3; 2] _ _ touched_tour_benign).
    intros Hvalid. apply Forall_cons in Hvalid as [_ Hvalid].
    apply Forall_cons in Hvalid as [H3 _]. unfold valid_index in H3.
    simpl in H3. lia.
Defined.
